(** * profanity_filter: a shallow embedding of the censoring engine

    The development follows [profanity_filter/profanity_filter.py]:
    the Python built-ins the code relies on, the [OrderedSet] and
    [more_itertools.substrings_indexes] helpers, the two generators that
    prune the candidate spans, the configuration with its dictionary
    resolution, and the word- and text-level censoring functions.

    Conventions.  A Python [str] is a [list ascii]; a language name is a
    [string]; a [dict] is a [gmap], a [set] a [gset]; an [OrderedSet] is a
    duplicate-free list in insertion order.  Code that can raise returns a
    [Result]; code that mutates the filter threads the [ProfanityFilter]
    record explicitly.  Only the in-process cache is modelled
    ([_cache_redis is None], the default). *)

From Stdlib Require Import Ascii String.
From stdpp Require Import gmap strings list fin_maps fin_sets sorting.

Local Open Scope nat_scope.
Local Open Scope list_scope.

(** ** Python built-ins *)

Module Py.

Abbreviation str := (list ascii).

(** A string literal as a [str]. *)
Definition s (x : string) : str := list_ascii_of_string x.

(** [n * c] for a string [c]. *)
Definition str_mul (n : nat) (c : str) : str := mjoin (replicate n c).

(** [a in b] on strings: [a] occurs in [b] as a contiguous run. *)
Fixpoint str_in (a b : str) : bool :=
  bool_decide (a `prefix_of` b) ||
  match b with
  | [] => false
  | _ :: b' => str_in a b'
  end.

(** [t.replace(old, new)]: every non-overlapping occurrence of [old],
    left to right.  [skip] counts the characters of an occurrence that
    are still to be passed over. *)
Fixpoint replace_from (old new t : str) (skip : nat) : str :=
  match t with
  | [] => []
  | c :: t' =>
      match skip with
      | S k => replace_from old new t' k
      | O =>
          if bool_decide (old `prefix_of` t)
          then new ++ replace_from old new t' (length old - 1)
          else c :: replace_from old new t' 0
      end
  end.

Definition str_replace (t old new : str) : str :=
  match old with
  | [] => new ++ mjoin (map (fun c => c :: new) t)
  | _ => replace_from old new t 0
  end.

(** [c.lower()] on the ASCII range. *)
Definition chr_lower (c : ascii) : ascii :=
  let n := nat_of_ascii c in
  if (65 <=? n) && (n <=? 90) then ascii_of_nat (n + 32) else c.

Definition str_lower (t : str) : str := map chr_lower t.

(** [t[:i]] and [t[i:]] for [0 <= i]. *)
Definition slice_to (t : str) (i : nat) : str := take i t.
Definition slice_from (t : str) (i : nat) : str := drop i t.

End Py.
Import Py.

(** ** ordered_set.OrderedSet *)

Module OrderedSet.

Section Ops.
Context {A : Type} `{EqDecision A}.

Definition add (x : A) (o : list A) : list A :=
  if bool_decide (x ∈ o) then o else o ++ [x].

(** [o |= other] *)
Definition union (o other : list A) : list A :=
  foldl (fun acc x => add x acc) o other.

(** [OrderedSet(iterable)] *)
Definition of_iter (l : list A) : list A := union [] l.

(** [o.intersection(other)] keeps the order of [o]. *)
Definition intersection (o other : list A) : list A :=
  filter (fun x => x ∈ other) o.

Definition contains (x : A) (o : list A) : bool := bool_decide (x ∈ o).
End Ops.

End OrderedSet.

(** ** more_itertools.substrings_indexes and the two pruning generators *)

(** A candidate span [(word, start, finish)]. *)
Definition Substring : Type := str * nat * nat.

Definition sub_word (x : Substring) : str := x.1.1.
Definition sub_start (x : Substring) : nat := x.1.2.
Definition sub_finish (x : Substring) : nat := x.2.

(** [((seq[i:i+L], i, i+L) for L in r for i in range(len(seq) - L + 1))]
    with [r = range(1, len(seq)+1)], reversed when [reverse] is set. *)
Definition substrings_indexes (t : str) (reverse : bool) : list Substring :=
  let r := seq 1 (length t) in
  let r := if reverse then rev r else r in
  L ← r;
  (fun i => (take L (drop i t), i, i + L)) <$> seq 0 (length t - L + 1).

(** [all(char == censor_char for char in word)]; a character is a string
    of length one, so it equals [censor_char] when [[char] = censor_char]. *)
Definition fully_censored (censor_char : str) (word : str) : bool :=
  forallb (fun c => bool_decide ([c] = censor_char)) word.

Definition _drop_fully_censored_words_with (censor_char : str)
    (substrings : list Substring) : list Substring :=
  filter (fun x => negb (fully_censored censor_char (sub_word x))) substrings.

(** [_drop_substrings] is a generator that receives a value at every
    [yield].  Its suspended state is the rest of the input it iterates and
    the set [drop_intervals]. *)
Record DropGen : Type := mkDropGen {
  pending : list Substring;
  drop_intervals : gset (nat * nat);
}.

(** The value sent back: [(drop_start, drop_finish)], each possibly [None]. *)
Definition Drop : Type := option nat * option nat.

(** [all(start < drop_start or finish > drop_finish for ... in drop_intervals)] *)
Definition not_dropped (iv : gset (nat * nat)) (x : Substring) : bool :=
  bool_decide (set_Forall
    (fun d => sub_start x < d.1 ∨ d.2 < sub_finish x) iv).

(** Run the [for] loop until the next [yield]; [None] is [StopIteration]. *)
Fixpoint resume (iv : gset (nat * nat)) (l : list Substring)
    : option (Substring * DropGen) :=
  match l with
  | [] => None
  | x :: l' =>
      if not_dropped iv x then Some (x, mkDropGen l' iv) else resume iv l'
  end.

Definition _drop_substrings (substrings : list Substring) : DropGen :=
  mkDropGen substrings ∅.

(** [next(g)] on a generator that has not started. *)
Definition gen_next (g : DropGen) : option (Substring * DropGen) :=
  resume (drop_intervals g) (pending g).

(** [g.send(drop)]: the suspended [yield] returns [drop], the interval is
    added when both ends are not [None], and the loop goes on. *)
Definition gen_send (g : DropGen) (drop : Drop) : option (Substring * DropGen) :=
  let iv :=
    match drop with
    | (Some a, Some b) => {[ (a, b) ]} ∪ drop_intervals g
    | _ => drop_intervals g
    end in
  resume iv (pending g).

(** The spans a consumer receives when it answers the successive yields
    with [replies] (it stops when the replies or the spans run out). *)
Fixpoint drive (replies : list Drop) (y : option (Substring * DropGen))
    : list Substring :=
  match y with
  | None => []
  | Some (x, g) =>
      x :: match replies with
           | [] => []
           | d :: replies' => drive replies' (gen_send g d)
           end
  end.

(** ** Exceptions and results *)

Inductive Exn : Type :=
  | ValueError            (* "Censor char must be str of length 1" *)
  | UnboundLocalError     (* a local variable read before assignment *)
  | ProfanityFilterError. (* "Couldn't load profane words for any of
                             languages", "Couldn't load Spacy model for
                             any of languages" *)

(** [OutOfFuel] is not a Python outcome: it marks a loop of the model that
    was cut before the Python loop would have ended. *)
Inductive Result (A : Type) : Type :=
  | Ok (a : A)
  | Raise (e : Exn)
  | OutOfFuel.
Arguments Ok {A} a.
Arguments Raise {A} e.
Arguments OutOfFuel {A}.

#[global] Instance Result_ret : MRet Result := fun A a => Ok a.

#[global] Instance Result_bind : MBind Result := fun A B k r =>
  match r with
  | Ok a => k a
  | Raise e => Raise e
  | OutOfFuel => OutOfFuel
  end.

(** ** types_: words and analyses *)

Abbreviation Language := string.

(** Modelled from the spec: the enumeration [AnalysisType] of [types_],
    which is not among the sources; the code under study only names its
    member [DEEP] (the spec's "deep analysis"). *)
Inductive AnalysisType : Type := DEEP | MORPHOLOGICAL | MULTILINGUAL.

#[global] Instance AnalysisType_eq_dec : EqDecision AnalysisType.
Proof. solve_decision. Defined.

(** Modelled from the spec: the record [Word] of [types_] (section 3 of the
    spec); [original_profane_word] defaults to [None]. *)
Record Word : Type := mkWord {
  uncensored : str;
  censored : str;
  original_profane_word : option str;
}.

#[global] Instance Word_eq_dec : EqDecision Word.
Proof. solve_decision. Defined.

Abbreviation ProfaneWordDictionaries := (gmap Language (list str)).

(** [d[language]] on a [defaultdict(lambda: OrderedSet())]. *)
Definition dict_get (d : ProfaneWordDictionaries) (language : Language) : list str :=
  default [] (d !! language).

(** ** The filter and its configuration *)

(** [AVAILABLE_ANALYSES: AnalysesTypes = frozenset()] *)
Definition AVAILABLE_ANALYSES : list AnalysisType := [].

(** The attributes of a [ProfanityFilter] the modelled code reads or
    writes.  [_DATA_DIR] stands for the directory's content: for a language,
    the stripped lines of [<language>_profane_words.txt], or [None] when
    that is not a file.  A path in [_profane_word_dictionary_files] is kept
    as the lines of its file.  [_nlps] keeps the languages that have a
    pipeline in the mapping of that name; what a pipeline makes of a word
    or of a text is what the providers of the censoring functions below
    stand for.  The cached property [profane_word_dictionaries] is the
    field of that name, recomputed by
    [_update_profane_word_dictionaries]. *)
Record ProfanityFilter : Type := mkPF {
  _DATA_DIR : Language -> option (list str);
  _analyses : list AnalysisType;
  _cache_clearing_disabled : bool;
  _censor_char : str;
  _censor_whole_words : bool;
  _custom_profane_word_dictionaries : ProfaneWordDictionaries;
  _extra_profane_word_dictionaries : ProfaneWordDictionaries;
  _languages : list Language;
  _nlps : gset Language;
  _profane_word_dictionary_files : list (Language * list str);
  _censored_words : gmap str Word;
  _words_with_no_profanity_inside : gset str;
  _censor_dictionaries : ProfaneWordDictionaries;
  profane_word_dictionaries : ProfaneWordDictionaries;
}.

Definition set_analyses_field v pf :=
  mkPF (_DATA_DIR pf) v (_cache_clearing_disabled pf) (_censor_char pf)
    (_censor_whole_words pf) (_custom_profane_word_dictionaries pf)
    (_extra_profane_word_dictionaries pf) (_languages pf) (_nlps pf)
    (_profane_word_dictionary_files pf) (_censored_words pf)
    (_words_with_no_profanity_inside pf) (_censor_dictionaries pf)
    (profane_word_dictionaries pf).
Definition set_cache_clearing_disabled v pf :=
  mkPF (_DATA_DIR pf) (_analyses pf) v (_censor_char pf)
    (_censor_whole_words pf) (_custom_profane_word_dictionaries pf)
    (_extra_profane_word_dictionaries pf) (_languages pf) (_nlps pf)
    (_profane_word_dictionary_files pf) (_censored_words pf)
    (_words_with_no_profanity_inside pf) (_censor_dictionaries pf)
    (profane_word_dictionaries pf).
Definition set_censor_char_field v pf :=
  mkPF (_DATA_DIR pf) (_analyses pf) (_cache_clearing_disabled pf) v
    (_censor_whole_words pf) (_custom_profane_word_dictionaries pf)
    (_extra_profane_word_dictionaries pf) (_languages pf) (_nlps pf)
    (_profane_word_dictionary_files pf) (_censored_words pf)
    (_words_with_no_profanity_inside pf) (_censor_dictionaries pf)
    (profane_word_dictionaries pf).
Definition set_censor_whole_words_field v pf :=
  mkPF (_DATA_DIR pf) (_analyses pf) (_cache_clearing_disabled pf)
    (_censor_char pf) v (_custom_profane_word_dictionaries pf)
    (_extra_profane_word_dictionaries pf) (_languages pf) (_nlps pf)
    (_profane_word_dictionary_files pf) (_censored_words pf)
    (_words_with_no_profanity_inside pf) (_censor_dictionaries pf)
    (profane_word_dictionaries pf).
Definition set_custom_field v pf :=
  mkPF (_DATA_DIR pf) (_analyses pf) (_cache_clearing_disabled pf)
    (_censor_char pf) (_censor_whole_words pf) v
    (_extra_profane_word_dictionaries pf) (_languages pf) (_nlps pf)
    (_profane_word_dictionary_files pf) (_censored_words pf)
    (_words_with_no_profanity_inside pf) (_censor_dictionaries pf)
    (profane_word_dictionaries pf).
Definition set_extra_field v pf :=
  mkPF (_DATA_DIR pf) (_analyses pf) (_cache_clearing_disabled pf)
    (_censor_char pf) (_censor_whole_words pf)
    (_custom_profane_word_dictionaries pf) v (_languages pf) (_nlps pf)
    (_profane_word_dictionary_files pf) (_censored_words pf)
    (_words_with_no_profanity_inside pf) (_censor_dictionaries pf)
    (profane_word_dictionaries pf).
Definition set_languages_field v pf :=
  mkPF (_DATA_DIR pf) (_analyses pf) (_cache_clearing_disabled pf)
    (_censor_char pf) (_censor_whole_words pf)
    (_custom_profane_word_dictionaries pf)
    (_extra_profane_word_dictionaries pf) v (_nlps pf)
    (_profane_word_dictionary_files pf) (_censored_words pf)
    (_words_with_no_profanity_inside pf) (_censor_dictionaries pf)
    (profane_word_dictionaries pf).
Definition set_nlps_field v pf :=
  mkPF (_DATA_DIR pf) (_analyses pf) (_cache_clearing_disabled pf)
    (_censor_char pf) (_censor_whole_words pf)
    (_custom_profane_word_dictionaries pf)
    (_extra_profane_word_dictionaries pf) (_languages pf) v
    (_profane_word_dictionary_files pf) (_censored_words pf)
    (_words_with_no_profanity_inside pf) (_censor_dictionaries pf)
    (profane_word_dictionaries pf).
Definition set_files_field v pf :=
  mkPF (_DATA_DIR pf) (_analyses pf) (_cache_clearing_disabled pf)
    (_censor_char pf) (_censor_whole_words pf)
    (_custom_profane_word_dictionaries pf)
    (_extra_profane_word_dictionaries pf) (_languages pf) (_nlps pf) v
    (_censored_words pf) (_words_with_no_profanity_inside pf)
    (_censor_dictionaries pf) (profane_word_dictionaries pf).
Definition set_censored_words v pf :=
  mkPF (_DATA_DIR pf) (_analyses pf) (_cache_clearing_disabled pf)
    (_censor_char pf) (_censor_whole_words pf)
    (_custom_profane_word_dictionaries pf)
    (_extra_profane_word_dictionaries pf) (_languages pf) (_nlps pf)
    (_profane_word_dictionary_files pf) v
    (_words_with_no_profanity_inside pf) (_censor_dictionaries pf)
    (profane_word_dictionaries pf).
Definition set_words_with_no_profanity_inside v pf :=
  mkPF (_DATA_DIR pf) (_analyses pf) (_cache_clearing_disabled pf)
    (_censor_char pf) (_censor_whole_words pf)
    (_custom_profane_word_dictionaries pf)
    (_extra_profane_word_dictionaries pf) (_languages pf) (_nlps pf)
    (_profane_word_dictionary_files pf) (_censored_words pf) v
    (_censor_dictionaries pf) (profane_word_dictionaries pf).
Definition set_censor_dictionaries v pf :=
  mkPF (_DATA_DIR pf) (_analyses pf) (_cache_clearing_disabled pf)
    (_censor_char pf) (_censor_whole_words pf)
    (_custom_profane_word_dictionaries pf)
    (_extra_profane_word_dictionaries pf) (_languages pf) (_nlps pf)
    (_profane_word_dictionary_files pf) (_censored_words pf)
    (_words_with_no_profanity_inside pf) v (profane_word_dictionaries pf).
Definition set_profane_word_dictionaries v pf :=
  mkPF (_DATA_DIR pf) (_analyses pf) (_cache_clearing_disabled pf)
    (_censor_char pf) (_censor_whole_words pf)
    (_custom_profane_word_dictionaries pf)
    (_extra_profane_word_dictionaries pf) (_languages pf) (_nlps pf)
    (_profane_word_dictionary_files pf) (_censored_words pf)
    (_words_with_no_profanity_inside pf) (_censor_dictionaries pf) v.

Module Config.

(** [_update_profane_word_dictionary_files]: keep the configured
    languages that have a word file; none at all is an error. *)
Definition _update_profane_word_dictionary_files (pf : ProfanityFilter)
    : Result ProfanityFilter :=
  let files :=
    omap (fun language =>
            match _DATA_DIR pf language with
            | Some lines => Some (language, lines)
            | None => None
            end) (_languages pf) in
  let pf := set_files_field files pf in
  match files with
  | [] => Raise ProfanityFilterError
  | _ => Ok pf
  end.

(** [_load_profane_word_dictionaries] *)
Definition _load_profane_word_dictionaries (pf : ProfanityFilter)
    : Result ProfanityFilter :=
  pf ← _update_profane_word_dictionary_files pf;
  Ok (set_censor_dictionaries
        (foldl (fun d f => <[f.1 := OrderedSet.of_iter f.2]> d) ∅
               (_profane_word_dictionary_files pf)) pf).

(** The body of the cached property [profane_word_dictionaries]. *)
Definition compute_profane_word_dictionaries (pf : ProfanityFilter)
    : Result (ProfaneWordDictionaries * ProfanityFilter) :=
  '(result, pf) ←
    (if bool_decide (_custom_profane_word_dictionaries pf ≠ ∅)
     then Ok (_custom_profane_word_dictionaries pf, pf)
     else pf ← _load_profane_word_dictionaries pf;
          Ok (_censor_dictionaries pf, pf));
  Ok (foldl
        (fun result language =>
           <[language :=
               OrderedSet.union (dict_get result language)
                 (dict_get (_extra_profane_word_dictionaries pf) language)]>
             result)
        result
        (OrderedSet.intersection (_languages pf)
           (elements (dom (_extra_profane_word_dictionaries pf)))),
      pf).

(** [_update_profane_word_dictionaries]: drop the cached value and
    evaluate the property again. *)
Definition _update_profane_word_dictionaries (pf : ProfanityFilter)
    : Result ProfanityFilter :=
  if _cache_clearing_disabled pf then Ok pf
  else
    '(result, pf) ← compute_profane_word_dictionaries pf;
    Ok (set_profane_word_dictionaries result pf).

Definition _clear_words_cache (pf : ProfanityFilter) : ProfanityFilter :=
  set_words_with_no_profanity_inside ∅ (set_censored_words ∅ pf).

Definition clear_cache (pf : ProfanityFilter) : Result ProfanityFilter :=
  if _cache_clearing_disabled pf then Ok pf
  else
    pf ← _update_profane_word_dictionary_files pf;
    pf ← _update_profane_word_dictionaries pf;
    Ok (_clear_words_cache pf).

(** The property setters. *)
Definition set_analyses (value : list AnalysisType) (pf : ProfanityFilter)
    : Result ProfanityFilter :=
  clear_cache
    (set_analyses_field (OrderedSet.intersection AVAILABLE_ANALYSES value) pf).

Definition set_censor_char (value : str) (pf : ProfanityFilter)
    : Result ProfanityFilter :=
  if bool_decide (length value ≠ 1) then Raise ValueError
  else clear_cache (set_censor_char_field value pf).

Definition set_censor_whole_words (value : bool) (pf : ProfanityFilter)
    : Result ProfanityFilter :=
  clear_cache (set_censor_whole_words_field value pf).

Definition acceptable (value : option (gmap Language (list str)))
    : ProfaneWordDictionaries :=
  match value with
  | None => ∅
  | Some value => OrderedSet.of_iter <$> value
  end.

Definition set_custom_profane_word_dictionaries
    (value : option (gmap Language (list str))) (pf : ProfanityFilter)
    : Result ProfanityFilter :=
  clear_cache (set_custom_field (acceptable value) pf).

Definition set_extra_profane_word_dictionaries
    (value : option (gmap Language (list str))) (pf : ProfanityFilter)
    : Result ProfanityFilter :=
  clear_cache (set_extra_field (acceptable value) pf).

(** The [nlps] setter.  It clears the cache first.  Given a mapping it
    stores it; given [None] it loads the model of every language in turn,
    keeps those for which [spacy.load] does not end in the [OSError] the
    loop suppresses, and raises when none is left.  [spacy_load] tells for
    which languages [spacy.load] returns; the pipelines it returns, and
    the component added to each, are outside the model.  [load_models] is
    the loop. *)
Definition load_models (spacy_load : Language -> bool)
    (languages : list Language) : gset Language :=
  foldl (fun nlps language =>
           if spacy_load language then {[ language ]} ∪ nlps else nlps)
        ∅ languages.

Definition set_nlps (spacy_load : Language -> bool)
    (value : option (gset Language)) (pf : ProfanityFilter)
    : Result ProfanityFilter :=
  pf ← clear_cache pf;
  match value with
  | Some value => Ok (set_nlps_field value pf)
  | None =>
      let pf := set_nlps_field (load_models spacy_load (_languages pf)) pf in
      if bool_decide (_nlps pf = ∅) then Raise ProfanityFilterError
      else Ok pf
  end.

(** [_set_languages]; the setters of [morphs] and [spells] it calls under
    [load_morphs] and [load_spells] do nothing ([pass]), and
    [_update_languages_str] only refreshes a cached string. *)
Definition _set_languages (spacy_load : Language -> bool)
    (value : list Language) (load_nlps : bool) (pf : ProfanityFilter)
    : Result ProfanityFilter :=
  let pf := set_languages_field (OrderedSet.of_iter value) pf in
  pf ← (if load_nlps then set_nlps spacy_load None pf else Ok pf);
  clear_cache pf.

(** [config], without [cache_redis_connection_url], [max_relative_distance]
    (a float the modelled code does not read), [morphs] and [spells]
    (their setters do nothing). *)
Definition config (spacy_load : Language -> bool)
    (languages : list Language) (analyses : list AnalysisType)
    (censor_char : str) (censor_whole_words : bool)
    (custom extra : option (gmap Language (list str)))
    (nlps : option (gset Language))
    (pf : ProfanityFilter) : Result ProfanityFilter :=
  pf ← set_analyses analyses pf;
  pf ← set_censor_char censor_char pf;
  pf ← set_censor_whole_words censor_whole_words pf;
  pf ← set_custom_profane_word_dictionaries custom pf;
  pf ← set_extra_profane_word_dictionaries extra pf;
  pf ← _set_languages spacy_load languages (bool_decide (nlps = None)) pf;
  match nlps with
  | Some _ => set_nlps spacy_load nlps pf
  | None => Ok pf
  end.

(** [__init__]: the dummy values, [config] with cache clearing disabled,
    then one [clear_cache]. *)
Definition init (data_dir : Language -> option (list str))
    (spacy_load : Language -> bool)
    (languages : list Language) (analyses : list AnalysisType)
    (censor_char : str) (censor_whole_words : bool)
    (custom extra : option (gmap Language (list str)))
    (nlps : option (gset Language))
    : Result ProfanityFilter :=
  let pf := mkPF data_dir [] false [] false ∅ ∅ [] ∅ [] ∅ ∅ ∅ ∅ in
  pf ← config spacy_load languages analyses censor_char censor_whole_words
             custom extra nlps (set_cache_clearing_disabled true pf);
  clear_cache (set_cache_clearing_disabled false pf).

(** [restore_profane_word_dictionaries]: both setters in turn, with
    [None]. *)
Definition restore_profane_word_dictionaries (pf : ProfanityFilter)
    : Result ProfanityFilter :=
  pf ← set_custom_profane_word_dictionaries None pf;
  set_extra_profane_word_dictionaries None pf.

End Config.

(** ** Normalized forms of a word *)

(** [DummyHunSpell] is the only spell checker the module can build:
    [HunSpell = DummyHunSpell], and the [spells] setter stores nothing. *)
Inductive HunSpell : Type := DummyHunSpell.

#[global] Instance HunSpell_eq_dec : EqDecision HunSpell.
Proof. solve_decision. Defined.

Definition spell (_ : HunSpell) (word : str) : str := word.

(** [stem] returns [[word.encode('utf8')]], which [_stems] decodes again
    with the encoding the same object reports. *)
Definition stem (_ : HunSpell) (word : str) : list str := [word].

Definition _spells : gmap Language HunSpell := ∅.

(** A spaCy token, by the attributes the code reads. *)
Record Token : Type := mkToken {
  text : str;
  lemma_ : str;
  lower_ : str;
}.

Section Engine.

(** The lemma spaCy assigns to a word parsed on its own under the
    pipeline chosen for a language: the external normalization
    provider. *)
Variable spacy_lemma : option Language -> str -> str.

(** Modelled from the spec: [spacy_utlis.make_token], which is not among
    the sources; the token exposes the original surface text of the word
    (section 6 of the spec). *)
Definition _make_spacy_token (language : option Language) (word : str) : Token :=
  mkToken word (spacy_lemma language word) (str_lower word).

Definition _generate_fully_censored_word (pf : ProfanityFilter) (word : str) : str :=
  str_mul (length word) (_censor_char pf).

Definition _drop_fully_censored_words (pf : ProfanityFilter)
    (substrings : list Substring) : list Substring :=
  _drop_fully_censored_words_with (_censor_char pf) substrings.

Definition _get_spells (pf : ProfanityFilter) (language : option Language)
    : list HunSpell :=
  let result := [DummyHunSpell] in
  if bool_decide (DEEP ∉ _analyses pf) then result
  else
    match language with
    | None => OrderedSet.of_iter (map snd (map_to_list _spells))
    | Some language =>
        match list_find (fun l => is_Some (_spells !! l))
                (OrderedSet.union [language] (_languages pf)) with
        | Some (_, l) =>
            match _spells !! l with Some h => [h] | None => result end
        | None => result
        end
    end.

Definition _stems (pf : ProfanityFilter) (language : option Language)
    (word : str) : list str :=
  OrderedSet.of_iter
    (spell_ ← _get_spells pf language; stem spell_ word).

(** [DummyMorphAnalyzer.parse(word)[0].normal_form] is [word]. *)
Definition _normal_forms (word : str) : list str := OrderedSet.of_iter [word].

Definition _lemmas (pf : ProfanityFilter) (language : option Language)
    (word : Token) : list str :=
  let result := [] in
  match text word with
  | [] => result
  | _ =>
      let spacy_lemma_ := lemma_ word in
      let result := OrderedSet.add (text word) result in
      let spacy_lemma_ :=
        if bool_decide (spacy_lemma_ ≠ s "-PRON-")
        then str_lower spacy_lemma_ else lower_ word in
      let result := OrderedSet.add spacy_lemma_ result in
      let result := OrderedSet.union result (_stems pf language (text word)) in
      OrderedSet.union result (_normal_forms (text word))
  end.

(** [any(spell.spell(word) for spell in ...)]: a string is true when it
    is not empty. *)
Definition _is_dictionary_word (pf : ProfanityFilter)
    (language : option Language) (word : str) : bool :=
  existsb (fun h => bool_decide (spell h word ≠ []))
          (_get_spells pf language).

(** ** The two caches *)

Definition _get_words_with_no_profanity_inside (pf : ProfanityFilter) : gset str :=
  _words_with_no_profanity_inside pf.

(** [word in word_with_no_profanity_inside] is a test on two strings. *)
Definition _has_no_profanity (pf : ProfanityFilter) (words : list str) : bool :=
  existsb
    (fun word =>
       existsb (fun clean => str_in word clean)
               (elements (_get_words_with_no_profanity_inside pf)))
    words.

Definition _is_profane_word (pf : ProfanityFilter)
    (language : option Language) (word : str) : bool :=
  let dictionaries :=
    match language with
    | None => map snd (map_to_list (profane_word_dictionaries pf))
    | Some language => [dict_get (profane_word_dictionaries pf) language]
    end in
  existsb (fun d => OrderedSet.contains word d) dictionaries.

Definition _get_censored_word (pf : ProfanityFilter) (word : Token) : option Word :=
  _censored_words pf !! text word.

Definition _save_censored_word (pf : ProfanityFilter) (word : Word) : ProfanityFilter :=
  set_censored_words (<[uncensored word := word]> (_censored_words pf)) pf.

Definition _save_word_with_no_profanity_inside (pf : ProfanityFilter)
    (word : Token) : ProfanityFilter :=
  set_words_with_no_profanity_inside
    ({[ text word ]} ∪ _words_with_no_profanity_inside pf) pf.

(** ** _censor_word_part *)

(** The [for lemma in lemmas] loop.  The local [censored] is assigned
    only under [if self.censor_whole_words]; reading it otherwise is
    Python's [UnboundLocalError]. *)
Fixpoint first_profane_lemma (pf : ProfanityFilter)
    (language : option Language) (word : Token) (lemmas : list str)
    : Result (Word * bool * ProfanityFilter) :=
  match lemmas with
  | [] => Ok (mkWord (text word) (text word) None, false, pf)
  | lemma :: lemmas' =>
      if _is_profane_word pf language lemma then
        let censored : option str :=
          if _censor_whole_words pf
          then Some (_generate_fully_censored_word pf (text word))
          else None in
        match censored with
        | None => Raise UnboundLocalError
        | Some censored =>
            let censored_word := mkWord (text word) censored (Some lemma) in
            Ok (censored_word, false, _save_censored_word pf censored_word)
        end
      else first_profane_lemma pf language word lemmas'
  end.

(** Returns the censored word and the flag of no profanity inside. *)
Definition _censor_word_part (pf : ProfanityFilter)
    (language : option Language) (word : Token)
    : Result (Word * bool * ProfanityFilter) :=
  let lemmas := _lemmas pf language word in
  if _has_no_profanity pf lemmas
  then Ok (mkWord (text word) (text word) None, true, pf)
  else
    match _get_censored_word pf word with
    | Some censored_word => Ok (censored_word, false, pf)
    | None => first_profane_lemma pf language word lemmas
    end.

(** ** _censor_word *)

(** The inner [while True] loop, entered with the span [x] the generator
    [g] has just yielded.  [tested] lists the spans handed to
    [_censor_word_part] in this pass; it is not program state.  Each turn
    takes a span out of [g], so [fuel = S (length (pending g))] is
    enough. *)
Fixpoint scan (fuel : nat) (pf : ProfanityFilter)
    (language : option Language) (word : Token)
    (censored_word_prev censored_word : Word)
    (g : DropGen) (x : Substring) (no_profanity : Drop)
    (tested : list Substring)
    : Result (Word * ProfanityFilter * list Substring) :=
  match fuel with
  | O => OutOfFuel
  | S fuel =>
      let censored_part := _make_spacy_token language (sub_word x) in
      part ← _censor_word_part pf language censored_part;
      let '(censored_censored_part, no_profanity_inside, pf) :=
        (part : Word * bool * ProfanityFilter) in
      let no_profanity : Drop :=
        if no_profanity_inside
        then (Some (sub_start x), Some (sub_finish x)) else no_profanity in
      let censored_word :=
        if bool_decide (censored censored_censored_part ≠ text censored_part)
        then
          let censored :=
            if _censor_whole_words pf
            then _generate_fully_censored_word pf (text word)
            else str_replace (censored censored_word_prev)
                   (text censored_part) (censored censored_censored_part) in
          mkWord (text word) censored
                 (original_profane_word censored_censored_part)
        else censored_word in
      let tested := tested ++ [x] in
      if bool_decide (DEEP ∉ _analyses pf)
         || bool_decide (censored_word ≠ censored_word_prev)
      then Ok (censored_word, pf, tested)
      else
        match gen_send g no_profanity with
        | None => Ok (censored_word, pf, tested)
        | Some (x', g') =>
            scan fuel pf language word censored_word_prev censored_word
                 g' x' no_profanity tested
        end
  end.

(** What a run of the outer loop leaves: the word, the filter, the number
    of passes of the [while censored_word != censored_word_prev] loop that
    were started, and the spans tested in each. *)
Record CensorRun : Type := mkRun {
  run_word : Word;
  run_pf : ProfanityFilter;
  run_passes : nat;
  run_tested : list (list Substring);
}.

(** The outer loop; [fuel] bounds the passes. *)
Fixpoint passes_loop (fuel : nat) (pf : ProfanityFilter)
    (language : option Language) (word : Token)
    (censored_word_prev : option Word) (censored_word : Word)
    (passes : nat) (tested : list (list Substring)) : Result CensorRun :=
  if bool_decide (Some censored_word = censored_word_prev)
  then Ok (mkRun censored_word pf passes tested)
  else
    match fuel with
    | O => OutOfFuel
    | S fuel =>
        let censored_word_prev := censored_word in
        let substrings :=
          _drop_substrings
            (_drop_fully_censored_words pf
               (substrings_indexes (censored censored_word_prev) true)) in
        match gen_next substrings with
        | None => Ok (mkRun censored_word pf (S passes) (tested ++ [[]]))
        | Some (x, g) =>
            pass ← scan (S (length (pending g))) pf language word
                      censored_word_prev censored_word g x (None, None) [];
            let '(censored_word, pf, tested_now) :=
              (pass : Word * ProfanityFilter * list Substring) in
            passes_loop fuel pf language word (Some censored_word_prev)
                        censored_word (S passes) (tested ++ [tested_now])
        end
    end.

(** The statements after the loop. *)
Definition finish_word (pf : ProfanityFilter) (language : option Language)
    (word : Token) (censored_word : Word) : ProfanityFilter :=
  if bool_decide (censored censored_word = text word) then
    if bool_decide (DEEP ∈ _analyses pf)
       && negb (_is_dictionary_word pf language (text word))
    then _save_word_with_no_profanity_inside pf word
    else pf
  else _save_censored_word pf censored_word.

Definition _censor_word_run (fuel : nat) (pf : ProfanityFilter)
    (language : option Language) (word : Token) : Result CensorRun :=
  r ← passes_loop fuel pf language word None
        (mkWord (text word) (text word) None) 0 [];
  Ok (mkRun (run_word r)
            (finish_word (run_pf r) language word (run_word r))
            (run_passes r) (run_tested r)).

(** [_censor_word].  The Python loop carries no bound; here it is given
    as many passes as the word has characters, and one more, which the
    termination theorem shows is never used up in a state [pf_ok]. *)
Definition _censor_word (pf : ProfanityFilter) (language : option Language)
    (word : Token) : Result (Word * ProfanityFilter) :=
  r ← _censor_word_run (S (length (text word))) pf language word;
  Ok (run_word r, run_pf r).

Definition censor_word (pf : ProfanityFilter) (word : str)
    (language : option Language) : Result (Word * ProfanityFilter) :=
  let word := _make_spacy_token language word in
  _censor_word pf language word.

End Engine.

(** ** Censoring a text *)

(** A token of a parsed text, with the extension attributes the profanity
    filter component of the pipeline sets on it. *)
Record DocToken : Type := mkDocToken {
  idx : nat;
  tok_text : str;
  is_profane : bool;
  tok_censored : str;
}.

(** [_split_by_language]: [languages] is the literal one-element
    [OrderedSet(['en_core_web_sm'])], so [len(languages) == 1] holds and the
    whole text is returned as one part. *)
Definition _split_by_language (text : str) : list (Language * str) :=
  let languages := ["en_core_web_sm"%string] in
  match languages with
  | [language] => [(language, text)]
  | _ => []
  end.

(** [text[:old.idx] + new + text[old.idx + len(old.text):]] *)
Definition _replace_token (text : str) (old : DocToken) (new : str) : str :=
  slice_to text (idx old) ++ new
  ++ slice_from text (idx old + length (tok_text old)).

(** The [while i < len(parts)] loop of [_merge_by_language], over the parts
    from index [i] on. *)
Fixpoint merge_loop (parts : list (Language * str)) (language : Language)
    (merged : str) (result : list (Language * str)) : list (Language * str) :=
  match parts with
  | [] => result ++ [(language, merged)]
  | part :: parts' =>
      if bool_decide (part.1 ≠ language)
      then merge_loop parts' part.1 part.2 (result ++ [(language, merged)])
      else merge_loop parts' language (merged ++ part.2) result
  end.

(** [_merge_by_language]; [parts[0]] on an empty list is an [IndexError],
    here [None]. *)
Definition _merge_by_language (parts : list (Language * str))
    : option (list (Language * str)) :=
  match parts with
  | [] => None
  | part :: parts' => Some (merge_loop parts' part.1 part.2 [])
  end.

Section Text.

Variable spacy_lemma : option Language -> str -> str.

(** The tokens the tokenizer of the pipeline makes of a text, each with
    its character offset and its surface text. *)
Variable spacy_tokens : Language -> str -> list (nat * str).

(** Modelled from the spec: the pipeline component of
    [spacy_component], which is not among the sources.  Each token goes
    through [_censor_word] in turn (section 2 of the spec); it is profane
    when its censored form differs from its text. *)
Fixpoint censor_tokens (pf : ProfanityFilter) (language : Language)
    (tokens : list (nat * str)) : Result (list DocToken * ProfanityFilter) :=
  match tokens with
  | [] => Ok ([], pf)
  | (i, t) :: tokens' =>
      r ← _censor_word spacy_lemma pf (Some language)
             (_make_spacy_token spacy_lemma (Some language) t);
      let '(w, pf) := (r : Word * ProfanityFilter) in
      r' ← censor_tokens pf language tokens';
      let '(doc, pf) := (r' : list DocToken * ProfanityFilter) in
      Ok (mkDocToken i t (bool_decide (censored w ≠ uncensored w)) (censored w)
            :: doc, pf)
  end.

(** [_parse] with [use_profanity_filter=True]. *)
Definition _parse (pf : ProfanityFilter) (language : Language) (text : str)
    : Result (list DocToken * ProfanityFilter) :=
  censor_tokens pf language (spacy_tokens language text).

(** The [for token in doc] loop of [_censor]. *)
Definition replace_profane (result_part : str) (doc : list DocToken) : str :=
  foldl (fun result_part token =>
           if is_profane token
           then _replace_token result_part token (tok_censored token)
           else result_part)
        result_part doc.

(** The [for language, text_part in text_parts] loop of [_censor]. *)
Fixpoint censor_parts (pf : ProfanityFilter) (text_parts : list (Language * str))
    (result : str) : Result (str * ProfanityFilter) :=
  match text_parts with
  | [] => Ok (result, pf)
  | (language, text_part) :: text_parts' =>
      r ← _parse pf language text_part;
      let '(doc, pf) := (r : list DocToken * ProfanityFilter) in
      censor_parts pf text_parts' (result ++ replace_profane text_part doc)
  end.

Definition _censor (pf : ProfanityFilter) (text : str)
    : Result (str * ProfanityFilter) :=
  censor_parts pf (_split_by_language text) [].

(** [censor] *)
Definition censor (pf : ProfanityFilter) (text : str)
    : Result (str * ProfanityFilter) :=
  _censor pf text.

End Text.

(** * Specification vocabulary *)

(** ** Spans and intervals *)

(** A span lies inside a suppressed interval. *)
Definition inside (x : Substring) (d : nat * nat) : Prop :=
  d.1 <= sub_start x /\ sub_finish x <= d.2.

(** A span and an interval [[a, b)] are not disjoint. *)
Definition overlaps (x : Substring) (d : nat * nat) : Prop :=
  sub_start x < d.2 /\ d.1 < sub_finish x.

(** The interval [d] is stored once the generator [g] has received the
    reply [drop]: it was stored before, or it is the interval the reply
    names. *)
Definition stored_after (g : DropGen) (drop : Drop) (d : nat * nat) : Prop :=
  d ∈ drop_intervals g \/ drop = (Some d.1, Some d.2).

(** The span that covers a whole text. *)
Definition whole_span (t : str) : Substring := (t, 0, length t).

(** At most one span was tested, and it covers a whole text. *)
Definition one_whole_span (l : list Substring) : Prop :=
  l = [] \/ exists t, l = [whole_span t].

(** ** Dictionary resolution *)

(** The word files of the configured languages. *)
Definition files_of (pf : ProfanityFilter) : list (Language * list str) :=
  omap (fun language =>
          match _DATA_DIR pf language with
          | Some lines => Some (language, lines)
          | None => None
          end) (_languages pf).

(** The dictionary loaded from the word file of a configured language. *)
Definition base_dictionary (pf : ProfanityFilter) (language : Language) : list str :=
  if bool_decide (language ∈ _languages pf) then
    match _DATA_DIR pf language with
    | Some lines => OrderedSet.of_iter lines
    | None => []
    end
  else [].

(** The fields of the configuration proper. *)
Definition same_config (pf pf' : ProfanityFilter) : Prop :=
  _DATA_DIR pf' = _DATA_DIR pf /\
  _analyses pf' = _analyses pf /\
  _cache_clearing_disabled pf' = _cache_clearing_disabled pf /\
  _censor_char pf' = _censor_char pf /\
  _censor_whole_words pf' = _censor_whole_words pf /\
  _custom_profane_word_dictionaries pf' = _custom_profane_word_dictionaries pf /\
  _extra_profane_word_dictionaries pf' = _extra_profane_word_dictionaries pf /\
  _languages pf' = _languages pf.

(** The dictionary of a language after resolution, as a set. *)
Definition resolves_to (pf : ProfanityFilter) (language : Language) (w : str) : Prop :=
  w ∈ (if bool_decide (_custom_profane_word_dictionaries pf ≠ ∅)
       then dict_get (_custom_profane_word_dictionaries pf) language
       else base_dictionary pf language)
  \/ (language ∈ _languages pf /\
      w ∈ dict_get (_extra_profane_word_dictionaries pf) language).

(** The pipelines [config] leaves: those it was given, or else those of
    the languages whose model loads. *)
Definition pipelines (spacy_load : Language -> bool)
    (languages : list Language) (nlps : option (gset Language))
    : gset Language :=
  match nlps with
  | Some nlps => nlps
  | None => Config.load_models spacy_load (OrderedSet.of_iter languages)
  end.

(** [config] while cache clearing is disabled only stores the values. *)
Definition configured (spacy_load : Language -> bool)
    (languages : list Language) (analyses : list AnalysisType)
    (censor_char : str) (censor_whole_words : bool)
    (custom extra : option (gmap Language (list str)))
    (nlps : option (gset Language))
    (pf : ProfanityFilter) : ProfanityFilter :=
  set_nlps_field (pipelines spacy_load languages nlps)
    (set_languages_field (OrderedSet.of_iter languages)
       (set_extra_field (Config.acceptable extra)
          (set_custom_field (Config.acceptable custom)
             (set_censor_whole_words_field censor_whole_words
                (set_censor_char_field censor_char
                   (set_analyses_field
                      (OrderedSet.intersection AVAILABLE_ANALYSES analyses)
                      pf)))))).

(** The dictionaries [clear_cache] resolves. *)
Definition resolved (pf : ProfanityFilter) : ProfaneWordDictionaries :=
  foldl (fun result language =>
           <[language :=
               OrderedSet.union (dict_get result language)
                 (dict_get (_extra_profane_word_dictionaries pf) language)]>
             result)
        (if bool_decide (_custom_profane_word_dictionaries pf ≠ ∅)
         then _custom_profane_word_dictionaries pf
         else foldl (fun d f => <[f.1 := OrderedSet.of_iter f.2]> d) ∅
                (files_of pf))
        (OrderedSet.intersection (_languages pf)
           (elements (dom (_extra_profane_word_dictionaries pf)))).

(** The filter [clear_cache] leaves when it returns. *)
Definition cleared (pf : ProfanityFilter) : ProfanityFilter :=
  Config._clear_words_cache
    (set_profane_word_dictionaries (resolved pf)
       (set_censor_dictionaries
          (if bool_decide (_custom_profane_word_dictionaries pf ≠ ∅)
           then _censor_dictionaries pf
           else foldl (fun d f => <[f.1 := OrderedSet.of_iter f.2]> d) ∅
                  (files_of pf))
          (set_files_field (files_of pf) pf))).

(** ** The state a filter can be in *)

(** What [__init__] and the setters establish and censoring keeps: deep
    analysis is not among the analyses, the censor character is one
    character, and a cached word is stored under its own text with its mask
    as censored form. *)
Record pf_ok (pf : ProfanityFilter) : Prop := mk_pf_ok {
  ok_no_deep : DEEP ∉ _analyses pf;
  ok_censor_char : length (_censor_char pf) = 1;
  ok_cache : forall k w,
    _censored_words pf !! k = Some w ->
    uncensored w = k /\ censored w = str_mul (length k) (_censor_char pf);
}.

(** Two filters that differ in the cache of censored words only. *)
Definition same_but_cache (pf pf' : ProfanityFilter) : Prop :=
  exists m, pf' = set_censored_words m pf.

(** The censor character repeated to the length of [t]. *)
Definition full_mask (pf : ProfanityFilter) (t : str) : str :=
  str_mul (length t) (_censor_char pf).

(** Some normalized form of the word is in the dictionary. *)
Definition has_profane_lemma (pf : ProfanityFilter)
    (language : option Language) (word : Token) : bool :=
  existsb (_is_profane_word pf language) (_lemmas pf language word).

(** The five ways [_censor_word_part] can end. *)
Inductive part_outcome (pf : ProfanityFilter) (language : option Language)
    (word : Token) : Result (Word * bool * ProfanityFilter) -> Prop :=
  | part_known_clean :
      _has_no_profanity pf (_lemmas pf language word) = true ->
      part_outcome pf language word
        (Ok (mkWord (text word) (text word) None, true, pf))
  | part_cached w :
      _has_no_profanity pf (_lemmas pf language word) = false ->
      _censored_words pf !! text word = Some w ->
      part_outcome pf language word (Ok (w, false, pf))
  | part_unmatched :
      _has_no_profanity pf (_lemmas pf language word) = false ->
      _censored_words pf !! text word = None ->
      has_profane_lemma pf language word = false ->
      part_outcome pf language word
        (Ok (mkWord (text word) (text word) None, false, pf))
  | part_masked lemma :
      _has_no_profanity pf (_lemmas pf language word) = false ->
      _censored_words pf !! text word = None ->
      _censor_whole_words pf = true ->
      lemma ∈ _lemmas pf language word ->
      _is_profane_word pf language lemma = true ->
      part_outcome pf language word
        (let w := mkWord (text word)
                    (_generate_fully_censored_word pf (text word))
                    (Some lemma) in
         Ok (w, false, _save_censored_word pf w))
  | part_unbound :
      _has_no_profanity pf (_lemmas pf language word) = false ->
      _censored_words pf !! text word = None ->
      _censor_whole_words pf = false ->
      has_profane_lemma pf language word = true ->
      part_outcome pf language word (Raise UnboundLocalError).

Section EngineSpec.

Variable spacy_lemma : option Language -> str -> str.

Abbreviation tok := (_make_spacy_token spacy_lemma).

(** What one turn of the inner loop makes of the current word. *)
Definition rewrite_word (pf : ProfanityFilter) (word : Token)
    (prev cur : Word) (part_text : str) (cc : Word) : Word :=
  if bool_decide (censored cc ≠ part_text)
  then mkWord (text word)
         (if _censor_whole_words pf
          then _generate_fully_censored_word pf (text word)
          else str_replace (censored prev) part_text (censored cc))
         (original_profane_word cc)
  else cur.

(** The four ways a run of [_censor_word] can end in a state that
    satisfies [pf_ok]. *)
Inductive run_outcome (pf : ProfanityFilter) (language : option Language)
    (word : Token) : Result CensorRun -> Prop :=
  | run_nothing_to_test :
      text word = [] \/ fully_censored (_censor_char pf) (text word) = true ->
      run_outcome pf language word
        (Ok (mkRun (mkWord (text word) (text word) None) pf 1 [[]]))
  | run_unchanged :
      text word <> [] ->
      fully_censored (_censor_char pf) (text word) = false ->
      _has_no_profanity pf (_lemmas pf language (tok language (text word))) = true
      \/ (_censored_words pf !! text word = None /\
          has_profane_lemma pf language (tok language (text word)) = false) ->
      run_outcome pf language word
        (Ok (mkRun (mkWord (text word) (text word) None) pf 1
                   [[whole_span (text word)]]))
  | run_masked opw :
      text word <> [] ->
      fully_censored (_censor_char pf) (text word) = false ->
      _has_no_profanity pf (_lemmas pf language (tok language (text word))) = false ->
      (exists w, _censored_words pf !! text word = Some w /\
                 opw = original_profane_word w)
      \/ (_censored_words pf !! text word = None /\
          _censor_whole_words pf = true /\
          exists lemma, lemma ∈ _lemmas pf language (tok language (text word)) /\
                        _is_profane_word pf language lemma = true /\
                        opw = Some lemma) ->
      run_outcome pf language word
        (let w := mkWord (text word) (full_mask pf (text word)) opw in
         Ok (mkRun w (_save_censored_word pf w) 2
                   [[whole_span (text word)]; []]))
  | run_raises :
      text word <> [] ->
      fully_censored (_censor_char pf) (text word) = false ->
      _has_no_profanity pf (_lemmas pf language (tok language (text word))) = false ->
      _censored_words pf !! text word = None ->
      _censor_whole_words pf = false ->
      has_profane_lemma pf language (tok language (text word)) = true ->
      run_outcome pf language word (Raise UnboundLocalError).

End EngineSpec.

(** ** Words a call leaves alone *)

(** [_censor_word] leaves the word [t] as it is: there is nothing in it to
    test, or it is known clean, or it is neither cached nor has a normalized
    form in the dictionary. *)
Definition left_alone (spacy_lemma : option Language -> str -> str)
    (pf : ProfanityFilter) (language : option Language) (t : str) : bool :=
  let word := _make_spacy_token spacy_lemma language t in
  bool_decide (t = [])
  || fully_censored (_censor_char pf) t
  || _has_no_profanity pf (_lemmas pf language word)
  || (bool_decide (_censored_words pf !! t = None)
      && negb (has_profane_lemma pf language word)).

(** The token [it] of a censored text is a run of the censor character, or
    the text of a token of [doc] that was not found profane. *)
Definition stable_token (censor_char : str) (doc : list DocToken)
    (it : nat * str) : bool :=
  fully_censored censor_char it.2
  || existsb (fun d => bool_decide (tok_text d = it.2) && negb (is_profane d)) doc.

(** ** The order of the spans and the replies of a consumer *)

(** The length of a span. *)
Definition sub_length (x : Substring) : nat := sub_finish x - sub_start x.

(** The order of the reversed enumeration: longer spans first, and spans
    of one length from left to right. *)
Definition span_before (x y : Substring) : Prop :=
  sub_length y < sub_length x
  \/ (sub_length y = sub_length x /\ sub_start x < sub_start y).

(** The consumer's reply names no complete interval. *)
Definition no_interval (d : Drop) : Prop := d.1 = None \/ d.2 = None.

(** ** Forms, positions and parts *)

(** The second normalized form of a token: its spaCy lemma in lower case,
    or the lower-cased text when the lemma is the pronoun marker. *)
Definition lowered_lemma (word : Token) : str :=
  if bool_decide (lemma_ word ≠ s "-PRON-")
  then str_lower (lemma_ word) else lower_ word.

(** The positions of a text that a token at offset [i] with text [t]
    covers. *)
Definition covers (i : nat) (t : str) (k : nat) : Prop :=
  i <= k < i + length t.

(** No two neighbouring parts have the same language. *)
Fixpoint alternating (parts : list (Language * str)) : Prop :=
  match parts with
  | p :: rest =>
      match rest with
      | q :: _ => p.1 <> q.1
      | [] => True
      end /\ alternating rest
  | [] => True
  end.

(** The text the parts make up. *)
Definition whole_text (parts : list (Language * str)) : str :=
  mjoin (parts.*2).

(** Every dictionary of the mapping is duplicate-free. *)
Definition sets_only (d : ProfaneWordDictionaries) : Prop :=
  forall l words, d !! l = Some words -> NoDup words.

(** ** Worked configurations *)

Module Ex.

(** A data directory with one word file, [en_profane_words.txt]. *)
Definition english (language : Language) : option (list str) :=
  if bool_decide (language = "en"%string)
  then Some [s "ass"; s "fuck"] else None.

(** Every spaCy model asked for is installed. *)
Definition installed (language : Language) : bool := true.

(** No spaCy model is installed. *)
Definition nothing_installed (language : Language) : bool := false.

(** An empty data directory. *)
Definition no_files (language : Language) : option (list str) := None.

(** A lemmatizer that only lower-cases. *)
Definition lower_lemma (_ : option Language) (word : str) : str :=
  str_lower word.

Definition blank : ProfanityFilter :=
  mkPF no_files [] false [] false ∅ ∅ [] ∅ [] ∅ ∅ ∅ ∅.

Definition get (r : Result ProfanityFilter) : ProfanityFilter :=
  match r with Ok pf => pf | _ => blank end.

(** [ProfanityFilter(languages=['en'])] over [english] with the models
    [installed], whole words censored, all analyses asked for. *)
Definition whole : ProfanityFilter :=
  get (Config.init english installed ["en"%string]
         [DEEP; MORPHOLOGICAL; MULTILINGUAL] (s "*") true None None None).

(** The same with [censor_whole_words=False]. *)
Definition partial : ProfanityFilter :=
  get (Config.init english installed ["en"%string]
         [DEEP; MORPHOLOGICAL; MULTILINGUAL] (s "*") false None None None).

End Ex.

Module ExDict.
(** Word files for two languages. *)
Definition two_files (language : Language) : option (list str) :=
  if bool_decide (language = "en"%string) then Some [s "fuck"]
  else if bool_decide (language = "ru"%string) then Some [s "blin"]
  else None.

(** Both languages configured, a custom dictionary for "ru" only. *)
Definition custom_ru : ProfanityFilter :=
  Ex.get (Config.init two_files Ex.installed ["en"%string; "ru"%string] []
            (s "*") true (Some {[ "ru"%string := [s "foo"] ]}) None None).
End ExDict.

Module ExText.

(** A tokenizer in the manner of spaCy on plain input: a run of letters
    and digits is a token, any other character that is not a blank is a
    token of its own. *)
Definition is_alnum (c : ascii) : bool :=
  let n := nat_of_ascii c in
  ((48 <=? n) && (n <=? 57)) || ((65 <=? n) && (n <=? 90))
  || ((97 <=? n) && (n <=? 122)).

Definition flush (run : option (nat * str)) : list (nat * str) :=
  match run with Some r => [r] | None => [] end.

Fixpoint word_tokens (t : str) (i : nat) (run : option (nat * str))
    : list (nat * str) :=
  match t with
  | [] => flush run
  | c :: t' =>
      if is_alnum c then
        word_tokens t' (S i)
          (Some (match run with
                 | Some (j, r) => (j, r ++ [c])
                 | None => (i, [c])
                 end))
      else
        flush run
        ++ (if bool_decide (c = " "%char) then [] else [(i, [c])])
        ++ word_tokens t' (S i) None
  end.

Definition simple_tokens (_ : Language) (t : str) : list (nat * str) :=
  word_tokens t 0 None.

Definition model_files (language : Language) : option (list str) :=
  if bool_decide (language = "en_core_web_sm"%string)
  then Some [s "ass"; s "fuck"] else None.

Definition letter_mask : ProfanityFilter :=
  Ex.get (Config.init model_files Ex.installed ["en_core_web_sm"%string] []
            (s "a") true
            (Some {[ "en_core_web_sm"%string := [s "-"; s "bac"] ]}) None None).

Definition star_mask : ProfanityFilter :=
  Ex.get (Config.init model_files Ex.installed ["en_core_web_sm"%string] []
            (s "*") true None None None).

(** The filter after "b-c" was censored, and after "bac" was. *)
Definition letter_mask_1 : ProfanityFilter :=
  _save_censored_word letter_mask (mkWord (s "-") (s "a") (Some (s "-"))).

Definition letter_mask_2 : ProfanityFilter :=
  _save_censored_word letter_mask_1 (mkWord (s "bac") (s "aaa") (Some (s "bac"))).

(** What the first call makes of "Fuck you, ass!". *)
Definition insult : str := s "Fuck you, ass!".

Definition insult_doc : list DocToken :=
  [mkDocToken 0 (s "Fuck") true (s "****");
   mkDocToken 5 (s "you") false (s "you");
   mkDocToken 8 (s ",") false (s ",");
   mkDocToken 10 (s "ass") true (s "***");
   mkDocToken 13 (s "!") false (s "!")].

Definition insult_filter : ProfanityFilter :=
  _save_censored_word
    (_save_censored_word star_mask
       (mkWord (s "Fuck") (s "****") (Some (s "fuck"))))
    (mkWord (s "ass") (s "***") (Some (s "ass"))).

End ExText.

(** * Properties *)

(** ** Results *)

Lemma bind_Ok {A B} (a : A) (k : A -> Result B) : (Ok a ≫= k) = k a.
Proof. reflexivity. Qed.

Lemma bind_Raise {A B} e (k : A -> Result B) : (Raise e ≫= k) = Raise e.
Proof. reflexivity. Qed.

(** ** Strings *)

Section StrFacts.

Lemma str_mul_one n c : str_mul n [c] = replicate n c.
Proof.
  unfold str_mul. induction n as [|n IH]; simpl; [done|]. by rewrite IH.
Qed.

Lemma censor_char_single (cc : str) :
  length cc = 1 -> exists c, cc = [c].
Proof. destruct cc as [|c [|? ?]]; simpl; intros; try lia. by exists c. Qed.

Lemma length_str_mul n (cc : str) :
  length cc = 1 -> length (str_mul n cc) = n.
Proof.
  intros [c ->]%censor_char_single. by rewrite str_mul_one, length_replicate.
Qed.

Lemma fully_censored_replicate c (t : str) :
  fully_censored [c] t = true <-> t = replicate (length t) c.
Proof.
  unfold fully_censored. induction t as [|a t IH]; simpl; [done|].
  rewrite andb_true_iff, bool_decide_eq_true, IH. split.
  - intros [[= ->] <-]. done.
  - intros [= -> Ht]. split; [done|]. done.
Qed.

Lemma fully_censored_str_mul n (cc : str) :
  length cc = 1 -> fully_censored cc (str_mul n cc) = true.
Proof.
  intros [c ->]%censor_char_single. rewrite str_mul_one.
  apply fully_censored_replicate. by rewrite length_replicate.
Qed.

Lemma fully_censored_iff (cc t : str) :
  length cc = 1 ->
  fully_censored cc t = true <-> t = str_mul (length t) cc.
Proof.
  intros [c ->]%censor_char_single. rewrite str_mul_one.
  apply fully_censored_replicate.
Qed.

Lemma fully_censored_take cc n (t : str) :
  fully_censored cc t = true -> fully_censored cc (take n t) = true.
Proof.
  unfold fully_censored. rewrite !forallb_forall.
  intros H x Hx. apply H. apply list_elem_of_In.
  apply list_elem_of_In in Hx. by eapply subseteq_take.
Qed.

Lemma fully_censored_drop cc n (t : str) :
  fully_censored cc t = true -> fully_censored cc (drop n t) = true.
Proof.
  unfold fully_censored. rewrite !forallb_forall.
  intros H x Hx. apply H. apply list_elem_of_In.
  apply list_elem_of_In in Hx. by eapply subseteq_drop.
Qed.

Lemma str_in_refl (t : str) : str_in t t = true.
Proof.
  destruct t; simpl; [done|]. apply orb_true_iff; left.
  by apply bool_decide_eq_true.
Qed.

Lemma replace_from_skip_all old new (t : str) k :
  length t <= k -> replace_from old new t k = [].
Proof.
  revert k. induction t as [|c t IH]; intros k Hk; simpl; [done|].
  destruct k as [|k]; simpl in Hk; [lia|]. apply IH. lia.
Qed.

(** Replacing a non-empty string inside itself leaves the replacement. *)
Lemma str_replace_whole (t new : str) :
  t <> [] -> str_replace t t new = new.
Proof.
  destruct t as [|c t]; [done|]. intros _. unfold str_replace.
  simpl replace_from. rewrite bool_decide_eq_true_2 by done.
  rewrite replace_from_skip_all by (simpl; lia). by rewrite app_nil_r.
Qed.

End StrFacts.

(** ** The span enumeration *)

Section Spans.

Lemma substrings_indexes_words (t : str) reverse x :
  x ∈ substrings_indexes t reverse ->
  exists L i, sub_word x = take L (drop i t).
Proof.
  unfold substrings_indexes. intros H.
  apply list_elem_of_bind in H as (L & H & _).
  apply list_elem_of_fmap in H as (i & -> & _). by exists L, i.
Qed.

Lemma drop_all_censored cc (l : list Substring) :
  Forall (fun x => fully_censored cc (sub_word x) = true) l ->
  _drop_fully_censored_words_with cc l = [].
Proof.
  unfold _drop_fully_censored_words_with.
  induction 1 as [|x l Hx _ IH]; [done|].
  rewrite filter_cons_False; [exact IH|]. rewrite Hx. simpl. tauto.
Qed.

(** A word made of censor characters only has no span left to test. *)
Lemma all_spans_dropped cc (t : str) :
  fully_censored cc t = true ->
  _drop_fully_censored_words_with cc (substrings_indexes t true) = [].
Proof.
  intros Ht. apply drop_all_censored, Forall_forall. intros x Hx.
  destruct (substrings_indexes_words _ _ _ Hx) as (L & i & ->).
  by apply fully_censored_take, fully_censored_drop.
Qed.

Lemma substrings_indexes_head c (t : str) :
  exists rest,
    substrings_indexes (c :: t) true
    = (c :: t, 0, length (c :: t)) :: rest.
Proof.
  unfold substrings_indexes.
  replace (seq 1 (length (c :: t)))
    with (seq 1 (length t) ++ [S (length t)]).
  2:{ change (length (c :: t)) with (S (length t)).
      rewrite seq_S. done. }
  rewrite rev_app_distr. simpl rev at 1. simpl app.
  rewrite bind_cons.
  replace (length (c :: t) - S (length t) + 1) with 1 by (simpl; lia).
  simpl seq. rewrite fmap_cons. unfold drop.
  rewrite (take_ge (c :: t)) by (simpl; lia).
  eexists. simpl. reflexivity.
Qed.

(** Otherwise the first span that reaches the consumer is the whole word. *)
Lemma first_span_whole cc (t : str) :
  t <> [] -> fully_censored cc t = false ->
  exists g,
    gen_next (_drop_substrings
                (_drop_fully_censored_words_with cc (substrings_indexes t true)))
    = Some ((t, 0, length t), g).
Proof.
  intros Hne Hfc. destruct t as [|c t]; [done|].
  destruct (substrings_indexes_head c t) as [rest ->].
  unfold _drop_fully_censored_words_with.
  rewrite filter_cons_True
    by (unfold sub_word; simpl fst; rewrite Hfc; exact I).
  unfold gen_next, _drop_substrings. simpl.
  unfold not_dropped. rewrite bool_decide_eq_true_2; [by eexists|].
  apply set_Forall_empty.
Qed.

Lemma no_span_of_empty cc :
  gen_next (_drop_substrings
              (_drop_fully_censored_words_with cc (substrings_indexes [] true)))
  = None.
Proof. reflexivity. Qed.

Lemma no_span_of_censored cc (t : str) :
  fully_censored cc t = true ->
  gen_next (_drop_substrings
              (_drop_fully_censored_words_with cc (substrings_indexes t true)))
  = None.
Proof. intros H. by rewrite all_spans_dropped. Qed.

End Spans.

(** ** The suppressing generator *)


Section Generator.

Lemma not_dropped_true iv x :
  not_dropped iv x = true <-> forall d, d ∈ iv -> ~ inside x d.
Proof.
  unfold not_dropped, inside. rewrite bool_decide_eq_true.
  unfold set_Forall. split; intros H d Hd; specialize (H d Hd); lia.
Qed.

Lemma not_dropped_false iv x :
  not_dropped iv x = false <-> exists d, d ∈ iv /\ inside x d.
Proof.
  unfold not_dropped, inside. rewrite bool_decide_eq_false. split.
  - intros (d & Hd & H)%not_set_Forall_Exists; [|intros; apply _].
    exists d. split; [done|]. simpl in H. lia.
  - intros (d & Hd & H) HF. specialize (HF d Hd). simpl in HF. lia.
Qed.

Lemma resume_some iv l x g :
  resume iv l = Some (x, g) ->
  exists skipped,
    l = skipped ++ x :: pending g /\
    drop_intervals g = iv /\
    not_dropped iv x = true /\
    Forall (fun y => not_dropped iv y = false) skipped.
Proof.
  induction l as [|y l IH]; simpl; [done|].
  destruct (not_dropped iv y) eqn:Hy.
  - intros [= <- <-]. exists []. simpl. by repeat split.
  - intros (skipped & -> & ? & ? & ?)%IH.
    exists (y :: skipped). repeat split; auto.
Qed.

Lemma resume_none iv l :
  resume iv l = None -> Forall (fun y => not_dropped iv y = false) l.
Proof.
  induction l as [|y l IH]; simpl; [by constructor|].
  destruct (not_dropped iv y) eqn:Hy; [done|]. intros H%IH. by constructor.
Qed.

(** Once an interval is in the set, no span inside it is handed out. *)
Lemma drive_avoids iv l d replies :
  d ∈ iv ->
  Forall (fun x => ~ inside x d) (drive replies (resume iv l)).
Proof.
  revert iv l. induction replies as [|r replies IH]; intros iv l Hd.
  - simpl. destruct (resume iv l) as [[x g]|] eqn:E; [|by constructor].
    apply resume_some in E as (_ & _ & _ & Hx & _).
    constructor; [|by constructor]. by eapply not_dropped_true.
  - simpl. destruct (resume iv l) as [[x g]|] eqn:E; [|by constructor].
    apply resume_some in E as (_ & _ & Hg & Hx & _).
    constructor; [by eapply not_dropped_true|].
    unfold gen_send. rewrite Hg.
    destruct r as [[a|] [b|]]; apply IH; set_solver.
Qed.

(** The intervals a [send] leaves stored. *)
Lemma stored_after_spec g drop d :
  d ∈ match drop with
      | (Some a, Some b) => {[ (a, b) ]} ∪ drop_intervals g
      | _ => drop_intervals g
      end
  <-> stored_after g drop d.
Proof.
  unfold stored_after. destruct d as [c e], drop as [[a|] [b|]]; simpl;
    [|split; [by left|by intros [?|?]]..].
  rewrite elem_of_union, elem_of_singleton. split.
  - intros [[= -> ->]|?]; [by right|by left].
  - intros [?|[= -> ->]]; [by right|by left].
Qed.

(** A span of the input that lies inside no interval, stored or sent, is
    handed out, provided the consumer goes on to the end. *)
Lemma drive_yields x replies :
  forall iv l,
    length l <= S (length replies) ->
    x ∈ l ->
    (forall d, d ∈ iv -> ~ inside x d) ->
    (forall a b, (Some a, Some b) ∈ replies -> ~ inside x (a, b)) ->
    x ∈ drive replies (resume iv l).
Proof.
  induction replies as [|r replies IH]; intros iv l Hlen Hx Hiv Hr.
  - destruct (resume iv l) as [[y g]|] eqn:E.
    + apply resume_some in E as (sk & -> & _ & _ & Hs).
      rewrite length_app in Hlen. simpl in Hlen.
      destruct sk as [|z sk]; [|simpl in Hlen; lia].
      destruct (pending g); [|simpl in Hlen; lia].
      apply list_elem_of_singleton in Hx as ->. simpl. left.
    + apply resume_none in E. rewrite Forall_forall in E.
      apply E, not_dropped_false in Hx as (d & Hd & Hin). by destruct (Hiv d).
  - destruct (resume iv l) as [[y g]|] eqn:E.
    + apply resume_some in E as (sk & -> & Hg & _ & Hs).
      apply elem_of_app in Hx as [Hx|Hx].
      { rewrite Forall_forall in Hs.
        apply Hs, not_dropped_false in Hx as (d & Hd & Hin).
        by destruct (Hiv d). }
      apply elem_of_cons in Hx as [->|Hx]; [simpl; left|].
      simpl. right. unfold gen_send. rewrite Hg.
      rewrite length_app in Hlen. simpl in Hlen.
      apply IH; [lia|done| |].
      * destruct r as [[a|] [b|]]; try done.
        intros d [->%elem_of_singleton|Hd]%elem_of_union; [|by apply Hiv].
        apply Hr. left.
      * intros a b Hab. apply Hr. by right.
    + apply resume_none in E. rewrite Forall_forall in E.
      apply E, not_dropped_false in Hx as (d & Hd & Hin). by destruct (Hiv d).
Qed.

End Generator.

Section PartFacts.


Lemma same_but_cache_refl pf : same_but_cache pf pf.
Proof. exists (_censored_words pf). by destruct pf. Qed.

Lemma same_but_cache_save pf w : same_but_cache pf (_save_censored_word pf w).
Proof. by eexists. Qed.

Lemma same_but_cache_trans pf1 pf2 pf3 :
  same_but_cache pf1 pf2 -> same_but_cache pf2 pf3 -> same_but_cache pf1 pf3.
Proof. intros [m ->] [m' ->]. by exists m'. Qed.

Lemma first_profane_lemma_none pf language word lemmas :
  existsb (_is_profane_word pf language) lemmas = false ->
  first_profane_lemma pf language word lemmas
  = Ok (mkWord (text word) (text word) None, false, pf).
Proof.
  induction lemmas as [|l lemmas IH]; simpl; [done|].
  intros [-> H]%orb_false_iff. by apply IH.
Qed.

Lemma first_profane_lemma_raises pf language word lemmas :
  _censor_whole_words pf = false ->
  existsb (_is_profane_word pf language) lemmas = true ->
  first_profane_lemma pf language word lemmas = Raise UnboundLocalError.
Proof.
  intros Hw. induction lemmas as [|l lemmas IH]; simpl; [done|].
  destruct (_is_profane_word pf language l); simpl; [by rewrite Hw|exact IH].
Qed.

Lemma first_profane_lemma_masks pf language word lemmas :
  _censor_whole_words pf = true ->
  existsb (_is_profane_word pf language) lemmas = true ->
  exists lemma,
    lemma ∈ lemmas /\ _is_profane_word pf language lemma = true /\
    let w := mkWord (text word)
               (_generate_fully_censored_word pf (text word)) (Some lemma) in
    first_profane_lemma pf language word lemmas
    = Ok (w, false, _save_censored_word pf w).
Proof.
  intros Hw. induction lemmas as [|l lemmas IH]; simpl; [done|].
  destruct (_is_profane_word pf language l) eqn:Hl; simpl.
  - intros _. exists l. rewrite Hw. repeat split; [set_solver|done].
  - intros (lemma & ? & ? & ?)%IH. exists lemma. repeat split; [set_solver|done..].
Qed.


Lemma part_cases pf language word :
  part_outcome pf language word (_censor_word_part pf language word).
Proof.
  unfold _censor_word_part.
  destruct (_has_no_profanity _ _) eqn:Hc; [by constructor|].
  unfold _get_censored_word.
  destruct (_censored_words pf !! text word) as [w|] eqn:Hw;
    [by constructor|].
  destruct (has_profane_lemma pf language word) eqn:Hp.
  - destruct (_censor_whole_words pf) eqn:Hww.
    + destruct (first_profane_lemma_masks pf language word _ Hww Hp)
        as (lemma & ? & ? & ->).
      by apply part_masked.
    + rewrite first_profane_lemma_raises by done. by constructor.
  - rewrite first_profane_lemma_none by done. by constructor.
Qed.

End PartFacts.

(** ** Ordered sets *)

Section OrderedSetFacts.
Context {A : Type} `{EqDecision A}.

Lemma elem_of_add (x y : A) o : y ∈ OrderedSet.add x o <-> y = x \/ y ∈ o.
Proof.
  unfold OrderedSet.add. case_bool_decide; set_solver.
Qed.

Lemma elem_of_union (y : A) o other :
  y ∈ OrderedSet.union o other <-> y ∈ o \/ y ∈ other.
Proof.
  unfold OrderedSet.union. revert o.
  induction other as [|x other IH]; intros o; simpl; [set_solver|].
  rewrite IH, elem_of_add. set_solver.
Qed.

Lemma elem_of_of_iter (y : A) l : y ∈ OrderedSet.of_iter l <-> y ∈ l.
Proof. unfold OrderedSet.of_iter. rewrite elem_of_union. set_solver. Qed.

Lemma elem_of_intersection (y : A) o other :
  y ∈ OrderedSet.intersection o other <-> y ∈ o /\ y ∈ other.
Proof. unfold OrderedSet.intersection. rewrite list_elem_of_filter. tauto. Qed.

Lemma intersection_nil (other : list A) : OrderedSet.intersection [] other = [].
Proof. reflexivity. Qed.
End OrderedSetFacts.

(** ** Configuration *)

Section ConfigFacts.
Import Config.

Lemma files_of_nil pf :
  files_of pf = [] <-> forall l, l ∈ _languages pf -> _DATA_DIR pf l = None.
Proof.
  unfold files_of. induction (_languages pf) as [|l ls IH]; simpl.
  - set_solver.
  - destruct (_DATA_DIR pf l) eqn:E; simpl.
    + split; [done|]. intros H. specialize (H l). rewrite E in H.
      discriminate H. set_solver.
    + rewrite IH. split.
      * intros H l' [->|?]%elem_of_cons; auto.
      * intros H l' ?. apply H. set_solver.
Qed.

Lemma elem_of_files_of pf l lines :
  (l, lines) ∈ files_of pf <-> l ∈ _languages pf /\ _DATA_DIR pf l = Some lines.
Proof.
  unfold files_of. rewrite list_elem_of_omap. split.
  - intros (l' & Hl' & E). destruct (_DATA_DIR pf l') eqn:E'; [|done].
    by injection E as <- <-.
  - intros [Hl E]. exists l. by rewrite E.
Qed.

Lemma update_files_eq pf :
  _update_profane_word_dictionary_files pf
  = match files_of pf with
    | [] => Raise ProfanityFilterError
    | _ => Ok (set_files_field (files_of pf) pf)
    end.
Proof. reflexivity. Qed.

(** The dictionaries read from the word files. *)
Lemma loaded_dictionaries f (files : list (Language * list str)) :
  (forall l lines, (l, lines) ∈ files -> f l = Some lines) ->
  forall d0 l,
    dict_get (foldl (fun d x => <[x.1 := OrderedSet.of_iter x.2]> d) d0 files) l
    = if bool_decide (l ∈ files.*1)
      then OrderedSet.of_iter (default [] (f l))
      else dict_get d0 l.
Proof.
  induction files as [|[l0 lines0] files IH]; intros Hf d0 l; [done|].
  rewrite fmap_cons. cbn [foldl fst snd].
  rewrite IH by (intros; apply Hf; set_solver).
  destruct (decide (l = l0)) as [->|Hne].
  - rewrite (bool_decide_eq_true_2 (l0 ∈ l0 :: files.*1)) by set_solver.
    case_bool_decide; [done|].
    unfold dict_get. rewrite lookup_insert_eq. simpl.
    by rewrite (Hf l0 lines0) by set_solver.
  - unfold dict_get. rewrite lookup_insert_ne by done.
    repeat case_bool_decide; try done; set_solver.
Qed.

Lemma extra_unioned (e : ProfaneWordDictionaries) (ls : list Language) :
  forall (r0 : ProfaneWordDictionaries) l w,
    w ∈ dict_get
          (foldl (fun r l => <[l := OrderedSet.union (dict_get r l) (dict_get e l)]> r)
                 r0 ls) l
    <-> w ∈ dict_get r0 l \/ (l ∈ ls /\ w ∈ dict_get e l).
Proof.
  induction ls as [|l0 ls IH]; intros r0 l w; simpl; [set_solver|].
  rewrite IH. destruct (decide (l = l0)) as [->|Hne].
  - unfold dict_get at 1. rewrite lookup_insert_eq. simpl.
    rewrite elem_of_union. set_solver.
  - unfold dict_get at 1. rewrite lookup_insert_ne by done.
    fold (dict_get r0 l). set_solver.
Qed.

Lemma clear_cache_disabled pf :
  _cache_clearing_disabled pf = true -> clear_cache pf = Ok pf.
Proof. unfold clear_cache. by intros ->. Qed.

Lemma files_of_set_files v pf : files_of (set_files_field v pf) = files_of pf.
Proof. reflexivity. Qed.

Lemma censor_dictionaries_loaded pf l :
  dict_get (foldl (fun d x => <[x.1 := OrderedSet.of_iter x.2]> d) ∅ (files_of pf)) l
  = base_dictionary pf l.
Proof.
  rewrite (loaded_dictionaries (_DATA_DIR pf))
    by (by intros ? ? [_ ?]%elem_of_files_of).
  unfold base_dictionary.
  destruct (decide (l ∈ _languages pf)) as [Hl|Hl].
  - rewrite (bool_decide_eq_true_2 _ Hl).
    destruct (_DATA_DIR pf l) as [lines|] eqn:E.
    + rewrite bool_decide_eq_true_2; [done|].
      apply list_elem_of_fmap. exists (l, lines). split; [done|].
      by apply elem_of_files_of.
    + rewrite bool_decide_eq_false_2; [done|].
      intros ([l' lines] & -> & [_ H]%elem_of_files_of)%list_elem_of_fmap.
      simpl in *. congruence.
  - rewrite (bool_decide_eq_false_2 _ Hl).
    rewrite bool_decide_eq_false_2; [done|].
    intros ([l' lines] & -> & [H _]%elem_of_files_of)%list_elem_of_fmap.
    done.
Qed.

Lemma update_files_ok pf :
  files_of pf <> [] ->
  _update_profane_word_dictionary_files pf
  = Ok (set_files_field (files_of pf) pf).
Proof. rewrite update_files_eq. by destruct (files_of pf). Qed.

Lemma in_dict_is_some (d : ProfaneWordDictionaries) l (w : str) :
  w ∈ dict_get d l -> is_Some (d !! l).
Proof. unfold dict_get. destruct (d !! l); simpl; [eauto|set_solver]. Qed.

Lemma clear_cache_cases pf :
  _cache_clearing_disabled pf = false ->
  (files_of pf = [] /\ clear_cache pf = Raise ProfanityFilterError)
  \/ (files_of pf <> [] /\ exists pf',
        clear_cache pf = Ok pf' /\ same_config pf pf' /\
        _censored_words pf' = ∅ /\ _words_with_no_profanity_inside pf' = ∅ /\
        forall l w, w ∈ dict_get (profane_word_dictionaries pf') l
                    <-> resolves_to pf l w).
Proof.
  intros Hd. unfold clear_cache. rewrite Hd.
  destruct (decide (files_of pf = [])) as [Hf|Hf];
    [left; split; [done|]; by rewrite update_files_eq, Hf|].
  right. split; [done|]. rewrite update_files_ok, bind_Ok by done.
  unfold _update_profane_word_dictionaries.
  change (_cache_clearing_disabled (set_files_field _ pf))
    with (_cache_clearing_disabled pf). rewrite Hd.
  unfold compute_profane_word_dictionaries.
  change (_custom_profane_word_dictionaries (set_files_field _ pf))
    with (_custom_profane_word_dictionaries pf).
  unfold resolves_to.
  destruct (bool_decide (_custom_profane_word_dictionaries pf ≠ ∅)) eqn:Hc.
  - rewrite !bind_Ok. eexists. split; [reflexivity|].
    split; [by repeat split|]. split; [done|]. split; [done|].
    intros l w. simpl. rewrite extra_unioned, elem_of_intersection.
    rewrite elem_of_elements, elem_of_dom.
    split; [intros [?|[[? ?] ?]]; auto|].
    intros [?|[? ?]]; eauto using in_dict_is_some.
  - unfold _load_profane_word_dictionaries.
    rewrite update_files_ok, !bind_Ok by done.
    eexists. split; [reflexivity|].
    split; [by repeat split|]. split; [done|]. split; [done|].
    intros l w. simpl. rewrite extra_unioned, elem_of_intersection.
    rewrite elem_of_elements, elem_of_dom.
    rewrite censor_dictionaries_loaded.
    split; [intros [?|[[? ?] ?]]; auto|].
    intros [?|[? ?]]; eauto using in_dict_is_some.
Qed.

Lemma elem_of_load_models (m : Language -> bool) languages l :
  l ∈ load_models m languages <-> l ∈ languages /\ m l = true.
Proof.
  unfold load_models.
  assert (forall acc : gset Language,
            l ∈ foldl (fun nlps language =>
                         if m language then {[ language ]} ∪ nlps else nlps)
                      acc languages
            <-> l ∈ acc \/ (l ∈ languages /\ m l = true)) as H.
  { induction languages as [|x languages IH]; intros acc; simpl.
    - rewrite elem_of_nil. tauto.
    - rewrite IH, elem_of_cons. destruct (m x) eqn:Hx.
      + set_unfold. naive_solver.
      + split; [intros [?|[? ?]]; auto|].
        intros [?|[[->|?] ?]]; auto. congruence. }
  rewrite H. set_solver.
Qed.

Lemma load_models_empty (m : Language -> bool) languages :
  load_models m languages = ∅ <-> forall l, l ∈ languages -> m l = false.
Proof.
  split.
  - intros H l Hl. destruct (m l) eqn:E; [|done].
    assert (l ∈ load_models m languages) as Hin
      by (by apply elem_of_load_models).
    rewrite H in Hin. set_solver.
  - intros H. apply set_eq. intros l. rewrite elem_of_load_models.
    split; [|set_solver]. intros [Hl Hm]. rewrite (H l Hl) in Hm. done.
Qed.

(** The [nlps] setter once the cache is cleared. *)
Lemma set_nlps_eq m value pf :
  set_nlps m value pf
  = pf ← clear_cache pf;
    if bool_decide (value = None /\ load_models m (_languages pf) = ∅)
    then Raise ProfanityFilterError
    else Ok (set_nlps_field
               (match value with
                | Some v => v
                | None => load_models m (_languages pf)
                end) pf).
Proof.
  unfold set_nlps. destruct (clear_cache pf) as [pf1| |]; [|done..].
  rewrite !bind_Ok. destruct value as [v|].
  - rewrite bool_decide_eq_false_2; [done|]. by intros [? _].
  - cbv zeta. change (_nlps (set_nlps_field ?v _)) with v.
    case_bool_decide as H.
    + rewrite bool_decide_eq_true_2; done.
    + rewrite bool_decide_eq_false_2; [done|]. by intros [_ ?].
Qed.

Lemma config_disabled m languages analyses cc whole custom extra nlps pf :
  _cache_clearing_disabled pf = true ->
  config m languages analyses cc whole custom extra nlps pf
  = if bool_decide (length cc ≠ 1) then Raise ValueError
    else if bool_decide
              (nlps = None /\ pipelines m languages nlps = ∅)
    then Raise ProfanityFilterError
    else Ok (configured m languages analyses cc whole custom extra nlps pf).
Proof.
  intros Hd. unfold config, set_analyses, set_censor_char,
    set_censor_whole_words, set_custom_profane_word_dictionaries,
    set_extra_profane_word_dictionaries, _set_languages.
  rewrite clear_cache_disabled, bind_Ok by done.
  destruct (bool_decide (length cc ≠ 1)); [done|].
  repeat (rewrite clear_cache_disabled, bind_Ok by done).
  destruct nlps as [v|].
  - rewrite (bool_decide_eq_false_2 (Some v = None)) by done.
    rewrite bind_Ok, clear_cache_disabled, bind_Ok by done.
    rewrite set_nlps_eq, clear_cache_disabled, bind_Ok by done.
    rewrite !bool_decide_eq_false_2; [done|by intros [? _]..].
  - rewrite (bool_decide_eq_true_2 (None = None)) by done.
    rewrite set_nlps_eq, clear_cache_disabled, bind_Ok by done.
    unfold pipelines. simpl _languages.
    case_bool_decide as H; [done|].
    by rewrite bind_Ok, clear_cache_disabled, bind_Ok by done.
Qed.

Lemma init_eq dd m languages analyses cc whole custom extra nlps :
  init dd m languages analyses cc whole custom extra nlps
  = if bool_decide (length cc ≠ 1) then Raise ValueError
    else if bool_decide
              (nlps = None /\ pipelines m languages nlps = ∅)
    then Raise ProfanityFilterError
    else clear_cache
           (set_cache_clearing_disabled false
              (configured m languages analyses cc whole custom extra nlps
                 (set_cache_clearing_disabled true
                    (mkPF dd [] false [] false ∅ ∅ [] ∅ [] ∅ ∅ ∅ ∅)))).
Proof.
  unfold init. rewrite config_disabled by done.
  destruct (bool_decide (length cc ≠ 1)); [done|].
  by destruct (bool_decide _).
Qed.

Lemma clear_cache_ok pf pf' :
  clear_cache pf = Ok pf' ->
  _cache_clearing_disabled pf = false ->
  DEEP ∉ _analyses pf -> length (_censor_char pf) = 1 -> pf_ok pf'.
Proof.
  intros E Hd Ha Hc.
  destruct (clear_cache_cases pf Hd) as [[_ E']|(_ & pf'' & E' & Hs & Hw & _)];
    rewrite E' in E; [done|]. injection E as <-.
  destruct Hs as (_ & Ha' & _ & Hc' & _).
  split; [by rewrite Ha'|by rewrite Hc'|].
  intros k w. rewrite Hw. by rewrite lookup_empty.
Qed.

Lemma init_ok dd m languages analyses cc whole custom extra nlps pf :
  init dd m languages analyses cc whole custom extra nlps = Ok pf ->
  pf_ok pf /\ _censor_whole_words pf = whole /\
  _languages pf = OrderedSet.of_iter languages /\ _DATA_DIR pf = dd.
Proof.
  rewrite init_eq. case_bool_decide as Hc; [done|].
  case_bool_decide as Hn; [done|]. intros E.
  split.
  - eapply clear_cache_ok; [exact E|done| |simpl; lia].
    simpl. unfold AVAILABLE_ANALYSES. rewrite intersection_nil. set_solver.
  - match type of E with
    | clear_cache ?p = _ =>
        destruct (clear_cache_cases p eq_refl)
          as [[_ E']|(_ & pf'' & E' & Hs & _)]
    end; rewrite E' in E; [done|]. injection E as <-.
    destruct Hs as (? & _ & _ & _ & ? & _ & _ & ?). done.
Qed.

(** The last step of the [nlps] setter and of [_set_languages]. *)
Lemma set_nlps_last m value pf pf' :
  _cache_clearing_disabled pf = false ->
  set_nlps m value pf = Ok pf' ->
  exists pf1 v, clear_cache pf = Ok pf1 /\ pf' = set_nlps_field v pf1.
Proof.
  intros Hd. rewrite set_nlps_eq.
  destruct (clear_cache pf) as [pf1| |]; [|done..]. rewrite bind_Ok.
  case_bool_decide; [done|]. intros [= <-]. by eexists _, _.
Qed.

Lemma set_languages_last m value load_nlps pf pf' :
  _cache_clearing_disabled pf = false ->
  _set_languages m value load_nlps pf = Ok pf' ->
  exists pf0,
    clear_cache pf0 = Ok pf' /\ _cache_clearing_disabled pf0 = false /\
    _analyses pf0 = _analyses pf /\ _censor_char pf0 = _censor_char pf.
Proof.
  intros Hd. unfold _set_languages. cbv zeta. destruct load_nlps.
  - destruct (set_nlps _ _ _) as [pf0| |] eqn:E; [|done..].
    rewrite bind_Ok. intros E'.
    apply set_nlps_last in E as (pf1 & v & E1 & ->); [|done].
    exists (set_nlps_field v pf1). split; [done|].
    destruct (clear_cache_cases
                (set_languages_field (OrderedSet.of_iter value) pf) Hd)
      as [[_ E2]|(_ & pf2 & E2 & Hs & _)];
      rewrite E2 in E1; [done|]. injection E1 as <-.
    destruct Hs as (_ & Ha & Hdis & Hc & _).
    split_and!; simpl in *; congruence.
  - rewrite bind_Ok. intros E. by eexists.
Qed.

(** Every setter leaves the filter in a state [pf_ok]. *)
Lemma setters_keep_ok pf pf' :
  pf_ok pf -> _cache_clearing_disabled pf = false ->
  (exists v, set_analyses v pf = Ok pf')
  \/ (exists v, set_censor_char v pf = Ok pf')
  \/ (exists v, set_censor_whole_words v pf = Ok pf')
  \/ (exists v, set_custom_profane_word_dictionaries v pf = Ok pf')
  \/ (exists v, set_extra_profane_word_dictionaries v pf = Ok pf')
  \/ (exists m v b, _set_languages m v b pf = Ok pf')
  \/ (exists m v, set_nlps m v pf = Ok pf') ->
  pf_ok pf'.
Proof.
  intros [Hd Hc Hcache] Hdis
    [[v E]|[[v E]|[[v E]|[[v E]|[[v E]|[(m & v & b & E)|(m & v & E)]]]]]].
  - eapply clear_cache_ok; [exact E|done| |done].
    simpl. unfold AVAILABLE_ANALYSES. rewrite intersection_nil. set_solver.
  - unfold set_censor_char in E. case_bool_decide as Hv; [done|].
    eapply clear_cache_ok; [exact E|done|done|].
    simpl. destruct (decide (length v = 1)); [done|by destruct Hv].
  - eapply clear_cache_ok; [exact E|done..].
  - eapply clear_cache_ok; [exact E|done..].
  - eapply clear_cache_ok; [exact E|done..].
  - apply set_languages_last in E as (pf0 & E & Hd0 & Ha & Hcc); [|done].
    eapply clear_cache_ok; [exact E|done|by rewrite Ha|by rewrite Hcc].
  - apply set_nlps_last in E as (pf1 & nl & E & ->); [|done].
    pose proof (clear_cache_ok _ _ E Hdis Hd Hc) as [? ? ?]. by split.
Qed.

End ConfigFacts.

(** ** One run of [_censor_word] *)

Section RunFacts.

Variable spacy_lemma : option Language -> str -> str.

Abbreviation tok := (_make_spacy_token spacy_lemma).

Lemma mask_not_self pf (t : str) :
  length (_censor_char pf) = 1 ->
  fully_censored (_censor_char pf) t = false -> full_mask pf t <> t.
Proof.
  intros Hc Hf E. rewrite <- E in Hf. unfold full_mask in Hf.
  by rewrite fully_censored_str_mul in Hf.
Qed.

Lemma finish_word_unchanged pf language word :
  DEEP ∉ _analyses pf ->
  finish_word pf language word (mkWord (text word) (text word) None) = pf.
Proof.
  intros Hd. unfold finish_word. simpl.
  rewrite bool_decide_eq_true_2 by done.
  by rewrite (bool_decide_eq_false_2 (DEEP ∈ _analyses pf)).
Qed.

Lemma save_twice pf w : 
  _save_censored_word (_save_censored_word pf w) w = _save_censored_word pf w.
Proof.
  unfold _save_censored_word, set_censored_words. simpl.
  by rewrite insert_insert_eq.
Qed.


Lemma part_keeps_config pf language word cw b pf' :
  _censor_word_part pf language word = Ok (cw, b, pf') ->
  same_but_cache pf pf'.
Proof.
  intros E. pose proof (part_cases pf language word) as H. rewrite E in H.
  inversion H; subst; try apply same_but_cache_refl.
  apply same_but_cache_save.
Qed.

(** Without deep analysis the inner loop tests one span and stops. *)
Lemma scan_stops fuel pf language word prev cur g x np tested :
  DEEP ∉ _analyses pf ->
  scan spacy_lemma (S fuel) pf language word prev cur g x np tested
  = p ← _censor_word_part pf language (tok language (sub_word x));
    Ok (rewrite_word p.2 word prev cur (sub_word x) p.1.1, p.2, tested ++ [x]).
Proof.
  intros Hd. simpl scan.
  destruct (_censor_word_part pf language (tok language (sub_word x)))
    as [[[cw b] pf']| |] eqn:E; [|done..].
  rewrite !bind_Ok. simpl.
  destruct (part_keeps_config _ _ _ _ _ _ E) as [m ->]. simpl.
  by rewrite (bool_decide_eq_true_2 _ Hd).
Qed.

Lemma passes_loop_S fuel pf language word prev cur passes tested :
  passes_loop spacy_lemma (S fuel) pf language word prev cur passes tested
  = if bool_decide (Some cur = prev)
    then Ok (mkRun cur pf passes tested)
    else
      match gen_next (_drop_substrings (_drop_fully_censored_words pf
               (substrings_indexes (censored cur) true))) with
      | None => Ok (mkRun cur pf (S passes) (tested ++ [[]]))
      | Some (x, g) =>
          pass ← scan spacy_lemma (S (length (pending g))) pf language word
                    cur cur g x (None, None) [];
          passes_loop spacy_lemma fuel pass.1.2 language word (Some cur)
            pass.1.1 (S passes) (tested ++ [pass.2])
      end.
Proof.
  cbn [passes_loop]. destruct (bool_decide (Some cur = prev)); [done|].
  destruct (gen_next _) as [[x g]|]; [|done].
  destruct (scan _ _ _ _ _ _ _ _ _ _ _) as [[[? ?] ?]| |]; reflexivity.
Qed.

Lemma passes_loop_stable fuel pf language word cur passes tested :
  passes_loop spacy_lemma fuel pf language word (Some cur) cur passes tested
  = Ok (mkRun cur pf passes tested).
Proof. destruct fuel; simpl; by rewrite bool_decide_eq_true_2. Qed.

(** A masked word ends the loop at the start of the next pass. *)
Lemma second_pass fuel pf language word opw tested :
  length (_censor_char pf) = 1 ->
  fully_censored (_censor_char pf) (text word) = false ->
  passes_loop spacy_lemma (S fuel) pf language word
    (Some (mkWord (text word) (text word) None))
    (mkWord (text word) (full_mask pf (text word)) opw) 1 tested
  = Ok (mkRun (mkWord (text word) (full_mask pf (text word)) opw) pf 2
              (tested ++ [[]])).
Proof.
  intros Hc Hfc. rewrite passes_loop_S.
  rewrite bool_decide_eq_false_2.
  2:{ intros [= E]. by apply (mask_not_self pf (text word)). }
  simpl censored. unfold _drop_fully_censored_words.
  rewrite no_span_of_censored; [done|].
  by apply fully_censored_str_mul.
Qed.

Lemma finish_word_masked pf language word opw :
  length (_censor_char pf) = 1 ->
  fully_censored (_censor_char pf) (text word) = false ->
  finish_word pf language word (mkWord (text word) (full_mask pf (text word)) opw)
  = _save_censored_word pf (mkWord (text word) (full_mask pf (text word)) opw).
Proof.
  intros Hc Hfc. unfold finish_word. simpl censored.
  rewrite bool_decide_eq_false_2; [done|]. by apply mask_not_self.
Qed.

Lemma run_cases pf language word fuel :
  pf_ok pf -> length (text word) < fuel ->
  run_outcome spacy_lemma pf language word (_censor_word_run spacy_lemma fuel pf language word).
Proof.
  intros [Hd Hc Hcache] Hfuel.
  destruct fuel as [|fuel]; [lia|].
  unfold _censor_word_run. rewrite passes_loop_S.
  rewrite bool_decide_eq_false_2 by done. simpl censored.
  destruct (decide (text word = [] \/
                    fully_censored (_censor_char pf) (text word) = true))
    as [Hn|Hn].
  - assert (gen_next (_drop_substrings (_drop_fully_censored_words pf
              (substrings_indexes (text word) true))) = None) as ->.
    { destruct Hn as [->|Hn]; [apply no_span_of_empty|].
      by apply no_span_of_censored. }
    rewrite bind_Ok. simpl. rewrite finish_word_unchanged by done. by constructor.
  - assert (text word <> []) as Hne by tauto.
    assert (fully_censored (_censor_char pf) (text word) = false) as Hfc
      by (destruct (fully_censored _ _); tauto).
    destruct (first_span_whole _ _ Hne Hfc) as [g Hg].
    unfold _drop_fully_censored_words. rewrite Hg. clear Hg.
    rewrite scan_stops by done.
    change (sub_word (text word, 0, length (text word))) with (text word).
    destruct (part_cases pf language (tok language (text word)))
      as [Hk|w Hk Hw|Hk Hw Hp|lemma Hk Hw Hww Hl Hp|Hk Hw Hww Hp]; simpl text in *.
    + (* known clean *)
      rewrite !bind_Ok. unfold rewrite_word. simpl.
      rewrite (bool_decide_eq_false_2 (text word <> text word)) by tauto.
      rewrite passes_loop_stable, bind_Ok. simpl.
      rewrite finish_word_unchanged by done. apply run_unchanged; auto.
    + (* cached *)
      destruct (Hcache _ _ Hw) as [Hu Hm].
      rewrite !bind_Ok. unfold rewrite_word. simpl.
      rewrite bool_decide_eq_true_2
        by (rewrite Hm; by apply (mask_not_self pf (text word))).
      assert ((if _censor_whole_words pf
               then _generate_fully_censored_word pf (text word)
               else str_replace (text word) (text word) (censored w))
              = full_mask pf (text word)) as ->.
      { destruct (_censor_whole_words pf); [done|].
        by rewrite str_replace_whole. }
      destruct fuel as [|fuel];
        [destruct (text word); simpl in *; [done|lia]|].
      rewrite second_pass, bind_Ok by done. simpl.
      rewrite finish_word_masked by done.
      apply run_masked; auto. left. by exists w.
    + (* unmatched *)
      rewrite !bind_Ok. unfold rewrite_word. simpl.
      rewrite (bool_decide_eq_false_2 (text word <> text word)) by tauto.
      rewrite passes_loop_stable, bind_Ok. simpl.
      rewrite finish_word_unchanged by done. apply run_unchanged; auto.
    + (* masked *)
      rewrite !bind_Ok. unfold rewrite_word. simpl.
      rewrite Hww.
      rewrite bool_decide_eq_true_2
        by (by apply (mask_not_self pf (text word))).
      destruct fuel as [|fuel];
        [destruct (text word); simpl in *; [done|lia]|].
      change (_generate_fully_censored_word _ (text word))
        with (full_mask (_save_censored_word pf
                      (mkWord (text word) (full_mask pf (text word)) (Some lemma)))
                   (text word)).
      rewrite second_pass, bind_Ok by done. simpl run_word. simpl run_pf.
      rewrite finish_word_masked by done.
      change (full_mask (_save_censored_word pf _) (text word))
        with (full_mask pf (text word)).
      rewrite save_twice.
      apply run_masked; auto. right. repeat split; auto. by exists lemma.
    + (* unbound *)
      rewrite !bind_Raise. by apply run_raises.
Qed.
End RunFacts.

(** ** Censoring without deep analysis *)

(** The loop ends here: [new] lists what the last passes tested. *)
Ltac loop_ends new :=
  simpl; split; [apply same_but_cache_refl|];
  exists new; rewrite ?app_nil_r;
  split; [done|]; split; [repeat constructor; by left|];
  split; [simpl; lia|simpl; auto].

Section NoDeep.
Variable spacy_lemma : option Language -> str -> str.
Abbreviation tok := (_make_spacy_token spacy_lemma).

Lemma gen_next_whole cc (t : str) x g :
  gen_next (_drop_substrings
              (_drop_fully_censored_words_with cc (substrings_indexes t true)))
  = Some (x, g) ->
  x = whole_span t.
Proof.
  destruct (decide (t = [])) as [->|Hne]; [by rewrite no_span_of_empty|].
  destruct (fully_censored cc t) eqn:Hfc;
    [by rewrite no_span_of_censored|].
  destruct (first_span_whole cc t Hne Hfc) as [g' ->]. by intros [= <- _].
Qed.

Lemma same_but_cache_analyses pf pf' :
  same_but_cache pf pf' -> _analyses pf' = _analyses pf.
Proof. by intros [m ->]. Qed.

Lemma same_but_cache_clean pf pf' :
  same_but_cache pf pf' ->
  _words_with_no_profanity_inside pf' = _words_with_no_profanity_inside pf.
Proof. by intros [m ->]. Qed.

(** Without deep analysis every pass hands one span at most to
    [_censor_word_part], the whole of the current text, and only the
    cache of censored words can change. *)
Lemma passes_loop_no_deep fuel :
  forall pf language word prev cur passes tested r,
    DEEP ∉ _analyses pf ->
    passes_loop spacy_lemma fuel pf language word prev cur passes tested = Ok r ->
    same_but_cache pf (run_pf r) /\
    exists new,
      run_tested r = tested ++ new /\
      Forall one_whole_span new /\
      run_passes r = passes + length new /\
      match new with
      | [] => True
      | l :: _ => l = [] \/ l = [whole_span (censored cur)]
      end.
Proof.
  induction fuel as [|fuel IH]; intros pf language word prev cur passes tested r Hd.
  - simpl. case_bool_decide; [|done]. intros [= <-]. loop_ends (@nil (list Substring)).
  - rewrite passes_loop_S. case_bool_decide.
    { intros [= <-]. loop_ends (@nil (list Substring)). }
    destruct (gen_next _) as [[x g]|] eqn:Hg.
    2:{ intros [= <-]. loop_ends [@nil Substring]. }
    apply gen_next_whole in Hg as ->.
    rewrite scan_stops by done.
    destruct (_censor_word_part pf language _) as [[[cw b] pf1]| |] eqn:E;
      [|done..].
    rewrite !bind_Ok. simpl fst. simpl snd.
    pose proof (part_keeps_config _ _ _ _ _ _ E) as Hs.
    intros (Hs' & new & -> & Hnew & Hp & _)%IH;
      [|by rewrite (same_but_cache_analyses _ _ Hs)].
    split; [by eapply same_but_cache_trans|].
    exists ([whole_span (censored cur)] :: new).
    rewrite <- app_assoc. simpl.
    split; [done|]. split; [|split; [lia|by right]].
    constructor; [|done]. right. by eexists.
Qed.

Lemma finish_word_no_deep pf language word cw :
  DEEP ∉ _analyses pf ->
  same_but_cache pf (finish_word pf language word cw).
Proof.
  intros Hd. unfold finish_word. case_bool_decide.
  - rewrite (bool_decide_eq_false_2 (DEEP ∈ _analyses pf)) by done.
    apply same_but_cache_refl.
  - apply same_but_cache_save.
Qed.

Lemma run_no_deep fuel pf language word r :
  DEEP ∉ _analyses pf ->
  _censor_word_run spacy_lemma fuel pf language word = Ok r ->
  same_but_cache pf (run_pf r) /\
  Forall one_whole_span (run_tested r) /\
  run_passes r = length (run_tested r) /\
  (forall l, head (run_tested r) = Some l ->
             l = [] \/ l = [whole_span (text word)]).
Proof.
  intros Hd. unfold _censor_word_run.
  destruct (passes_loop _ _ _ _ _ _ _ _ _) as [r0| |] eqn:E; [|done..].
  rewrite bind_Ok. intros [= <-]. simpl.
  apply passes_loop_no_deep in E as (Hs & new & -> & Hnew & -> & Hh);
    [|done].
  simpl in *. split; [|split; [done|split; [done|]]].
  - eapply same_but_cache_trans; [exact Hs|].
    apply finish_word_no_deep.
    by rewrite (same_but_cache_analyses _ _ Hs).
  - destruct new; simpl; [done|]. by intros ? [= <-].
Qed.

Lemma run_keeps_ok pf language word fuel r :
  pf_ok pf -> length (text word) < fuel ->
  _censor_word_run spacy_lemma fuel pf language word = Ok r ->
  pf_ok (run_pf r).
Proof.
  intros Hok Hf E.
  pose proof (run_cases spacy_lemma pf language word fuel Hok Hf) as H.
  rewrite E in H. destruct Hok as [Hd Hc Hcache].
  inversion H; subst; simpl; try (by split).
  split; [done..|]. simpl. intros k w.
  rewrite lookup_insert. case_decide as Hk.
  - subst k. by intros [= <-].
  - apply Hcache.
Qed.
End NoDeep.

(** ** Censoring a text *)

Section TextFacts.
Variable spacy_lemma : option Language -> str -> str.
Variable spacy_tokens : Language -> str -> list (nat * str).
Abbreviation tok := (_make_spacy_token spacy_lemma).

Lemma censor_word_cases pf language t :
  pf_ok pf ->
  (left_alone spacy_lemma pf language t = true /\
   _censor_word spacy_lemma pf language (tok language t)
   = Ok (mkWord t t None, pf))
  \/ (left_alone spacy_lemma pf language t = false /\
      exists opw,
        let w := mkWord t (full_mask pf t) opw in
        _censor_word spacy_lemma pf language (tok language t)
        = Ok (w, _save_censored_word pf w))
  \/ (left_alone spacy_lemma pf language t = false /\
      _censor_word spacy_lemma pf language (tok language t)
      = Raise UnboundLocalError).
Proof.
  intros Hok. unfold _censor_word, left_alone.
  pose proof (run_cases spacy_lemma pf language (tok language t) _ Hok
                (Nat.lt_succ_diag_r _)) as H.
  inversion H as [Hn E|Hne Hfc Hk E|opw Hne Hfc Hk Hm E|Hne Hfc Hk Hc Hw Hp E];
    cbn [text _make_spacy_token] in *;
    rewrite <- E, ?bind_Ok, ?bind_Raise; cbn [run_word run_pf].
  - left. split; [|done]. destruct Hn as [-> | ->]; [done|].
    by rewrite orb_true_r.
  - left. split; [|done]. destruct Hk as [-> | [Hc Hp]].
    + rewrite orb_true_r. done.
    + rewrite (bool_decide_eq_true_2 _ Hc), Hp. simpl.
      by rewrite orb_true_r.
  - right. left. split; [|by exists opw].
    rewrite (bool_decide_eq_false_2 _ Hne), Hfc, Hk. simpl.
    destruct Hm as [(w & Hw & _)|(Hc & _ & lemma & Hl & Hpl & _)].
    + rewrite bool_decide_eq_false_2; [done|]. by rewrite Hw.
    + rewrite (bool_decide_eq_true_2 _ Hc). simpl.
      apply negb_false_iff. unfold has_profane_lemma.
      apply existsb_exists. exists lemma. split; [|done].
      by apply list_elem_of_In.
  - right. right. split; [|done].
    rewrite (bool_decide_eq_false_2 _ Hne), Hfc, Hk, Hp. simpl.
    by rewrite andb_false_r.
Qed.

(** Caching another word does not disturb a word that is left alone. *)
Lemma left_alone_frame pf language t w :
  left_alone spacy_lemma pf language t = true ->
  uncensored w <> t ->
  left_alone spacy_lemma (_save_censored_word pf w) language t = true.
Proof.
  unfold left_alone. intros H Hne.
  change (_censored_words (_save_censored_word pf w))
    with (<[uncensored w := w]> (_censored_words pf)).
  rewrite lookup_insert_ne by done. exact H.
Qed.

Lemma censor_tokens_spec language tokens :
  forall pf doc pf1,
    pf_ok pf ->
    censor_tokens spacy_lemma pf language tokens = Ok (doc, pf1) ->
    pf_ok pf1 /\ same_but_cache pf pf1 /\
    (forall t, left_alone spacy_lemma pf (Some language) t = true ->
               left_alone spacy_lemma pf1 (Some language) t = true) /\
    Forall (fun d => is_profane d = false ->
                     left_alone spacy_lemma pf1 (Some language) (tok_text d) = true)
           doc.
Proof.
  induction tokens as [|[i t] tokens IH]; intros pf doc pf1 Hok; simpl.
  - intros [= <- <-]. split; [done|]. split; [apply same_but_cache_refl|].
    split; [done|constructor].
  - destruct (censor_word_cases pf (Some language) t Hok)
      as [[Hl ->]|[(Hl & opw & ->)|[Hl ->]]];
      rewrite ?bind_Ok, ?bind_Raise; [| |done].
    + destruct (censor_tokens _ pf language tokens) as [[doc' pf']| |] eqn:E;
        [|done..].
      rewrite bind_Ok. intros [= <- <-].
      destruct (IH _ _ _ Hok E) as (Hok' & Hs & Hmono & Hdoc).
      split; [done|]. split; [done|]. split; [done|].
      constructor; [|done]. simpl. intros _. by apply Hmono.
    + set (w := mkWord t (full_mask pf t) opw).
      assert (pf_ok (_save_censored_word pf w)) as Hok1.
      { destruct Hok as [Hd Hc Hcache]. split; [done..|].
        simpl. intros k w'. rewrite lookup_insert. case_decide as Hk.
        - subst k. by intros [= <-].
        - apply Hcache. }
      destruct (censor_tokens _ (_save_censored_word pf w) language tokens)
        as [[doc' pf']| |] eqn:E; [|done..].
      rewrite bind_Ok. intros [= <- <-].
      destruct (IH _ _ _ Hok1 E) as (Hok' & Hs & Hmono & Hdoc).
      split; [done|].
      split; [eapply same_but_cache_trans; [apply same_but_cache_save|done]|].
      split.
      * intros t' Ht'. apply Hmono. apply left_alone_frame; [done|].
        simpl. intros <-. congruence.
      * constructor; [|done]. simpl.
        rewrite bool_decide_eq_true_2; [done|].
        unfold left_alone in Hl.
        apply orb_false_iff in Hl as [Hl _].
        apply orb_false_iff in Hl as [Hl _].
        apply orb_false_iff in Hl as [_ Hfc].
        apply mask_not_self; [apply Hok|done].
Qed.

Lemma censor_tokens_left_alone language tokens pf :
  pf_ok pf ->
  Forall (fun it => left_alone spacy_lemma pf (Some language) it.2 = true)
         tokens ->
  censor_tokens spacy_lemma pf language tokens
  = Ok (map (fun it => mkDocToken it.1 it.2 false it.2) tokens, pf).
Proof.
  intros Hok. induction 1 as [|[i t] tokens Ht _ IH]; simpl; [done|].
  destruct (censor_word_cases pf (Some language) t Hok)
    as [[Hl ->]|[(Hl & _)|[Hl _]]]; simpl in Ht; [|congruence..].
  rewrite bind_Ok, IH, bind_Ok. simpl.
  by rewrite bool_decide_eq_false_2 by tauto.
Qed.

Lemma replace_profane_none text (doc : list DocToken) :
  Forall (fun d => is_profane d = false) doc ->
  replace_profane text doc = text.
Proof.
  unfold replace_profane. induction 1 as [|d doc Hd _ IH]; simpl; [done|].
  by rewrite Hd.
Qed.

Lemma censor_eq pf text :
  censor spacy_lemma spacy_tokens pf text
  = r ← _parse spacy_lemma spacy_tokens pf "en_core_web_sm" text;
    Ok (replace_profane text r.1, r.2).
Proof.
  unfold censor, _censor, _split_by_language. simpl.
  by destruct (_parse _ _ _ _ _) as [[doc pf']| |].
Qed.

End TextFacts.

(** ** Fuel and the invariant *)

Section RunBounds.
Variable spacy_lemma : option Language -> str -> str.



Lemma run_outcome_not_out_of_fuel pf language word :
  ~ run_outcome spacy_lemma pf language word OutOfFuel.
Proof. inversion 1. Qed.

Lemma censor_word_keeps_ok pf language word w pf' :
  pf_ok pf ->
  _censor_word spacy_lemma pf language word = Ok (w, pf') -> pf_ok pf'.
Proof.
  intros Hok. unfold _censor_word.
  destruct (_censor_word_run _ _ _ _ _) as [r| |] eqn:E; [|done..].
  rewrite bind_Ok. intros [= <- <-].
  eapply run_keeps_ok; [exact Hok| |exact E]. lia.
Qed.

(** With whole words censored, [_censor_word] returns for every token. *)
Lemma censor_word_returns pf language word :
  pf_ok pf -> _censor_whole_words pf = true ->
  exists w pf', _censor_word spacy_lemma pf language word = Ok (w, pf').
Proof.
  intros Hok Hw. unfold _censor_word.
  pose proof (run_cases spacy_lemma pf language word _ Hok
                (Nat.lt_succ_diag_r _)) as H.
  destruct (_censor_word_run _ _ _ _ _) as [r| |]; [|by inversion H; congruence..].
  rewrite bind_Ok. by eexists _, _.
Qed.

End RunBounds.

(** A filter with no analyses, a one-character censor character and an
    empty cache of censored words is in a state [pf_ok]. *)
Lemma fresh_ok pf :
  _analyses pf = [] -> length (_censor_char pf) = 1 ->
  _censored_words pf = ∅ -> pf_ok pf.
Proof.
  intros Ha Hc Hw. split; [rewrite Ha; set_solver|done|].
  intros k w. by rewrite Hw, lookup_empty.
Qed.

(** ** The worked configurations *)

(** Each worked filter is what [__init__] returns. *)
Lemma worked_filters_are_built :
  Config.init Ex.english Ex.installed ["en"%string]
    [DEEP; MORPHOLOGICAL; MULTILINGUAL] (s "*") true None None None
  = Ok Ex.whole /\
  Config.init Ex.english Ex.installed ["en"%string]
    [DEEP; MORPHOLOGICAL; MULTILINGUAL] (s "*") false None None None
  = Ok Ex.partial /\
  Config.init ExDict.two_files Ex.installed ["en"%string; "ru"%string] []
    (s "*") true (Some {[ "ru"%string := [s "foo"] ]}) None None
  = Ok ExDict.custom_ru /\
  Config.init ExText.model_files Ex.installed ["en_core_web_sm"%string] []
    (s "a") true (Some {[ "en_core_web_sm"%string := [s "-"; s "bac"] ]})
    None None
  = Ok ExText.letter_mask /\
  Config.init ExText.model_files Ex.installed ["en_core_web_sm"%string] []
    (s "*") true None None None = Ok ExText.star_mask.
Proof. split_and!; vm_compute; reflexivity. Qed.

(** ** The enumeration of the spans *)

Section SpanFacts.

Lemma elem_of_lengths (n : nat) (reverse : bool) L :
  L ∈ (if reverse then rev (seq 1 n) else seq 1 n) <-> 1 <= L <= n.
Proof.
  destruct reverse.
  - rewrite list_elem_of_In, <- in_rev, <- list_elem_of_In, elem_of_seq. lia.
  - rewrite elem_of_seq. lia.
Qed.

Lemma elem_of_substrings_indexes (t : str) reverse x :
  x ∈ substrings_indexes t reverse <->
  sub_start x < sub_finish x /\ sub_finish x <= length t /\
  sub_word x = take (sub_finish x - sub_start x) (drop (sub_start x) t).
Proof.
  unfold substrings_indexes. cbv zeta.
  rewrite list_elem_of_bind. split.
  - intros (L & Hx & HL). apply elem_of_lengths in HL.
    apply list_elem_of_fmap in Hx as (i & -> & Hi).
    apply elem_of_seq in Hi. unfold sub_start, sub_finish, sub_word. simpl.
    replace (i + L - i) with L by lia. split; [lia|]. split; [lia|done].
  - destruct x as [[w i] j]. unfold sub_start, sub_finish, sub_word. simpl.
    intros (Hij & Hj & ->). exists (j - i). split.
    + apply list_elem_of_fmap. exists i.
      split; [by replace (i + (j - i)) with j by lia|].
      apply elem_of_seq. lia.
    + apply elem_of_lengths. lia.
Qed.

Lemma NoDup_lengths (n : nat) (reverse : bool) :
  NoDup (if reverse then rev (seq 1 n) else seq 1 n).
Proof.
  destruct reverse; [|apply NoDup_seq].
  apply NoDup_ListNoDup, NoDup_rev, NoDup_ListNoDup, NoDup_seq.
Qed.

Lemma NoDup_substrings_indexes (t : str) reverse :
  NoDup (substrings_indexes t reverse).
Proof.
  unfold substrings_indexes. cbv zeta. apply NoDup_bind.
  - intros L1 L2 x _ _ (i1 & -> & _)%list_elem_of_fmap
      (i2 & E & _)%list_elem_of_fmap.
    injection E as _ -> E. lia.
  - intros L _. apply NoDup_fmap_2_strong; [|apply NoDup_seq].
    intros i1 i2 _ _ E. by injection E.
  - apply NoDup_lengths.
Qed.

Lemma sum_spans n m :
  m <= n ->
  2 * sum_list_with (fun L => n - L + 1) (seq 1 m) = m * (2 * n + 1 - m).
Proof.
  induction m as [|m IH]; [done|]. intros Hm.
  rewrite seq_S, sum_list_with_app. simpl.
  specialize (IH ltac:(lia)). nia.
Qed.

Lemma length_substrings_indexes (t : str) reverse :
  2 * length (substrings_indexes t reverse) = length t * (length t + 1).
Proof.
  unfold substrings_indexes. cbv zeta.
  set (n := length t).
  assert (forall l, length (l ≫= fun L =>
            (fun i => (take L (drop i t), i, i + L)) <$> seq 0 (n - L + 1))
          = sum_list_with (fun L => n - L + 1) l) as Hlen.
  { induction l as [|L l IH]; [done|].
    rewrite bind_cons, length_app, length_fmap, length_seq, IH. done. }
  rewrite Hlen. destruct reverse.
  - rewrite rev_alt. fold (reverse (seq 1 n)).
    rewrite sum_list_with_reverse, sum_spans by lia. nia.
  - rewrite sum_spans by lia. nia.
Qed.

Lemma StronglySorted_bind {A B} (R' : relation A) (R : relation B)
    (f : A -> list B) (l : list A) :
  StronglySorted R' l ->
  (forall a, a ∈ l -> StronglySorted R (f a)) ->
  (forall a b x y, R' a b -> x ∈ f a -> y ∈ f b -> R x y) ->
  StronglySorted R (l ≫= f).
Proof.
  intros Hl Hf HR. induction Hl as [|a l Hl IH Ha]; [constructor|].
  rewrite bind_cons. apply StronglySorted_app_2.
  - intros x y Hx (b & Hy & Hb)%list_elem_of_bind.
    rewrite Forall_forall in Ha. eauto.
  - apply Hf. set_solver.
  - apply IH. intros b Hb. apply Hf. set_solver.
Qed.

Lemma StronglySorted_rev_seq n : StronglySorted (fun a b => b < a) (rev (seq 1 n)).
Proof.
  induction n as [|n IH]; [constructor|].
  rewrite seq_S, rev_app_distr. simpl. constructor; [done|].
  apply Forall_forall. intros b Hb.
  rewrite list_elem_of_In, <- in_rev, <- list_elem_of_In, elem_of_seq in Hb. lia.
Qed.

Lemma StronglySorted_seq j n : StronglySorted lt (seq j n).
Proof.
  revert j. induction n as [|n IH]; intros j; simpl; constructor; [done|].
  apply Forall_forall. intros b Hb%elem_of_seq. lia.
Qed.

Lemma substrings_indexes_sorted (t : str) :
  StronglySorted span_before (substrings_indexes t true).
Proof.
  unfold substrings_indexes. cbv zeta.
  apply (StronglySorted_bind (fun a b => b < a)).
  - apply StronglySorted_rev_seq.
  - intros L _. eapply StronglySorted_fmap; [|apply (StronglySorted_seq 0)].
    intros i j Hij. right. unfold sub_length, sub_start, sub_finish. simpl.
    split; [lia|done].
  - intros L1 L2 x y HL (i & -> & _)%list_elem_of_fmap (j & -> & _)%list_elem_of_fmap.
    left. unfold sub_length, sub_start, sub_finish. simpl. lia.
Qed.

(** With no interval stored, the generator hands out the next span of its
    input. *)
Lemma resume_empty l :
  resume ∅ l = match l with [] => None | x :: l' => Some (x, mkDropGen l' ∅) end.
Proof.
  destruct l as [|x l]; [done|]. simpl. unfold not_dropped.
  rewrite bool_decide_eq_true_2; [done|]. apply set_Forall_empty.
Qed.

Lemma gen_send_no_interval l d :
  no_interval d -> gen_send (mkDropGen l ∅) d = resume ∅ l.
Proof. destruct d as [[a|] [b|]]; intros [?|?]; simplify_eq/=; done. Qed.


Lemma StronglySorted_sublist {A} (R : relation A) (l k : list A) :
  l `sublist_of` k -> StronglySorted R k -> StronglySorted R l.
Proof.
  induction 1 as [|x l k Hs IH|x l k Hs IH]; intros Hk; [done| |].
  - apply StronglySorted_cons in Hk as [Hx Hk].
    apply StronglySorted_cons. split; [|auto].
    eapply Forall_forall. intros y Hy. rewrite Forall_forall in Hx.
    apply Hx. by eapply sublist_subseteq.
  - apply StronglySorted_cons in Hk as [_ Hk]. auto.
Qed.

End SpanFacts.

(** ** Normalized forms and the two tests *)

Section FormFacts.

Lemma get_spells_eq pf language :
  _get_spells pf language
  = if bool_decide (DEEP ∈ _analyses pf /\ language = None)
    then [] else [DummyHunSpell].
Proof.
  unfold _get_spells. case_bool_decide as Hd.
  - rewrite bool_decide_eq_false_2; [done|]. intros [? _]. done.
  - destruct language as [l|].
    + rewrite bool_decide_eq_false_2 by (intros [_ ?]; done).
      destruct (list_find _ _) as [[i l']|]; [|done].
      unfold _spells. by rewrite lookup_empty.
    + rewrite bool_decide_eq_true_2.
      * unfold _spells. by rewrite map_to_list_empty.
      * split; [|done]. destruct (decide (DEEP ∈ _analyses pf)); [done|]. done.
Qed.

Lemma stems_eq pf language (word : str) :
  _stems pf language word
  = if bool_decide (DEEP ∈ _analyses pf /\ language = None)
    then [] else [word].
Proof.
  unfold _stems. rewrite get_spells_eq. by case_bool_decide.
Qed.

Lemma add_present {A} `{EqDecision A} (x : A) o :
  x ∈ o -> OrderedSet.add x o = o.
Proof. intros. unfold OrderedSet.add. by rewrite bool_decide_eq_true_2. Qed.

Lemma normal_forms_eq (word : str) : _normal_forms word = [word].
Proof.
  unfold _normal_forms, OrderedSet.of_iter, OrderedSet.union, OrderedSet.add.
  reflexivity.
Qed.

Lemma lemmas_eq pf language word :
  _lemmas pf language word
  = match text word with
    | [] => []
    | _ => OrderedSet.add (lowered_lemma word) [text word]
    end.
Proof.
  unfold _lemmas. destruct (text word) as [|c t] eqn:E; [done|].
  cbv zeta. fold (lowered_lemma word).
  assert (Hin : c :: t ∈ OrderedSet.add (lowered_lemma word)
                             (OrderedSet.add (c :: t) [])).
  { apply elem_of_add. right. apply elem_of_add. by left. }
  set (r := OrderedSet.add (lowered_lemma word) (OrderedSet.add (c :: t) [])) in *.
  assert (Hs : OrderedSet.union r (_stems pf language (c :: t)) = r).
  { rewrite stems_eq. case_bool_decide; [done|].
    unfold OrderedSet.union. simpl. by apply add_present. }
  rewrite Hs, normal_forms_eq. unfold OrderedSet.union. simpl.
  by apply add_present.
Qed.

Lemma str_in_spec (a b : str) :
  str_in a b = true <-> exists pre post, b = pre ++ a ++ post.
Proof.
  induction b as [|c b IH]; simpl.
  - rewrite orb_false_r, bool_decide_eq_true. split.
    + intros [k Hk]. exists [], k. done.
    + intros (pre & post & H). symmetry in H.
      apply app_eq_nil in H as [-> [-> ->]%app_eq_nil]. done.
  - rewrite orb_true_iff, bool_decide_eq_true, IH. split.
    + intros [[k Hk]|(pre & post & ->)].
      * exists [], k. done.
      * exists (c :: pre), post. done.
    + intros (pre & post & H). destruct pre as [|c' pre].
      * left. exists post. done.
      * right. simplify_eq/=. eauto.
Qed.

Lemma existsb_elem_of {A} (f : A -> bool) l :
  existsb f l = true <-> exists x, x ∈ l /\ f x = true.
Proof.
  rewrite existsb_exists. by setoid_rewrite list_elem_of_In.
Qed.

Lemma has_no_profanity_spec pf words :
  _has_no_profanity pf words = true <->
  exists word clean pre post,
    word ∈ words /\ clean ∈ _words_with_no_profanity_inside pf /\
    clean = pre ++ word ++ post.
Proof.
  unfold _has_no_profanity, _get_words_with_no_profanity_inside.
  rewrite existsb_elem_of. split.
  - intros (w & Hw & (cl & Hcl & (pre & post & ->)%str_in_spec)%existsb_elem_of).
    apply elem_of_elements in Hcl. eauto 10.
  - intros (w & cl & pre & post & Hw & Hcl & ->).
    exists w. split; [done|]. apply existsb_elem_of.
    exists (pre ++ w ++ post). split; [by apply elem_of_elements|].
    apply str_in_spec. eauto.
Qed.

Lemma is_profane_word_spec pf language w :
  _is_profane_word pf language w = true <->
  match language with
  | Some l => w ∈ dict_get (profane_word_dictionaries pf) l
  | None => exists l, w ∈ dict_get (profane_word_dictionaries pf) l
  end.
Proof.
  unfold _is_profane_word, OrderedSet.contains. destruct language as [l|].
  - simpl. rewrite orb_false_r. apply bool_decide_eq_true.
  - rewrite existsb_elem_of. split.
    + intros (d & Hd & Hw%bool_decide_eq_true).
      apply list_elem_of_fmap in Hd as ([l d'] & -> & Hl).
      apply elem_of_map_to_list in Hl. exists l. unfold dict_get.
      by rewrite Hl.
    + intros (l & Hl). pose proof (in_dict_is_some _ _ _ Hl) as [d Hd].
      unfold dict_get in Hl. rewrite Hd in Hl. simpl in Hl.
      exists d. split; [|by apply bool_decide_eq_true].
      apply list_elem_of_fmap. exists (l, d). split; [done|].
      by apply elem_of_map_to_list.
Qed.

End FormFacts.

(** ** The cache of censored words *)

Section CacheFacts.

Lemma save_present pf w :
  _censored_words pf !! uncensored w = Some w -> _save_censored_word pf w = pf.
Proof.
  intros H. unfold _save_censored_word. rewrite insert_id by done.
  by destruct pf.
Qed.

Lemma first_profane_lemma_first pf language word lemmas w b pf' lemma :
  first_profane_lemma pf language word lemmas = Ok (w, b, pf') ->
  original_profane_word w = Some lemma ->
  exists before after,
    lemmas = before ++ lemma :: after /\
    Forall (fun l => _is_profane_word pf language l = false) before /\
    _is_profane_word pf language lemma = true /\
    w = mkWord (text word) (_generate_fully_censored_word pf (text word))
               (Some lemma) /\
    pf' = _save_censored_word pf w.
Proof.
  induction lemmas as [|l lemmas IH]; simpl.
  - intros [= <- _ _]. done.
  - destruct (_is_profane_word pf language l) eqn:Hl.
    + destruct (_censor_whole_words pf); [|done].
      intros [= <- <- <-]. simpl. intros [= ->].
      exists [], lemmas. split_and!; done.
    + intros H1 H2. destruct (IH H1 H2) as (before & after & -> & Hb & ?).
      exists (l :: before), after. split; [done|]. split; [|done].
      by constructor.
Qed.

End CacheFacts.

(** ** What a call of [_censor_word] does *)

Section WordFacts.
Variable spacy_lemma : option Language -> str -> str.
Abbreviation tok := (_make_spacy_token spacy_lemma).

(** The tokens of a word only matter through their text. *)
Lemma scan_text word word' language (H : text word = text word') fuel :
  forall pf prev cur g x np tested,
    scan spacy_lemma fuel pf language word prev cur g x np tested
    = scan spacy_lemma fuel pf language word' prev cur g x np tested.
Proof.
  induction fuel as [|fuel IH]; intros; [done|].
  cbn [scan]. rewrite H.
  destruct (_censor_word_part _ _ _) as [[[cc b] pf1]| |]; [|done..].
  rewrite !bind_Ok. cbv zeta.
  destruct (_ || _); [done|].
  destruct (gen_send _ _) as [[x' g']|]; [|done]. apply IH.
Qed.

Lemma passes_loop_text word word' language (H : text word = text word') fuel :
  forall pf prev cur passes tested,
    passes_loop spacy_lemma fuel pf language word prev cur passes tested
    = passes_loop spacy_lemma fuel pf language word' prev cur passes tested.
Proof.
  induction fuel as [|fuel IH]; intros; [done|].
  rewrite !passes_loop_S. case_bool_decide; [done|].
  destruct (gen_next _) as [[x g]|]; [|done].
  rewrite (scan_text word word' language H).
  destruct (scan _ _ _ _ _ _ _ _ _ _ _) as [p| |]; [|done..].
  rewrite !bind_Ok. apply IH.
Qed.


(** The four ways [_censor_word] can end in a state [pf_ok]. *)
Lemma censor_word_outcomes pf language word :
  pf_ok pf ->
  (left_alone spacy_lemma pf language (text word) = true /\
   _censor_word spacy_lemma pf language word
   = Ok (mkWord (text word) (text word) None, pf))
  \/ (left_alone spacy_lemma pf language (text word) = false /\
      exists w0, _censored_words pf !! text word = Some w0 /\
        let w := mkWord (text word) (full_mask pf (text word))
                        (original_profane_word w0) in
        _censor_word spacy_lemma pf language word
        = Ok (w, _save_censored_word pf w))
  \/ (left_alone spacy_lemma pf language (text word) = false /\
      _censored_words pf !! text word = None /\
      _censor_whole_words pf = true /\
      exists lemma,
        lemma ∈ _lemmas pf language (tok language (text word)) /\
        _is_profane_word pf language lemma = true /\
        let w := mkWord (text word) (full_mask pf (text word)) (Some lemma) in
        _censor_word spacy_lemma pf language word
        = Ok (w, _save_censored_word pf w))
  \/ (left_alone spacy_lemma pf language (text word) = false /\
      _censored_words pf !! text word = None /\
      _censor_whole_words pf = false /\
      _censor_word spacy_lemma pf language word = Raise UnboundLocalError).
Proof.
  intros Hok. unfold _censor_word, left_alone.
  pose proof (run_cases spacy_lemma pf language word _ Hok
                (Nat.lt_succ_diag_r _)) as H.
  inversion H as [Hn E|Hne Hfc Hk E|opw Hne Hfc Hk Hm E|Hne Hfc Hk Hc Hw Hp E];
    cbn [text _make_spacy_token] in *;
    try rewrite <- E; rewrite ?bind_Ok, ?bind_Raise; cbn [run_word run_pf].
  - left. split; [|done]. destruct Hn as [-> | ->]; [done|].
    by rewrite orb_true_r.
  - left. split; [|done]. destruct Hk as [-> | [Hc Hp]].
    + rewrite orb_true_r. done.
    + rewrite (bool_decide_eq_true_2 _ Hc), Hp. simpl.
      by rewrite orb_true_r.
  - rewrite (bool_decide_eq_false_2 _ Hne), Hfc, Hk. simpl.
    destruct Hm as [(w & Hw & ->)|(Hc & Hww & lemma & Hl & Hpl & ->)].
    + right. left. split; [|by exists w].
      rewrite bool_decide_eq_false_2; [done|]. by rewrite Hw.
    + right. right. left. split_and!; [|done|done|by exists lemma].
      rewrite (bool_decide_eq_true_2 _ Hc). simpl.
      apply negb_false_iff. unfold has_profane_lemma.
      apply existsb_exists. exists lemma. split; [|done].
      by apply list_elem_of_In.
  - right. right. right. split_and!; [|done..].
    rewrite (bool_decide_eq_false_2 _ Hne), Hfc, Hk, Hp. simpl.
    by rewrite andb_false_r.
Qed.

Lemma left_alone_not_masked pf language (t : str) :
  length (_censor_char pf) = 1 ->
  left_alone spacy_lemma pf language t = false -> full_mask pf t <> t.
Proof.
  intros Hc H. apply mask_not_self; [done|].
  unfold left_alone in H. destruct (fully_censored _ _); [|done].
  by rewrite orb_true_r in H.
Qed.

(** A word that is cached and not left alone comes back as it is cached,
    and the filter stays as it is. *)
Lemma censor_word_cached pf language word w0 :
  pf_ok pf ->
  _censored_words pf !! text word = Some w0 ->
  left_alone spacy_lemma pf language (text word) = false ->
  _censor_word spacy_lemma pf language word = Ok (w0, pf).
Proof.
  intros Hok Hc Hl.
  destruct (censor_word_outcomes pf language word Hok)
    as [[E _]|[(_ & w & Hw & E)|[(_ & E & _)|(_ & E & _)]]]; [congruence| |congruence..].
  rewrite Hc in Hw. injection Hw as <-.
  destruct (ok_cache _ Hok _ _ Hc) as [Hu Hm].
  assert (mkWord (text word) (full_mask pf (text word)) (original_profane_word w0)
          = w0) as Hw0.
  { destruct w0; simpl in *. unfold full_mask. congruence. }
  cbv zeta in E. rewrite Hw0 in E. rewrite E.
  rewrite save_present; [done|]. by rewrite Hu.
Qed.

Lemma left_alone_saved pf language (t : str) w :
  left_alone spacy_lemma pf language t = false ->
  uncensored w = t ->
  left_alone spacy_lemma (_save_censored_word pf w) language t = false.
Proof.
  unfold left_alone. intros H <-.
  change (_censored_words (_save_censored_word pf w))
    with (<[uncensored w := w]> (_censored_words pf)).
  rewrite lookup_insert_eq.
  rewrite (bool_decide_eq_false_2 (Some w = None)) by done.
  rewrite andb_false_l, orb_false_r.
  change (_censor_char (_save_censored_word pf w)) with (_censor_char pf).
  rewrite !orb_false_iff in H. destruct H as [[[-> ->] H] _].
  simpl. exact H.
Qed.

End WordFacts.

(** ** Replacing tokens *)

Section ReplaceFacts.

Lemma replace_token_length (text : str) old new :
  idx old + length (tok_text old) <= length text ->
  length (_replace_token text old new)
  = length text - length (tok_text old) + length new.
Proof.
  intros H. unfold _replace_token, slice_to, slice_from.
  rewrite !length_app, length_take, length_drop. lia.
Qed.

Lemma replace_token_length_ge (text : str) old new :
  length new = length (tok_text old) ->
  length text <= length (_replace_token text old new).
Proof.
  intros H. unfold _replace_token, slice_to, slice_from.
  rewrite !length_app, length_take, length_drop. lia.
Qed.

Lemma replace_token_outside (text : str) old new k :
  length new = length (tok_text old) ->
  k < length text ->
  ~ covers (idx old) (tok_text old) k ->
  _replace_token text old new !! k = text !! k.
Proof.
  unfold covers, _replace_token, slice_to, slice_from. intros Hn Hk Hc.
  destruct (decide (k < idx old)) as [Hlt|Hge].
  - rewrite lookup_app_l by (rewrite length_take; lia).
    by rewrite lookup_take_lt.
  - rewrite lookup_app_r by (rewrite length_take; lia).
    rewrite length_take, Nat.min_l by lia.
    rewrite lookup_app_r by lia.
    rewrite lookup_drop. f_equal. lia.
Qed.

Lemma replace_token_chars (text : str) old new k c :
  length new = length (tok_text old) ->
  _replace_token text old new !! k = Some c ->
  text !! k = Some c \/ c ∈ new.
Proof.
  unfold _replace_token, slice_to, slice_from.
  intros Hn [H|[Hk H]]%lookup_app_Some.
  - left. apply lookup_take_Some in H. tauto.
  - apply lookup_app_Some in H as [H|[Hl H]].
    + right. by eapply list_elem_of_lookup_2.
    + left. rewrite lookup_drop in H. rewrite length_take in *.
      destruct (decide (idx old <= length text)).
      * rewrite <- H. f_equal. lia.
      * apply lookup_lt_Some in H. lia.
Qed.

End ReplaceFacts.

(** ** Censoring the tokens of a text *)

Section TokenFacts.
Variable spacy_lemma : option Language -> str -> str.
Abbreviation tok := (_make_spacy_token spacy_lemma).

(** In a state [pf_ok] the filter changes only when a word that is not
    cached is masked. *)
Lemma censor_word_steps pf language word :
  pf_ok pf ->
  (left_alone spacy_lemma pf language (text word) = true /\
   _censor_word spacy_lemma pf language word
   = Ok (mkWord (text word) (text word) None, pf))
  \/ (left_alone spacy_lemma pf language (text word) = false /\
      exists w0, _censored_words pf !! text word = Some w0 /\
        censored w0 = full_mask pf (text word) /\
        _censor_word spacy_lemma pf language word = Ok (w0, pf))
  \/ (left_alone spacy_lemma pf language (text word) = false /\
      _censored_words pf !! text word = None /\
      exists opw,
        let w := mkWord (text word) (full_mask pf (text word)) opw in
        _censor_word spacy_lemma pf language word
        = Ok (w, _save_censored_word pf w))
  \/ (left_alone spacy_lemma pf language (text word) = false /\
      _censor_whole_words pf = false /\
      _censor_word spacy_lemma pf language word = Raise UnboundLocalError).
Proof.
  intros Hok.
  destruct (censor_word_outcomes spacy_lemma pf language word Hok)
    as [H|[(Hl & w0 & Hc & E)|[(Hl & Hc & Hw & lemma & _ & _ & E)|(Hl & Hc & Hw & E)]]].
  - by left.
  - right. left. split; [done|]. exists w0. split; [done|].
    split; [by destruct (ok_cache _ Hok _ _ Hc)|].
    by apply censor_word_cached.
  - right. right. left. split; [done|]. split; [done|]. by exists (Some lemma).
  - right. right. right. done.
Qed.

Lemma censor_tokens_cons pf language i t tokens doc pf1 :
  censor_tokens spacy_lemma pf language ((i, t) :: tokens) = Ok (doc, pf1) ->
  exists w pf_a doc',
    _censor_word spacy_lemma pf (Some language) (tok (Some language) t)
    = Ok (w, pf_a) /\
    censor_tokens spacy_lemma pf_a language tokens = Ok (doc', pf1) /\
    doc = mkDocToken i t (bool_decide (censored w ≠ uncensored w)) (censored w)
          :: doc'.
Proof.
  simpl.
  destruct (_censor_word _ _ _ _) as [[w pf_a]| |]; [|done..].
  rewrite bind_Ok.
  destruct (censor_tokens _ _ _ _) as [[doc' pf']| |] eqn:E; [|done..].
  rewrite bind_Ok. intros [= <- <-]. by exists w, pf_a, doc'.
Qed.

Lemma saved_ok pf (t : str) opw :
  pf_ok pf ->
  pf_ok (_save_censored_word pf (mkWord t (full_mask pf t) opw)).
Proof.
  intros [Hd Hc Hcache]. split; [done..|].
  simpl. intros k w'. rewrite lookup_insert. case_decide as Hk.
  - subst k. by intros [= <-].
  - apply Hcache.
Qed.

(** The tokens of the document, as the tokenizer cut them, each with its
    mask or its own text. *)
Lemma censor_tokens_doc language tokens :
  forall pf doc pf1,
    pf_ok pf ->
    censor_tokens spacy_lemma pf language tokens = Ok (doc, pf1) ->
    Forall2 (fun it d =>
               idx d = it.1 /\ tok_text d = it.2 /\
               tok_censored d
               = if is_profane d then full_mask pf it.2 else it.2)
            tokens doc.
Proof.
  induction tokens as [|[i t] tokens IH]; intros pf doc pf1 Hok E.
  - injection E as <- <-. constructor.
  - apply censor_tokens_cons in E as (w & pf_a & doc' & Ew & E & ->).
    destruct (censor_word_steps pf (Some language) (tok (Some language) t) Hok)
      as [[Hl E']|[(Hl & w0 & Hc & Hm & E')|[(Hl & Hc & opw & E')|(_ & _ & E')]]];
      simpl text in *; rewrite E' in Ew; [| | |done]; injection Ew as <- <-.
    + constructor; [|by eapply IH]. simpl.
      by rewrite bool_decide_eq_false_2 by tauto.
    + constructor; [|by eapply IH]. simpl.
      destruct (ok_cache _ Hok _ _ Hc) as [-> _]. rewrite Hm.
      rewrite bool_decide_eq_true_2; [done|].
      eapply left_alone_not_masked; [apply Hok|done].
    + constructor; [|exact (IH _ _ _ (saved_ok pf t opw Hok) E)]. simpl.
      rewrite bool_decide_eq_true_2; [done|].
      eapply left_alone_not_masked; [apply Hok|done].
Qed.

(** Entries of the cache stay as they are. *)
Lemma cache_grows language tokens :
  forall pf doc pf1,
    pf_ok pf ->
    censor_tokens spacy_lemma pf language tokens = Ok (doc, pf1) ->
    forall k w, _censored_words pf !! k = Some w ->
                _censored_words pf1 !! k = Some w.
Proof.
  induction tokens as [|[i t] tokens IH]; intros pf doc pf1 Hok E k wk Hk.
  - by injection E as <- <-.
  - apply censor_tokens_cons in E as (w & pf_a & doc' & Ew & E & ->).
    destruct (censor_word_steps pf (Some language) (tok (Some language) t) Hok)
      as [[Hl E']|[(Hl & w0 & Hc & Hm & E')|[(Hl & Hc & opw & E')|(_ & _ & E')]]];
      simpl text in *; rewrite E' in Ew; [| | |done]; injection Ew as <- <-.
    + by eapply IH.
    + by eapply IH.
    + eapply (IH _ _ _ (saved_ok pf t opw Hok) E). simpl.
      rewrite lookup_insert_ne; [done|]. intros <-. congruence.
Qed.

Lemma left_alone_cached pf pf1 language (t : str) w :
  left_alone spacy_lemma pf language t = false ->
  same_but_cache pf pf1 ->
  _censored_words pf1 !! t = Some w ->
  left_alone spacy_lemma pf1 language t = false.
Proof.
  intros H [m ->] Hc. unfold left_alone in *.
  rewrite Hc. rewrite (bool_decide_eq_false_2 (Some w = None)) by done.
  rewrite andb_false_l, orb_false_r.
  rewrite !orb_false_iff in H. destruct H as [[[-> H1] H2] _].
  change (_censor_char (set_censored_words m pf)) with (_censor_char pf).
  rewrite H1. simpl. exact H2.
Qed.

Lemma censor_tokens_again language tokens :
  forall pf doc pf1,
    pf_ok pf ->
    censor_tokens spacy_lemma pf language tokens = Ok (doc, pf1) ->
    censor_tokens spacy_lemma pf1 language tokens = Ok (doc, pf1).
Proof.
  induction tokens as [|[i t] tokens IH]; intros pf doc pf1 Hok E;
    [by injection E as <- <-|].
  pose proof (censor_tokens_spec _ _ _ _ _ _ Hok E)
    as (Hok1 & Hs & Hmono & _).
  pose proof (cache_grows _ _ _ _ _ Hok E) as Hgrow.
  apply censor_tokens_cons in E as (w & pf_a & doc' & Ew & E & ->).
  pose proof (censor_word_keeps_ok spacy_lemma _ _ _ _ _ Hok Ew) as Hoka.
  assert (_censor_word spacy_lemma pf1 (Some language) (tok (Some language) t)
          = Ok (w, pf1)) as Ew1.
  { destruct (censor_word_steps pf (Some language) (tok (Some language) t) Hok)
      as [[Hl E']|[(Hl & w0 & Hc & Hm & E')|[(Hl & Hc & opw & E')|(_ & _ & E')]]];
      simpl text in *; rewrite E' in Ew; [| | |done]; injection Ew as <- <-.
    - destruct (censor_word_steps pf1 (Some language) (tok (Some language) t) Hok1)
        as [[_ E1]|[(Hl1 & _)|[(Hl1 & _)|(Hl1 & _)]]]; simpl text in *;
        [done|rewrite (Hmono _ Hl) in Hl1; done..].
    - apply censor_word_cached; [done|by apply Hgrow|].
      eapply left_alone_cached; [done|done|by apply Hgrow].
    - assert (_censored_words pf1 !! t
              = Some (mkWord t (full_mask pf t) opw)) as Hc1.
      { eapply (cache_grows _ _ _ _ _ Hoka E). simpl. apply lookup_insert_eq. }
      apply censor_word_cached; [done|done|].
      by eapply left_alone_cached. }
  simpl. rewrite Ew1, bind_Ok. rewrite (IH _ _ _ Hoka E), bind_Ok. done.
Qed.

Lemma censor_tokens_returns language tokens :
  forall pf,
    pf_ok pf -> _censor_whole_words pf = true ->
    exists doc pf1, censor_tokens spacy_lemma pf language tokens = Ok (doc, pf1).
Proof.
  induction tokens as [|[i t] tokens IH]; intros pf Hok Hw; [by eexists _, _|].
  simpl.
  destruct (censor_word_steps pf (Some language) (tok (Some language) t) Hok)
    as [[Hl E']|[(Hl & w0 & Hc & Hm & E')|[(Hl & Hc & opw & E')|(_ & Hw' & _)]]];
    [| | |congruence]; simpl text in *; rewrite E', bind_Ok.
  - destruct (IH pf Hok Hw) as (doc & pf1 & ->). rewrite bind_Ok. by eexists _, _.
  - destruct (IH pf Hok Hw) as (doc & pf1 & ->). rewrite bind_Ok. by eexists _, _.
  - destruct (IH _ (saved_ok pf t opw Hok) Hw) as (doc & pf1 & ->).
    rewrite bind_Ok. by eexists _, _.
Qed.

Lemma replace_profane_cons (text : str) d doc :
  replace_profane text (d :: doc)
  = replace_profane (if is_profane d
                     then _replace_token text d (tok_censored d) else text) doc.
Proof. reflexivity. Qed.

(** What the replacement loop does to the text. *)
Lemma replace_profane_spec (cc : str) (doc : list DocToken) :
  Forall (fun d => is_profane d = true ->
                   tok_censored d = str_mul (length (tok_text d)) cc) doc ->
  length cc = 1 ->
  forall text : str,
    length text <= length (replace_profane text doc) /\
    (forall k c, replace_profane text doc !! k = Some c ->
                 text !! k = Some c \/ [c] = cc) /\
    (forall k, k < length text ->
               Forall (fun d => ~ covers (idx d) (tok_text d) k) doc ->
               replace_profane text doc !! k = text !! k).
Proof.
  intros Hdoc Hcc. destruct (censor_char_single _ Hcc) as [c0 ->].
  induction Hdoc as [|d doc Hd _ IH]; intros text.
  - simpl. split; [done|]. split; [by left|done].
  - rewrite replace_profane_cons.
    destruct (is_profane d) eqn:Hp.
    + specialize (Hd eq_refl).
      assert (length (tok_censored d) = length (tok_text d)) as Hl.
      { rewrite Hd. by apply length_str_mul. }
      pose proof (replace_token_length_ge text d _ Hl) as Hge.
      destruct (IH (_replace_token text d (tok_censored d))) as (H1 & H2 & H3).
      split; [lia|]. split.
      * intros k c [H|H]%H2; [|by right].
        apply replace_token_chars in H as [H|H]; [by left| |done].
        right. rewrite Hd, str_mul_one in H.
        apply elem_of_replicate in H as [-> _]. done.
      * intros k Hk [Hcov Hrest]%Forall_cons. rewrite H3 by (done || lia).
        by apply replace_token_outside.
    + destruct (IH text) as (H1 & H2 & H3).
      split; [done|]. split; [done|].
      intros k Hk [_ Hrest]%Forall_cons. by apply H3.
Qed.

Lemma replace_profane_length (doc : list DocToken) n :
  Forall (fun d => idx d + length (tok_text d) <= n /\
                   (is_profane d = true ->
                    length (tok_censored d) = length (tok_text d))) doc ->
  forall text : str,
    length text = n -> length (replace_profane text doc) = n.
Proof.
  induction 1 as [|d doc [Hb Hd] _ IH]; intros text Hn; [done|].
  rewrite replace_profane_cons.
  destruct (is_profane d); [|by apply IH].
  apply IH. rewrite replace_token_length by lia. rewrite Hd by done. lia.
Qed.

Lemma doc_masks pf language tokens doc pf1 :
  pf_ok pf ->
  censor_tokens spacy_lemma pf language tokens = Ok (doc, pf1) ->
  Forall (fun d => is_profane d = true ->
                   tok_censored d
                   = str_mul (length (tok_text d)) (_censor_char pf)) doc.
Proof.
  intros Hok E. pose proof (censor_tokens_doc _ _ _ _ _ Hok E) as H.
  clear E.
  induction H as [|it d tokens' doc' (_ & Ht & Hc) _ IH]; [constructor|].
  constructor; [|done]. intros Hp. by rewrite Hc, Hp, Ht.
Qed.

End TokenFacts.

(** ** Merging parts *)

Section MergeFacts.

Lemma merge_loop_result parts :
  forall language merged result,
    merge_loop parts language merged result
    = result ++ merge_loop parts language merged [].
Proof.
  induction parts as [|p parts IH]; intros; simpl; [done|].
  case_bool_decide.
  - rewrite IH, (IH _ _ [(language, merged)]). by rewrite <- app_assoc.
  - apply IH.
Qed.

Lemma merge_loop_cons p parts language merged :
  merge_loop (p :: parts) language merged []
  = if bool_decide (p.1 ≠ language)
    then (language, merged) :: merge_loop parts p.1 p.2 []
    else merge_loop parts language (merged ++ p.2) [].
Proof. simpl. case_bool_decide; [|done]. by rewrite merge_loop_result. Qed.

Lemma merge_loop_spec parts :
  forall language merged,
    exists merged' rest,
      merge_loop parts language merged [] = (language, merged') :: rest /\
      whole_text ((language, merged') :: rest) = merged ++ whole_text parts /\
      alternating ((language, merged') :: rest) /\
      length rest <= length parts /\
      rest.*1 ⊆ parts.*1.
Proof.
  induction parts as [|p parts IH]; intros language merged.
  - exists merged, []. unfold whole_text. simpl.
    split; [done|]. split; [by rewrite !app_nil_r|]. split; [done|].
    split; [done|set_solver].
  - rewrite merge_loop_cons. case_bool_decide as Hp.
    + destruct (IH p.1 p.2) as (m' & rest & -> & Ht & Ha & Hl & Hs).
      exists merged, ((p.1, m') :: rest). split; [done|].
      unfold whole_text in *. simpl in *. rewrite Ht.
      split; [done|]. split; [by split|]. split; [lia|set_solver].
    + destruct (IH language (merged ++ p.2)) as (m' & rest & -> & Ht & Ha & Hl & Hs).
      exists m', rest. split; [done|].
      unfold whole_text in *. simpl in *. rewrite Ht, <- app_assoc.
      split; [done|]. split; [done|]. split; [lia|set_solver].
Qed.

Lemma merge_loop_alternating parts :
  forall language merged,
    alternating ((language, merged) :: parts) ->
    merge_loop parts language merged [] = (language, merged) :: parts.
Proof.
  induction parts as [|[l t] parts IH]; intros language merged Ha; [done|].
  rewrite merge_loop_cons. destruct Ha as [Hne Ha]. simpl in Hne.
  rewrite bool_decide_eq_true_2 by done. simpl. by rewrite IH.
Qed.

End MergeFacts.

(** ** Setters and the constructor *)

Section SetterFacts.
Import Config.

Lemma same_config_files pf pf' :
  same_config pf pf' -> files_of pf' = files_of pf.
Proof.
  intros (Hd & _ & _ & _ & _ & _ & _ & Hl). unfold files_of. by rewrite Hd, Hl.
Qed.

Lemma same_config_base pf pf' l :
  same_config pf pf' -> base_dictionary pf' l = base_dictionary pf l.
Proof.
  intros (Hd & _ & _ & _ & _ & _ & _ & Hl). unfold base_dictionary.
  by rewrite Hd, Hl.
Qed.

Lemma same_config_resolves pf pf' l w :
  same_config pf pf' -> resolves_to pf' l w <-> resolves_to pf l w.
Proof.
  intros Hs. unfold resolves_to. rewrite (same_config_base _ _ _ Hs).
  destruct Hs as (_ & _ & _ & _ & _ & -> & -> & ->). done.
Qed.

(** What a setter does once the field is stored. *)
Lemma clear_cache_after pf pf' :
  _cache_clearing_disabled pf = false ->
  clear_cache pf = Ok pf' ->
  files_of pf <> [] /\ same_config pf pf' /\
  _censored_words pf' = ∅ /\ _words_with_no_profanity_inside pf' = ∅ /\
  forall l w, w ∈ dict_get (profane_word_dictionaries pf') l
              <-> resolves_to pf l w.
Proof.
  intros Hd E.
  destruct (clear_cache_cases pf Hd) as [[_ E']|(Hf & pf'' & E' & H)];
    rewrite E' in E; [done|]. injection E as <-. by split.
Qed.

Lemma restore_eq pf :
  _cache_clearing_disabled pf = false ->
  (files_of pf = [] /\
   restore_profane_word_dictionaries pf = Raise ProfanityFilterError)
  \/ (exists pf',
        restore_profane_word_dictionaries pf = Ok pf' /\
        _custom_profane_word_dictionaries pf' = ∅ /\
        _extra_profane_word_dictionaries pf' = ∅ /\
        _censored_words pf' = ∅ /\ _words_with_no_profanity_inside pf' = ∅ /\
        forall l w, w ∈ dict_get (profane_word_dictionaries pf') l
                    <-> w ∈ base_dictionary pf l).
Proof.
  intros Hd. unfold restore_profane_word_dictionaries,
    set_custom_profane_word_dictionaries, set_extra_profane_word_dictionaries.
  simpl acceptable.
  destruct (clear_cache_cases (set_custom_field ∅ pf) Hd)
    as [[Hf E]|(Hf & pf1 & E & Hs & _)]; rewrite E.
  - left. done.
  - right. rewrite bind_Ok.
    assert (_cache_clearing_disabled (set_extra_field ∅ pf1) = false) as Hd1.
    { destruct Hs as (_ & _ & Hx & _). simpl in *. congruence. }
    destruct (clear_cache_cases (set_extra_field ∅ pf1) Hd1)
      as [[Hf1 _]|(_ & pf2 & E2 & Hs2 & Hc & Hn & Hr)].
    { change (files_of (set_extra_field ∅ pf1)) with (files_of pf1) in Hf1.
      rewrite (same_config_files _ _ Hs) in Hf1. done. }
    exists pf2. split; [done|].
    destruct Hs as (Hdd & _ & _ & _ & _ & Hcu & _ & Hla).
    pose proof Hs2 as (_ & _ & _ & _ & _ & Hcu2 & Hex2 & _).
    simpl in *. split; [congruence|]. split; [done|]. split; [done|].
    split; [done|]. intros l w. rewrite Hr. unfold resolves_to. simpl.
    rewrite Hcu. rewrite bool_decide_eq_false_2 by (intros ?; done).
    unfold base_dictionary. simpl. rewrite Hdd, Hla. simpl.
    unfold dict_get. rewrite lookup_empty. simpl.
    split; [intros [?|[_ ?%elem_of_nil]]; done|by left].
Qed.

End SetterFacts.

Lemma init_files dd m languages analyses cc whole custom extra nlps :
  let pf0 := set_cache_clearing_disabled false
               (configured m languages analyses cc whole custom extra nlps
                  (set_cache_clearing_disabled true
                     (mkPF dd [] false [] false ∅ ∅ [] ∅ [] ∅ ∅ ∅ ∅))) in
  files_of pf0 <> [] <-> exists l, l ∈ languages /\ is_Some (dd l).
Proof.
  intros pf0. split.
  - destruct (files_of pf0) as [|[l lines] r] eqn:Ef; [done|]. intros _.
    assert ((l, lines) ∈ files_of pf0) as Hin by (rewrite Ef; left).
    apply elem_of_files_of in Hin as [Hl Hdd]. simpl in Hl, Hdd.
    rewrite elem_of_of_iter in Hl. exists l. split; [done|]. by exists lines.
  - intros (l & Hl & [x Hx]) Hf.
    assert ((l, x) ∈ files_of pf0) as Hin.
    { apply elem_of_files_of. simpl. by rewrite elem_of_of_iter. }
    rewrite Hf in Hin. by apply elem_of_nil in Hin.
Qed.

Lemma clear_cache_eq pf :
  _cache_clearing_disabled pf = false ->
  Config.clear_cache pf
  = match files_of pf with
    | [] => Raise ProfanityFilterError
    | _ => Ok (cleared pf)
    end.
Proof.
  intros Hd. unfold Config.clear_cache. rewrite Hd, update_files_eq.
  destruct (files_of pf) as [|f fs] eqn:Hf; [done|]. rewrite bind_Ok.
  unfold Config._update_profane_word_dictionaries,
    Config.compute_profane_word_dictionaries,
    Config._load_profane_word_dictionaries.
  change (_cache_clearing_disabled (set_files_field _ pf))
    with (_cache_clearing_disabled pf). rewrite Hd.
  change (_custom_profane_word_dictionaries (set_files_field _ pf))
    with (_custom_profane_word_dictionaries pf).
  unfold cleared, resolved. rewrite Hf.
  destruct (bool_decide (_custom_profane_word_dictionaries pf ≠ ∅)).
  - rewrite !bind_Ok. destruct pf. reflexivity.
  - rewrite update_files_eq, files_of_set_files, Hf, !bind_Ok.
    destruct pf. reflexivity.
Qed.

Lemma cleared_cleared pf : cleared (cleared pf) = cleared pf.
Proof.
  unfold cleared, resolved.
  destruct pf as [dd an dis cc ww cu ex la nl fi cw nw cd pd].
  cbn -[foldl OrderedSet.intersection elements dom bool_decide].
  unfold files_of.
  cbn -[foldl OrderedSet.intersection elements dom bool_decide omap].
  destruct (bool_decide (cu ≠ ∅)); reflexivity.
Qed.

(** No pipeline was given and none could be loaded. *)
Lemma no_pipeline m languages nlps :
  nlps = None /\ pipelines m languages nlps = ∅
  <-> nlps = None /\ forall l, l ∈ languages -> m l = false.
Proof.
  split; intros [-> H]; (split; [done|]); simpl in *.
  - intros l Hl. eapply load_models_empty; [exact H|].
    by rewrite elem_of_of_iter.
  - apply load_models_empty. intros l Hl. rewrite elem_of_of_iter in Hl.
    by apply H.
Qed.

(** ** Ordered sets *)

Section NoDupFacts.
Context {A : Type} `{EqDecision A}.

Lemma NoDup_add (x : A) o : NoDup o -> NoDup (OrderedSet.add x o).
Proof.
  intros H. unfold OrderedSet.add. case_bool_decide as Hx; [done|].
  apply NoDup_app. split; [done|]. split; [|apply NoDup_singleton].
  intros y Hy ->%list_elem_of_singleton. done.
Qed.

Lemma NoDup_union (o other : list A) :
  NoDup o -> NoDup (OrderedSet.union o other).
Proof.
  unfold OrderedSet.union. revert o.
  induction other as [|x other IH]; intros o H; simpl; [done|].
  by apply IH, NoDup_add.
Qed.

Lemma NoDup_of_iter (l : list A) : NoDup (OrderedSet.of_iter l).
Proof. apply NoDup_union. constructor. Qed.

End NoDupFacts.

Section DictFacts.
Import Config.

Lemma sets_only_get d l : sets_only d -> NoDup (dict_get d l).
Proof.
  intros H. unfold dict_get. destruct (d !! l) eqn:E; simpl; [by eapply H|].
  constructor.
Qed.

Lemma sets_only_acceptable value : sets_only (acceptable value).
Proof.
  destruct value as [v|]; simpl; intros l words.
  - rewrite lookup_fmap. destruct (v !! l); simpl; [|done].
    intros [= <-]. apply NoDup_of_iter.
  - by rewrite lookup_empty.
Qed.

Lemma sets_only_loaded (files : list (Language * list str)) :
  forall d0, sets_only d0 ->
    sets_only (foldl (fun d f => <[f.1 := OrderedSet.of_iter f.2]> d) d0 files).
Proof.
  induction files as [|f files IH]; intros d0 H; simpl; [done|].
  apply IH. intros l words. rewrite lookup_insert. case_decide.
  - intros [= <-]. apply NoDup_of_iter.
  - apply H.
Qed.

Lemma sets_only_extra (e : ProfaneWordDictionaries) (ls : list Language) :
  forall r0, sets_only r0 ->
    sets_only (foldl (fun r l => <[l := OrderedSet.union (dict_get r l)
                                          (dict_get e l)]> r) r0 ls).
Proof.
  induction ls as [|l0 ls IH]; intros r0 H; simpl; [done|].
  apply IH. intros l words. rewrite lookup_insert. case_decide.
  - intros [= <-]. by apply NoDup_union, sets_only_get.
  - apply H.
Qed.

Lemma clear_cache_sets_only pf pf' :
  _cache_clearing_disabled pf = false ->
  sets_only (_custom_profane_word_dictionaries pf) ->
  clear_cache pf = Ok pf' ->
  sets_only (profane_word_dictionaries pf').
Proof.
  intros Hd Hcu. unfold clear_cache. rewrite Hd.
  rewrite update_files_eq.
  destruct (files_of pf) as [|f fs] eqn:Hf; [done|]. rewrite bind_Ok.
  unfold _update_profane_word_dictionaries,
    compute_profane_word_dictionaries, _load_profane_word_dictionaries.
  rewrite !update_files_eq.
  destruct pf as [dd an dis cc ww cu ex la nl fi cw nw cd pd].
  simpl in Hd, Hcu. subst dis. unfold files_of in *. simpl in *. rewrite !Hf.
  destruct (bool_decide (cu ≠ ∅)) eqn:Hc.
  - rewrite !bind_Ok. simpl. intros [= <-]. simpl.
    by apply sets_only_extra.
  - rewrite !bind_Ok. simpl. intros [= <-]. simpl.
    apply sets_only_extra.
    apply (sets_only_loaded (f :: fs)). intros l words. by rewrite lookup_empty.
Qed.

End DictFacts.

(** * The claims *)

(** ** C1: partial masking *)

(** C1. With [censor_whole_words=False], [censor_word("fuck")] on the
    English dictionary does not return a word: [_censor_word_part] reads its
    local [censored] before any assignment. *)
Theorem partial_masking_raises :
  Config.init Ex.english Ex.installed ["en"%string]
    [DEEP; MORPHOLOGICAL; MULTILINGUAL] (s "*") false None None None
  = Ok Ex.partial /\
  _censor_whole_words Ex.partial = false /\
  _censor_word_part Ex.partial (Some "en"%string)
    (_make_spacy_token Ex.lower_lemma (Some "en"%string) (s "fuck"))
  = Raise UnboundLocalError /\
  censor_word Ex.lower_lemma Ex.partial (s "fuck") (Some "en"%string)
  = Raise UnboundLocalError.
Proof. split_and!; vm_compute; reflexivity. Qed.

(** ** C2: the length of the censored text *)

(** C2. For every token, in a state [pf_ok], the word [_censor_word]
    returns has a censored text as long as the token: the token itself,
    or the censor character repeated to its length. *)
Theorem censored_length_preserved (spacy_lemma : option Language -> str -> str)
    pf language word w pf' :
  pf_ok pf ->
  _censor_word spacy_lemma pf language word = Ok (w, pf') ->
  length (censored w) = length (text word) /\
  uncensored w = text word /\
  (censored w = text word \/
   censored w = str_mul (length (text word)) (_censor_char pf)).
Proof.
  intros Hok. unfold _censor_word.
  pose proof (run_cases spacy_lemma pf language word _ Hok
                (Nat.lt_succ_diag_r _)) as H.
  destruct (_censor_word_run _ _ _ _ _) as [r| |]; [|done..].
  rewrite bind_Ok. intros [= <- <-].
  inversion H; subst; simpl; try (split; [done|split; [done|by left]]).
  split; [|split; [done|by right]].
  apply length_str_mul, Hok.
Qed.

(** An instance: "fuck" on the English dictionary becomes "****". *)
Lemma censored_length_preserved_witness :
  let word := _make_spacy_token Ex.lower_lemma (Some "en"%string) (s "fuck") in
  let w := mkWord (s "fuck") (s "****") (Some (s "fuck")) in
  length (censored w) = length (text word) /\
  uncensored w = text word /\
  (censored w = text word \/
   censored w = str_mul (length (text word)) (_censor_char Ex.whole)).
Proof.
  intros word w.
  apply (censored_length_preserved Ex.lower_lemma Ex.whole (Some "en"%string)
           word w (_save_censored_word Ex.whole w)).
  - apply fresh_ok; vm_compute; reflexivity.
  - vm_compute. reflexivity.
Defined.

(** ** C3: spans suppressed by the consumer *)

(** C3 (as amended). After the consumer suppresses an interval, no span
    lying inside it is handed out for the rest of the enumeration, whatever
    the consumer replies later.  A [send] stores the interval it names,
    passes over the pending spans that lie inside a stored interval, and
    hands out the first that lies inside none; it ends the enumeration
    only when every pending span lies inside a stored interval.  So a
    pending span that lies inside no interval the consumer names, one that
    merely overlaps such an interval included, is handed out if the
    consumer goes on to the end. *)
Theorem suppressed_spans_are_the_enclosed_ones (g : DropGen) (a b : nat) :
  (forall replies,
     Forall (fun x => ~ inside x (a, b))
            (drive replies (gen_send g (Some a, Some b)))) /\
  (forall drop,
     match gen_send g drop with
     | Some (x, g') =>
         (forall d, d ∈ drop_intervals g' <-> stored_after g drop d) /\
         exists skipped,
           pending g = skipped ++ x :: pending g' /\
           (forall d, stored_after g drop d -> ~ inside x d) /\
           Forall (fun y => exists d, stored_after g drop d /\ inside y d)
                  skipped
     | None =>
         Forall (fun y => exists d, stored_after g drop d /\ inside y d)
                (pending g)
     end) /\
  (forall replies x,
     length (pending g) <= S (length replies) ->
     x ∈ pending g ->
     (forall d, stored_after g (Some a, Some b) d -> ~ inside x d) ->
     (forall c e, (Some c, Some e) ∈ replies -> ~ inside x (c, e)) ->
     x ∈ drive replies (gen_send g (Some a, Some b))).
Proof.
  split; [|split].
  - intros replies. unfold gen_send. apply drive_avoids. set_solver.
  - intros drop. unfold gen_send. cbv zeta.
    pose proof (stored_after_spec g drop) as Hst.
    match goal with |- context [resume ?i _] => set (iv := i) in * end.
    destruct (resume iv (pending g)) as [[x g']|] eqn:E.
    + apply resume_some in E as (skipped & -> & -> & Hx & Hs).
      split; [exact Hst|].
      exists skipped. split; [done|]. split.
      * intros d Hd%Hst. revert d Hd. by apply not_dropped_true.
      * eapply Forall_impl; [exact Hs|]. intros y Hy.
        apply not_dropped_false in Hy as (d & Hd & Hin).
        exists d. split; [by apply Hst|done].
    + apply resume_none in E. eapply Forall_impl; [exact E|].
      intros y (d & Hd & Hin)%not_dropped_false.
      exists d. split; [by apply Hst|done].
  - intros replies x Hlen Hx Hst Hr. unfold gen_send.
    apply drive_yields; [done|done| |done].
    intros d Hd. apply Hst.
    by apply (stored_after_spec g (Some a, Some b)).
Qed.

(** C3, as stated, fails: in the enumeration of "abc", after the span
    (0, 2) is suppressed the span (1, 3), which overlaps it, is still
    handed out. *)
Lemma overlapping_span_still_yielded :
  let spans :=
    drive [(None, None); (Some 0, Some 2); (None, None)]
          (gen_next (_drop_substrings (substrings_indexes (s "abc") true))) in
  spans = [(s "abc", 0, 3); (s "ab", 0, 2); (s "bc", 1, 3); (s "c", 2, 3)] /\
  overlaps (s "bc", 1, 3) (0, 2) /\
  ~ (forall g a b replies,
       Forall (fun x => ~ overlaps x (a, b))
              (drive replies (gen_send g (Some a, Some b)))).
Proof.
  intros spans.
  split; [vm_compute; reflexivity|].
  split; [unfold overlaps, sub_start, sub_finish; simpl; lia|].
  intros H.
  specialize (H (mkDropGen [(s "bc", 1, 3)] ∅) 0 2 []).
  assert (drive [] (gen_send (mkDropGen [(s "bc", 1, 3)] ∅) (Some 0, Some 2))
          = [(s "bc", 1, 3)]) as E by (vm_compute; reflexivity).
  rewrite E in H. apply Forall_cons in H as [H _]. apply H.
  unfold overlaps, sub_start, sub_finish; simpl; lia.
Qed.

(** ** C4: dictionary resolution *)

(** C4 (as amended). After [clear_cache], a word is in the resolved
    dictionary of a language exactly when it is in that language's entry of
    the custom dictionaries, if the custom mapping has any entry at all, or
    else in the dictionary loaded from the language's word file; or when the
    language is configured and the word is in its extra dictionary. *)
Theorem resolution_switches_on_the_whole_custom_mapping pf pf' :
  _cache_clearing_disabled pf = false ->
  Config.clear_cache pf = Ok pf' ->
  forall language w,
    w ∈ dict_get (profane_word_dictionaries pf') language
    <-> resolves_to pf language w.
Proof.
  intros Hd E.
  destruct (clear_cache_cases pf Hd) as [[_ E']|(_ & pf'' & E' & _ & _ & _ & H)];
    rewrite E' in E; [done|].
  by injection E as <-.
Qed.

(** An instance: the custom word "foo" of "ru". *)
Lemma resolution_switches_on_the_whole_custom_mapping_witness :
  s "foo" ∈ dict_get (profane_word_dictionaries ExDict.custom_ru) "ru"
  <-> resolves_to ExDict.custom_ru "ru" (s "foo").
Proof.
  apply (resolution_switches_on_the_whole_custom_mapping
           ExDict.custom_ru ExDict.custom_ru).
  - vm_compute. reflexivity.
  - vm_compute. reflexivity.
Defined.

(** C4, as stated, fails: "en" has no custom dictionary and a word file
    with "fuck", yet its resolved dictionary is empty, because "ru" has a
    custom dictionary. *)
Lemma custom_for_one_language_hides_the_others :
  Config.init ExDict.two_files Ex.installed ["en"%string; "ru"%string] []
    (s "*") true (Some {[ "ru"%string := [s "foo"] ]}) None None
  = Ok ExDict.custom_ru /\
  dict_get (_custom_profane_word_dictionaries ExDict.custom_ru) "en" = [] /\
  base_dictionary ExDict.custom_ru "en" = [s "fuck"] /\
  dict_get (profane_word_dictionaries ExDict.custom_ru) "en" = [] /\
  dict_get (profane_word_dictionaries ExDict.custom_ru) "ru" = [s "foo"].
Proof. split_and!; vm_compute; reflexivity. Qed.

(** ** C5: words with no match *)

(** C5 (as amended). In a state [pf_ok], [_censor_word] never adds to the
    known-clean cache, and when the censored text equals the input
    the filter is left exactly as it was; a word that is not cached and
    has no normalized form in the dictionary is returned unchanged. *)
Theorem unmatched_word_not_recorded (spacy_lemma : option Language -> str -> str)
    pf language word :
  pf_ok pf ->
  (forall w pf',
     _censor_word spacy_lemma pf language word = Ok (w, pf') ->
     _words_with_no_profanity_inside pf'
     = _words_with_no_profanity_inside pf /\
     (censored w = text word -> pf' = pf)) /\
  (_censored_words pf !! text word = None ->
   has_profane_lemma pf language (_make_spacy_token spacy_lemma language (text word)) = false ->
   _censor_word spacy_lemma pf language word
   = Ok (mkWord (text word) (text word) None, pf)).
Proof.
  intros Hok. unfold _censor_word.
  pose proof (run_cases spacy_lemma pf language word _ Hok
                (Nat.lt_succ_diag_r _)) as H.
  split.
  - intros w pf'.
    destruct (_censor_word_run _ _ _ _ _) as [r| |]; [|done..].
    rewrite bind_Ok. intros [= <- <-].
    inversion H as [| |opw Hne Hfc|]; subst; simpl; try done.
    split; [done|]. intros E. exfalso.
    by apply (mask_not_self pf (text word)); [apply Hok|..].
  - intros Hc Hp.
    inversion H as [Hn E|Hne Hfc Hk E|opw Hne Hfc Hk Hm E|Hne Hfc Hk Hc' Hw Hp' E];
      try done.
    + destruct Hm as [(w & Hw & _)|(_ & _ & lemma & Hl & Hpl & _)];
        [congruence|].
      exfalso. unfold has_profane_lemma in Hp.
      apply not_true_iff_false in Hp. apply Hp.
      apply existsb_exists. exists lemma. split; [|done].
      by apply list_elem_of_In.
    + congruence.
Qed.

(** An instance: "hello" on the English dictionary. *)
Lemma unmatched_word_not_recorded_witness :
  let word := _make_spacy_token Ex.lower_lemma (Some "en"%string) (s "hello") in
  _censor_word Ex.lower_lemma Ex.whole (Some "en"%string) word
  = Ok (mkWord (s "hello") (s "hello") None, Ex.whole).
Proof.
  intros word.
  apply (unmatched_word_not_recorded Ex.lower_lemma Ex.whole (Some "en"%string) word).
  - apply fresh_ok; vm_compute; reflexivity.
  - vm_compute. reflexivity.
  - vm_compute. reflexivity.
Defined.

(** C5, as stated, fails: "hello" matches nothing and is returned
    unchanged, and the empty word is not even a dictionary word for the
    spell checker, yet the known-clean set is empty afterwards. *)
Lemma clean_words_are_not_recorded :
  _censor_word Ex.lower_lemma Ex.whole (Some "en"%string)
    (_make_spacy_token Ex.lower_lemma (Some "en"%string) (s "hello"))
  = Ok (mkWord (s "hello") (s "hello") None, Ex.whole) /\
  _is_dictionary_word Ex.whole (Some "en"%string) [] = false /\
  _censor_word Ex.lower_lemma Ex.whole (Some "en"%string)
    (_make_spacy_token Ex.lower_lemma (Some "en"%string) [])
  = Ok (mkWord [] [] None, Ex.whole) /\
  _words_with_no_profanity_inside Ex.whole = ∅.
Proof. split_and!; vm_compute; reflexivity. Qed.

(** ** C6: the known-clean fast path *)

(** C6. When a normalized form of the word is in the known-clean set,
    [_censor_word_part] returns the word unchanged with the flag set and
    leaves the filter as it was; the dictionaries are not consulted: the
    result is the same whatever they hold. *)
Theorem known_clean_fast_path pf language word lemma :
  lemma ∈ _lemmas pf language word ->
  lemma ∈ _get_words_with_no_profanity_inside pf ->
  _censor_word_part pf language word
  = Ok (mkWord (text word) (text word) None, true, pf) /\
  forall dictionaries,
    let pf' := set_profane_word_dictionaries dictionaries pf in
    _censor_word_part pf' language word
    = Ok (mkWord (text word) (text word) None, true, pf').
Proof.
  intros Hl Hc.
  assert (forall pf', _lemmas pf' language word = _lemmas pf language word ->
            _words_with_no_profanity_inside pf'
            = _words_with_no_profanity_inside pf ->
            _censor_word_part pf' language word
            = Ok (mkWord (text word) (text word) None, true, pf')) as H.
  { intros pf' El Ec. unfold _censor_word_part.
    assert (_has_no_profanity pf' (_lemmas pf' language word) = true) as ->;
      [|done].
    unfold _has_no_profanity, _get_words_with_no_profanity_inside.
    rewrite El, Ec. apply existsb_exists. exists lemma.
    split; [by apply list_elem_of_In|].
    apply existsb_exists. exists lemma. split; [|apply str_in_refl].
    apply list_elem_of_In, elem_of_elements. exact Hc. }
  split; [apply H; reflexivity|].
  intros dictionaries pf'. apply H; reflexivity.
Qed.

(** An instance: with "fuck" in the known-clean set, the word "fuck" comes
    back unchanged although the English dictionary lists it. *)
Lemma known_clean_fast_path_witness :
  let pf := set_words_with_no_profanity_inside {[ s "fuck" ]} Ex.whole in
  let word := _make_spacy_token Ex.lower_lemma (Some "en"%string) (s "fuck") in
  _is_profane_word pf (Some "en"%string) (s "fuck") = true /\
  _censor_word_part pf (Some "en"%string) word
  = Ok (mkWord (s "fuck") (s "fuck") None, true, pf).
Proof.
  intros pf word. split; [vm_compute; reflexivity|].
  refine (proj1 (known_clean_fast_path pf (Some "en"%string) word
                   (s "fuck") _ _)).
  - apply (bool_decide_unpack _). vm_compute. exact I.
  - apply (bool_decide_unpack _). vm_compute. exact I.
Defined.

(** ** C7: censoring twice *)

(** C7 (as amended). When every token of the censored text is a run of
    the censor character or the text of a token that the first call did
    not find profane, censoring the censored text returns it unchanged
    and leaves the filter as the first call left it. *)
Theorem censor_idempotent_on_stable_tokens (spacy_lemma : option Language -> str -> str)
    (spacy_tokens : Language -> str -> list (nat * str))
    pf text doc pf1 :
  pf_ok pf ->
  _parse spacy_lemma spacy_tokens pf "en_core_web_sm" text = Ok (doc, pf1) ->
  let out := replace_profane text doc in
  forallb (stable_token (_censor_char pf) doc)
          (spacy_tokens "en_core_web_sm" out) = true ->
  censor spacy_lemma spacy_tokens pf text = Ok (out, pf1) /\
  censor spacy_lemma spacy_tokens pf1 out = Ok (out, pf1).
Proof.
  intros Hok E out Hst. rewrite !censor_eq, E, bind_Ok. split; [done|].
  unfold _parse in *.
  destruct (censor_tokens_spec _ _ _ _ _ _ Hok E) as (Hok1 & Hs & _ & Hdoc).
  assert (Forall (fun it => left_alone spacy_lemma pf1
                              (Some "en_core_web_sm"%string) it.2 = true)
                 (spacy_tokens "en_core_web_sm"%string out)) as Hall.
  { apply Forall_forall. intros it Hit.
    rewrite forallb_forall in Hst. specialize (Hst it).
    rewrite <- list_elem_of_In in Hst. specialize (Hst Hit).
    unfold stable_token in Hst. apply orb_true_iff in Hst as [Hfc|Hex].
    - unfold left_alone. destruct Hs as [m ->]. simpl.
      change (_censor_char (set_censored_words m pf)) with (_censor_char pf).
      rewrite Hfc. by rewrite orb_true_r.
    - apply existsb_exists in Hex as (d & Hd & Hdd).
      apply andb_true_iff in Hdd as [Ht Hp].
      apply bool_decide_eq_true in Ht. apply negb_true_iff in Hp.
      rewrite <- Ht. rewrite Forall_forall in Hdoc. apply Hdoc; [|done].
      by apply list_elem_of_In. }
  rewrite (censor_tokens_left_alone spacy_lemma spacy_tokens _ _ _ Hok1 Hall).
  rewrite bind_Ok.
  simpl. rewrite replace_profane_none; [done|].
  apply Forall_fmap, Forall_true. done.
Qed.

(** An instance: "Fuck you, ass!" with the censor character "*". *)
Lemma censor_idempotent_on_stable_tokens_witness :
  let out := replace_profane ExText.insult ExText.insult_doc in
  censor Ex.lower_lemma ExText.simple_tokens ExText.star_mask ExText.insult = Ok (out, ExText.insult_filter) /\
  censor Ex.lower_lemma ExText.simple_tokens ExText.insult_filter out = Ok (out, ExText.insult_filter).
Proof.
  apply (censor_idempotent_on_stable_tokens Ex.lower_lemma ExText.simple_tokens
           ExText.star_mask ExText.insult ExText.insult_doc ExText.insult_filter).
  - apply fresh_ok; vm_compute; reflexivity.
  - vm_compute. reflexivity.
  - vm_compute. reflexivity.
Defined.

(** C7, as stated, fails when masking changes how the text is cut into
    tokens: with the censor character "a" and the dictionary {"-", "bac"},
    "b-c" is censored to "bac", and "bac" to "aaa". *)
Lemma censoring_twice_differs :
  censor Ex.lower_lemma ExText.simple_tokens ExText.letter_mask (s "b-c")
  = Ok (s "bac", ExText.letter_mask_1) /\
  censor Ex.lower_lemma ExText.simple_tokens ExText.letter_mask_1 (s "bac")
  = Ok (s "aaa", ExText.letter_mask_2).
Proof. split; vm_compute; reflexivity. Qed.

(** ** C8: termination *)



(** ** C9: the configuration error *)

(** C9 (as amended). [clear_cache] raises [ProfanityFilterError] exactly
    when no configured language has a word file in the data directory.
    [__init__] raises it exactly when the censor character is one character
    long and either no pipeline is given and the model of no language
    loads, or no language has a word file.  The custom and extra
    dictionaries play no part. *)
Theorem configuration_fails_iff_no_word_file pf :
  _cache_clearing_disabled pf = false ->
  (Config.clear_cache pf = Raise ProfanityFilterError
   <-> forall l, l ∈ _languages pf -> _DATA_DIR pf l = None) /\
  (forall spacy_load languages analyses cc whole custom extra nlps,
     Config.init (_DATA_DIR pf) spacy_load languages analyses cc whole
       custom extra nlps
     = Raise ProfanityFilterError
     <-> length cc = 1 /\
         ((nlps = None /\ forall l, l ∈ languages -> spacy_load l = false)
          \/ forall l, l ∈ languages -> _DATA_DIR pf l = None)).
Proof.
  intros Hd. split.
  - rewrite <- files_of_nil.
    destruct (clear_cache_cases pf Hd) as [[Hf E]|(Hf & pf' & E & _)];
      rewrite E; [done|]. split; [done|]. intros Hf'. by rewrite Hf' in Hf.
  - intros m languages analyses cc whole custom extra nlps. rewrite init_eq.
    case_bool_decide as Hc.
    { split; [done|]. intros [? _]. done. }
    assert (length cc = 1) as Hc'
      by (destruct (decide (length cc = 1)); [done|by destruct Hc]).
    case_bool_decide as Hn.
    { split; [|done]. intros _. split; [done|]. left.
      by apply no_pipeline. }
    match goal with
    | |- Config.clear_cache ?p = _ <-> _ =>
        destruct (clear_cache_cases p eq_refl) as [[Hf E]|(Hf & pf' & E & _)];
          rewrite E; rewrite files_of_nil in Hf
    end.
    + split; [|done]. intros _. split; [done|]. right.
      intros l Hl. apply (Hf l). by apply elem_of_of_iter.
    + split; [done|]. intros [_ [Hm|Hn']]; exfalso.
      * by apply Hn, no_pipeline.
      * apply Hf. intros l Hl. apply Hn'. apply elem_of_of_iter. exact Hl.
Qed.

(** An instance: the English filter. *)
Lemma configuration_fails_iff_no_word_file_witness :
  Config.clear_cache Ex.whole = Raise ProfanityFilterError
  <-> forall l, l ∈ _languages Ex.whole -> _DATA_DIR Ex.whole l = None.
Proof.
  apply (configuration_fails_iff_no_word_file Ex.whole).
  vm_compute. reflexivity.
Defined.

(** C9, as stated, fails: a non-empty custom dictionary for the only
    configured language does not keep [__init__] from raising when the
    language has no word file, whether its model is loaded or its pipeline
    is given. *)
Lemma custom_dictionary_does_not_avert_the_error :
  Config.init Ex.no_files Ex.installed ["xx"%string] [] (s "*") true
    (Some {[ "xx"%string := [s "foo"] ]}) None None
  = Raise ProfanityFilterError /\
  Config.init Ex.no_files Ex.nothing_installed ["xx"%string] [] (s "*") true
    (Some {[ "xx"%string := [s "foo"] ]}) None (Some {[ "xx"%string ]})
  = Raise ProfanityFilterError.
Proof. split; vm_compute; reflexivity. Qed.

(** ** C10: deep analysis *)

(** C10. Whatever collection the [analyses] setter receives, the
    analyses it leaves are empty; then every pass of [_censor_word] hands
    one span at most to [_censor_word_part], the whole of the current
    text (the token itself in the first pass), and the known-clean set
    stays as it was. *)
Theorem deep_analysis_never_active (spacy_lemma : option Language -> str -> str)
    pf value pf' :
  Config.set_analyses value pf = Ok pf' ->
  _analyses pf' = [] /\
  forall fuel language word r,
    _censor_word_run spacy_lemma fuel pf' language word = Ok r ->
    Forall one_whole_span (run_tested r) /\
    (forall l, head (run_tested r) = Some l ->
               l = [] \/ l = [whole_span (text word)]) /\
    _words_with_no_profanity_inside (run_pf r)
    = _words_with_no_profanity_inside pf'.
Proof.
  intros E.
  assert (_analyses pf' = []) as Ha.
  { unfold Config.set_analyses in E.
    match type of E with Config.clear_cache ?p = _ => set (p0 := p) in * end.
    destruct (_cache_clearing_disabled p0) eqn:Hd.
    - rewrite clear_cache_disabled in E by done. by injection E as <-.
    - destruct (clear_cache_cases p0 Hd)
        as [[_ E']|(_ & pf'' & E' & Hs & _)]; rewrite E' in E; [done|].
      injection E as <-. destruct Hs as (_ & -> & _). done. }
  split; [done|]. intros fuel language word r Hr.
  apply run_no_deep in Hr as (Hs & Ht & _ & Hh); [|rewrite Ha; set_solver].
  split; [done|]. split; [done|]. by apply same_but_cache_clean.
Qed.

(** An instance: the English filter asked for deep analysis, on "fuck". *)
Lemma deep_analysis_never_active_witness :
  _analyses Ex.whole = [] /\
  Forall one_whole_span [[whole_span (s "fuck")]; []].
Proof.
  destruct (deep_analysis_never_active Ex.lower_lemma Ex.whole [DEEP] Ex.whole)
    as [Ha Hr]; [vm_compute; reflexivity|].
  split; [exact Ha|].
  pose (w := mkWord (s "fuck") (s "****") (Some (s "fuck"))).
  refine (proj1 (Hr 5 (Some "en"%string)
            (_make_spacy_token Ex.lower_lemma (Some "en"%string) (s "fuck"))
            (mkRun w (_save_censored_word Ex.whole w) 2
                   [[whole_span (s "fuck")]; []]) _)).
  vm_compute. reflexivity.
Defined.

(** * Further properties of the code *)

(** ** The candidate spans *)

(** X1. The spans [_censor_word] draws for a text [t], after
    [_drop_fully_censored_words]: they are exactly the non-empty slices
    [t[start:finish]] that hold a character other than the censor
    character, each listed once, longer ones first and those of one length
    from left to right; a text of [n] characters has at most [n(n+1)/2]. *)
Theorem candidate_spans_characterised pf (t : str) :
  let spans := _drop_fully_censored_words pf (substrings_indexes t true) in
  (forall x, x ∈ spans <->
     sub_start x < sub_finish x /\ sub_finish x <= length t /\
     sub_word x = take (sub_finish x - sub_start x) (drop (sub_start x) t) /\
     fully_censored (_censor_char pf) (sub_word x) = false) /\
  NoDup spans /\
  StronglySorted span_before spans /\
  2 * length spans <= length t * (length t + 1).
Proof.
  intros spans. subst spans.
  unfold _drop_fully_censored_words, _drop_fully_censored_words_with.
  split; [|split; [|split]].
  - intros x. rewrite list_elem_of_filter, elem_of_substrings_indexes.
    destruct (fully_censored (_censor_char pf) (sub_word x)); simpl; naive_solver.
  - apply NoDup_filter, NoDup_substrings_indexes.
  - eapply StronglySorted_sublist; [apply sublist_filter|].
    apply substrings_indexes_sorted.
  - rewrite <- (length_substrings_indexes t true).
    apply Nat.mul_le_mono_l, length_filter.
Qed.

(** X2. As long as no reply names a complete interval (one of its ends
    is [None]), [_drop_substrings] hands out its input as it is, span by
    span. *)
Theorem all_spans_without_intervals l replies :
  Forall no_interval replies ->
  length l <= S (length replies) ->
  drive replies (gen_next (_drop_substrings l)) = l.
Proof.
  unfold gen_next, _drop_substrings. simpl. intros Hr. revert l.
  induction Hr as [|d replies Hd Hr IH]; intros l Hl; rewrite resume_empty.
  - destruct l as [|x [|y l]]; simpl in *; [done|done|lia].
  - destruct l as [|x l]; [done|]. simpl.
    rewrite gen_send_no_interval by done. rewrite IH; [done|simpl in Hl; lia].
Qed.

(** An instance: the three spans of "ab" under three replies, none of them
    a complete interval. *)
Lemma all_spans_without_intervals_witness :
  drive [(None, None); (Some 0, None); (None, Some 1)]
        (gen_next (_drop_substrings (substrings_indexes (s "ab") true)))
  = substrings_indexes (s "ab") true.
Proof.
  apply all_spans_without_intervals.
  - repeat apply Forall_cons_2; [by left|by right|by left|constructor].
  - vm_compute. lia.
Defined.

(** X3. Whatever the consumer replies, the spans [_drop_substrings]
    hands out are spans of its input, in the order of the input, each
    position of the input used once at most. *)
Theorem yielded_spans_are_a_sublist l replies :
  drive replies (gen_next (_drop_substrings l)) `sublist_of` l.
Proof.
  unfold gen_next, _drop_substrings. simpl.
  generalize (∅ : gset (nat * nat)). revert l.
  induction replies as [|d replies IH]; intros l iv;
    (destruct (resume iv l) as [[x g]|] eqn:E; [|apply sublist_nil_l]);
    apply resume_some in E as (sk & -> & _); simpl;
    apply sublist_inserts_l, sublist_skip.
  - apply sublist_nil_l.
  - apply IH.
Qed.

(** ** Normalized forms and the tests on them *)

(** X4. The normalized forms of a token: none when its text is empty;
    otherwise the text first, then the lowered lemma (the lowered text when
    the lemma is the pronoun marker) unless it equals the text, and nothing
    else: the stems of the dummy spell checker and the normal form of the
    dummy morphological analyser are the text again, and neither the filter
    nor the language plays a part. *)
Theorem lemmas_are_the_text_and_the_lemma pf language word :
  (_lemmas pf language word = [] <-> text word = []) /\
  (text word <> [] -> head (_lemmas pf language word) = Some (text word)) /\
  NoDup (_lemmas pf language word) /\
  (forall l, l ∈ _lemmas pf language word <->
             text word <> [] /\ (l = text word \/ l = lowered_lemma word)) /\
  (forall pf' language',
     _lemmas pf' language' word = _lemmas pf language word).
Proof.
  split_and!.
  - rewrite lemmas_eq. destruct (text word) as [|c t]; [done|].
    unfold OrderedSet.add. case_bool_decide; split; done.
  - rewrite lemmas_eq. destruct (text word) as [|c t]; [done|]. intros _.
    unfold OrderedSet.add. by case_bool_decide.
  - rewrite lemmas_eq. destruct (text word) as [|c t]; [constructor|].
    unfold OrderedSet.add. case_bool_decide as H.
    + apply NoDup_singleton.
    + apply NoDup_app. split_and!; [apply NoDup_singleton| |apply NoDup_singleton].
      intros x Hx Hx'. apply list_elem_of_singleton in Hx'. by subst.
  - intros l. rewrite lemmas_eq. destruct (text word) as [|c t].
    + split; [by intros ?%elem_of_nil|by intros [? _]].
    + rewrite elem_of_add, list_elem_of_singleton. naive_solver.
  - intros pf' language'. by rewrite !lemmas_eq.
Qed.

(** X5. [_is_dictionary_word] holds exactly of the non-empty words,
    except that it holds of no word when deep analysis is on and no
    language is given: then there is no spell checker to ask. *)
Theorem dictionary_word_iff_not_empty pf language word :
  _is_dictionary_word pf language word = true <->
  word <> [] /\ (DEEP ∉ _analyses pf \/ language <> None).
Proof.
  unfold _is_dictionary_word. rewrite get_spells_eq.
  case_bool_decide as H; simpl.
  - split; [done|]. intros [_ [?|?]]; naive_solver.
  - rewrite orb_false_r, bool_decide_eq_true. unfold spell.
    split; [|naive_solver]. intros Hw. split; [done|].
    destruct (decide (DEEP ∈ _analyses pf)); [|by left].
    right. intros ->. naive_solver.
Qed.

(** X6. [_has_no_profanity] is a containment test on strings: it holds
    exactly when one of the words occurs, as a run of consecutive
    characters, in some word of the known-clean set. *)
Theorem no_profanity_is_a_containment_test pf words :
  _has_no_profanity pf words = true <->
  exists word clean pre post,
    word ∈ words /\ clean ∈ _get_words_with_no_profanity_inside pf /\
    clean = pre ++ word ++ post.
Proof. apply has_no_profanity_spec. Qed.

(** X7. After [clear_cache], [_is_profane_word] holds for a language
    exactly of the words the language resolves to, and without a language
    exactly of the words some language resolves to. *)
Theorem profane_words_are_the_resolved_ones pf pf' :
  _cache_clearing_disabled pf = false ->
  Config.clear_cache pf = Ok pf' ->
  forall w,
    (forall language,
       _is_profane_word pf' (Some language) w = true
       <-> resolves_to pf language w) /\
    (_is_profane_word pf' None w = true
     <-> exists language, resolves_to pf language w).
Proof.
  intros Hd Hc w.
  destruct (clear_cache_cases pf Hd) as [[_ E]|(_ & pf'' & E & _ & _ & _ & Hr)];
    rewrite E in Hc; [done|]. injection Hc as ->.
  split.
  - intros language. rewrite is_profane_word_spec. apply Hr.
  - rewrite is_profane_word_spec. by setoid_rewrite Hr.
Qed.

(** An instance: the custom word "foo" in the filter with a custom dictionary
    for "ru". *)
Lemma profane_words_are_the_resolved_ones_witness :
  (forall language,
     _is_profane_word ExDict.custom_ru (Some language) (s "foo") = true
     <-> resolves_to ExDict.custom_ru language (s "foo")) /\
  (_is_profane_word ExDict.custom_ru None (s "foo") = true
   <-> exists language, resolves_to ExDict.custom_ru language (s "foo")).
Proof.
  apply (profane_words_are_the_resolved_ones ExDict.custom_ru ExDict.custom_ru).
  - vm_compute. reflexivity.
  - vm_compute. reflexivity.
Defined.

(** ** The two caches *)

(** X8. [_get_censored_word] after [_save_censored_word]: the saved
    word is found under its uncensored text and every other lookup is as
    before; the known-clean test and the dictionary test answer as
    before. *)
Theorem saved_word_is_found pf w :
  (forall word,
     _get_censored_word (_save_censored_word pf w) word
     = if bool_decide (text word = uncensored w) then Some w
       else _get_censored_word pf word) /\
  (forall words,
     _has_no_profanity (_save_censored_word pf w) words
     = _has_no_profanity pf words) /\
  (forall language word,
     _is_profane_word (_save_censored_word pf w) language word
     = _is_profane_word pf language word).
Proof.
  split_and!; [|done..].
  intros word. unfold _get_censored_word.
  change (_censored_words (_save_censored_word pf w))
    with (<[uncensored w := w]> (_censored_words pf)).
  case_bool_decide as H.
  - by rewrite H, lookup_insert_eq.
  - by rewrite lookup_insert_ne.
Qed.

(** X9. Once a word is recorded as known clean, every list of forms
    that holds a slice of the word tests as clean, and every list that
    tested as clean before still does. *)
Theorem spans_of_a_clean_word_test_clean pf word words :
  (forall i n,
     take n (drop i (text word)) ∈ words ->
     _has_no_profanity (_save_word_with_no_profanity_inside pf word) words
     = true) /\
  (_has_no_profanity pf words = true ->
   _has_no_profanity (_save_word_with_no_profanity_inside pf word) words
   = true).
Proof.
  split.
  - intros i n Hin. apply has_no_profanity_spec.
    exists (take n (drop i (text word))), (text word),
           (take i (text word)), (drop n (drop i (text word))).
    split; [done|]. split; [simpl; set_solver|].
    by rewrite !take_drop.
  - rewrite !has_no_profanity_spec.
    intros (w & cl & pre & post & Hw & Hcl & ->).
    exists w, (pre ++ w ++ post), pre, post. split; [done|].
    split; [simpl; set_solver|done].
Qed.

(** ** Censoring a word *)

(** X10. The mask of a word repeats the censor character once for each
    character of the word; when the censor character has length one, as the
    setter requires, the mask has the length of the word, consists of
    censor characters, and equals the word only if the word consists of
    censor characters already. *)
Theorem mask_shape pf (word : str) :
  length (_generate_fully_censored_word pf word)
  = length word * length (_censor_char pf) /\
  (length (_censor_char pf) = 1 ->
   fully_censored (_censor_char pf) (_generate_fully_censored_word pf word)
   = true /\
   (_generate_fully_censored_word pf word = word
    <-> fully_censored (_censor_char pf) word = true)).
Proof.
  unfold _generate_fully_censored_word. split.
  - unfold str_mul. rewrite length_join.
    induction (length word) as [|n IH]; [done|].
    change (replicate (S n) (_censor_char pf))
      with (_censor_char pf :: replicate n (_censor_char pf)).
    rewrite fmap_cons. change (sum_list (?x :: ?l)) with (x + sum_list l).
    rewrite IH. lia.
  - intros Hc. split; [by apply fully_censored_str_mul|].
    rewrite fully_censored_iff by done. split; congruence.
Qed.

(** X11. [_censor_word_part] raises exactly when whole-word masking is
    off and the word, neither known clean nor cached, has a normalized form
    in the dictionary; the exception is then [UnboundLocalError]. *)
Theorem part_raises_iff pf language word :
  _censor_word_part pf language word <> OutOfFuel /\
  forall e,
    _censor_word_part pf language word = Raise e <->
    e = UnboundLocalError /\
    _censor_whole_words pf = false /\
    _has_no_profanity pf (_lemmas pf language word) = false /\
    _get_censored_word pf word = None /\
    has_profane_lemma pf language word = true.
Proof.
  pose proof (part_cases pf language word) as H.
  split.
  - inversion H; congruence.
  - intros e. split.
    + intros E. rewrite E in H. by inversion H.
    + intros (-> & Hw & Hk & Hc & Hp). unfold _censor_word_part.
      rewrite Hk, Hc. by apply first_profane_lemma_raises.
Qed.

(** X12. When [_censor_word_part] returns a word with an
    [original_profane_word] for a token that is not cached, that form is
    the first normalized form, in the order of [_lemmas], the dictionary
    lists; the word is the token's text with its mask, and it is saved in
    the cache. *)
Theorem first_profane_form_is_recorded pf language word w b pf' lemma :
  _censor_word_part pf language word = Ok (w, b, pf') ->
  _get_censored_word pf word = None ->
  original_profane_word w = Some lemma ->
  exists before after,
    _lemmas pf language word = before ++ lemma :: after /\
    Forall (fun l => _is_profane_word pf language l = false) before /\
    _is_profane_word pf language lemma = true /\
    w = mkWord (text word) (_generate_fully_censored_word pf (text word))
               (Some lemma) /\
    pf' = _save_censored_word pf w.
Proof.
  unfold _censor_word_part. intros E Hc Ho.
  destruct (_has_no_profanity _ _).
  - injection E as <- <- <-. done.
  - rewrite Hc in E. by eapply first_profane_lemma_first.
Qed.

(** An instance: for "Fuck" the form recorded is "fuck", the second of its
    forms. *)
Lemma first_profane_form_is_recorded_witness :
  let word := _make_spacy_token Ex.lower_lemma (Some "en"%string) (s "Fuck") in
  let w := mkWord (s "Fuck") (s "****") (Some (s "fuck")) in
  exists before after,
    _lemmas Ex.whole (Some "en"%string) word = before ++ s "fuck" :: after /\
    Forall (fun l => _is_profane_word Ex.whole (Some "en"%string) l = false)
           before /\
    _is_profane_word Ex.whole (Some "en"%string) (s "fuck") = true /\
    w = mkWord (text word)
               (_generate_fully_censored_word Ex.whole (text word))
               (Some (s "fuck")) /\
    _save_censored_word Ex.whole w = _save_censored_word Ex.whole w.
Proof.
  intros word w.
  apply (first_profane_form_is_recorded Ex.whole (Some "en"%string) word w
           false (_save_censored_word Ex.whole w) (s "fuck")).
  - vm_compute. reflexivity.
  - vm_compute. reflexivity.
  - reflexivity.
Defined.

(** X13. In a state [pf_ok], censoring a word once more, in the filter
    the first call left, returns the same word and leaves that filter as
    it is. *)
Theorem censoring_a_word_again_changes_nothing
    (spacy_lemma : option Language -> str -> str) pf language word w pf' :
  pf_ok pf ->
  _censor_word spacy_lemma pf language word = Ok (w, pf') ->
  _censor_word spacy_lemma pf' language word = Ok (w, pf').
Proof.
  intros Hok E.
  pose proof (censor_word_keeps_ok spacy_lemma _ _ _ _ _ Hok E) as Hok'.
  destruct (censor_word_outcomes spacy_lemma pf language word Hok)
    as [[_ E']|[(Hl & w0 & _ & E')|[(Hl & _ & _ & lemma & _ & _ & E')|(_ & _ & _ & E')]]];
    rewrite E' in E; [by injection E as <- <-| | |done].
  - injection E as <- <-.
    apply censor_word_cached; [done| |by apply left_alone_saved].
    apply lookup_insert_eq.
  - injection E as <- <-.
    apply censor_word_cached; [done| |by apply left_alone_saved].
    apply lookup_insert_eq.
Qed.

(** An instance: the word "fuck" in the filter that has just censored
    it. *)
Lemma censoring_a_word_again_changes_nothing_witness :
  let word := _make_spacy_token Ex.lower_lemma (Some "en"%string) (s "fuck") in
  let w := mkWord (s "fuck") (s "****") (Some (s "fuck")) in
  _censor_word Ex.lower_lemma (_save_censored_word Ex.whole w)
    (Some "en"%string) word
  = Ok (w, _save_censored_word Ex.whole w).
Proof.
  intros word w.
  apply (censoring_a_word_again_changes_nothing Ex.lower_lemma Ex.whole
           (Some "en"%string) word w (_save_censored_word Ex.whole w)).
  - apply fresh_ok; vm_compute; reflexivity.
  - vm_compute. reflexivity.
Defined.

(** X14. [_censor_word] reads the text of the token it is given and
    nothing else of it: two tokens with the same text give the same
    result. *)
Theorem only_the_text_of_the_token_matters
    (spacy_lemma : option Language -> str -> str) pf language word word' :
  text word = text word' ->
  _censor_word spacy_lemma pf language word
  = _censor_word spacy_lemma pf language word'.
Proof.
  intros H. unfold _censor_word, _censor_word_run. rewrite H.
  rewrite (passes_loop_text spacy_lemma word word' language H).
  destruct (passes_loop _ _ _ _ _ _ _ _ _) as [r| |]; [|done..].
  rewrite !bind_Ok. unfold finish_word, _save_word_with_no_profanity_inside.
  by rewrite H.
Qed.

(** An instance: the token "fuck" with made-up attributes and with its own. *)
Lemma only_the_text_of_the_token_matters_witness :
  _censor_word Ex.lower_lemma Ex.whole (Some "en"%string)
    (mkToken (s "fuck") (s "love") (s "peace"))
  = _censor_word Ex.lower_lemma Ex.whole (Some "en"%string)
      (mkToken (s "fuck") (s "fuck") (s "fuck")).
Proof.
  apply (only_the_text_of_the_token_matters Ex.lower_lemma Ex.whole
           (Some "en"%string)). reflexivity.
Defined.

(** X15. With deep analysis off, a word that consists of censor
    characters, the empty word included, is returned unchanged and the
    filter is left as it was, whatever the dictionary lists and whether or
    not whole words are masked. *)
Theorem masked_text_is_not_inspected
    (spacy_lemma : option Language -> str -> str) pf language word :
  DEEP ∉ _analyses pf ->
  fully_censored (_censor_char pf) (text word) = true ->
  _censor_word spacy_lemma pf language word
  = Ok (mkWord (text word) (text word) None, pf).
Proof.
  intros Hd Hf. unfold _censor_word, _censor_word_run.
  rewrite passes_loop_S. rewrite bool_decide_eq_false_2 by done.
  unfold _drop_fully_censored_words. simpl censored.
  rewrite no_span_of_censored by done. rewrite !bind_Ok. simpl.
  by rewrite finish_word_unchanged.
Qed.

(** An instance: the word "***" when the dictionary of "en" lists "***" and
    whole-word masking is off. *)
Lemma masked_text_is_not_inspected_witness :
  let pf := set_profane_word_dictionaries
              {[ "en"%string := [s "***"] ]} Ex.partial in
  let word := _make_spacy_token Ex.lower_lemma (Some "en"%string) (s "***") in
  _is_profane_word pf (Some "en"%string) (s "***") = true /\
  _censor_word Ex.lower_lemma pf (Some "en"%string) word
  = Ok (mkWord (s "***") (s "***") None, pf).
Proof.
  intros pf word. split; [vm_compute; reflexivity|].
  apply (masked_text_is_not_inspected Ex.lower_lemma pf (Some "en"%string) word).
  - vm_compute. apply not_elem_of_nil.
  - vm_compute. reflexivity.
Defined.

(** X16. In a state [pf_ok], [_censor_word] raises exactly when
    whole-word masking is off and the word is neither cached nor left
    alone; the exception is [UnboundLocalError], and the loop does not run
    out of passes. *)
Theorem censor_word_raises_iff
    (spacy_lemma : option Language -> str -> str) pf language word :
  pf_ok pf ->
  _censor_word spacy_lemma pf language word <> OutOfFuel /\
  forall e,
    _censor_word spacy_lemma pf language word = Raise e <->
    e = UnboundLocalError /\
    _censor_whole_words pf = false /\
    _get_censored_word pf word = None /\
    left_alone spacy_lemma pf language (text word) = false.
Proof.
  intros Hok.
  destruct (censor_word_outcomes spacy_lemma pf language word Hok)
    as [[Hl E]|[(Hl & w0 & Hc & E)|[(Hl & Hc & Hw & lemma & _ & _ & E)|(Hl & Hc & Hw & E)]]];
    rewrite E; (split; [done|]); intros e; unfold _get_censored_word;
    (split; [intros [= <-]|intros (-> & ? & ? & ?)]); try done; congruence.
Qed.

(** An instance: the word "fuck" with whole-word masking off. *)
Lemma censor_word_raises_iff_witness :
  _censor_word Ex.lower_lemma Ex.partial (Some "en"%string)
    (_make_spacy_token Ex.lower_lemma (Some "en"%string) (s "fuck"))
  = Raise UnboundLocalError.
Proof.
  apply (censor_word_raises_iff Ex.lower_lemma Ex.partial (Some "en"%string)
           (_make_spacy_token Ex.lower_lemma (Some "en"%string) (s "fuck"))).
  - apply fresh_ok; vm_compute; reflexivity.
  - split_and!; vm_compute; reflexivity.
Defined.

(** X17. In a state [pf_ok], the word [_censor_word] returns differs
    from its input exactly when the word is not left alone; the filter
    afterwards is then the filter before with the returned word saved: the
    word is found in the cache and no other entry changed. *)
Theorem masked_iff_not_left_alone
    (spacy_lemma : option Language -> str -> str) pf language word w pf' :
  pf_ok pf ->
  _censor_word spacy_lemma pf language word = Ok (w, pf') ->
  (censored w <> text word
   <-> left_alone spacy_lemma pf language (text word) = false) /\
  (censored w <> text word ->
   pf' = _save_censored_word pf w /\
   _get_censored_word pf' word = Some w /\
   forall k, k <> text word ->
             _censored_words pf' !! k = _censored_words pf !! k).
Proof.
  intros Hok E.
  assert (forall opw,
    let w := mkWord (text word) (full_mask pf (text word)) opw in
    left_alone spacy_lemma pf language (text word) = false ->
    (censored w <> text word
     <-> left_alone spacy_lemma pf language (text word) = false) /\
    (censored w <> text word ->
     _save_censored_word pf w = _save_censored_word pf w /\
     _get_censored_word (_save_censored_word pf w) word = Some w /\
     forall k, k <> text word ->
       _censored_words (_save_censored_word pf w) !! k
       = _censored_words pf !! k)) as Hmask.
  { intros opw w1 Hl. split.
    - split; [done|]. intros _. simpl.
      apply left_alone_not_masked with spacy_lemma language; [|done].
      apply Hok.
    - intros _. split; [done|]. split.
      + unfold _get_censored_word. simpl. apply lookup_insert_eq.
      + intros k Hk. simpl. by rewrite lookup_insert_ne. }
  destruct (censor_word_outcomes spacy_lemma pf language word Hok)
    as [[Hl E']|[(Hl & w0 & _ & E')|[(Hl & _ & _ & lemma & _ & _ & E')|(_ & _ & _ & E')]]];
    rewrite E' in E; try done; injection E as <- <-.
  - simpl. rewrite Hl. split; [split; done|done].
  - by apply Hmask.
  - by apply Hmask.
Qed.

(** An instance: the word "fuck" on the English dictionary. *)
Lemma masked_iff_not_left_alone_witness :
  let word := _make_spacy_token Ex.lower_lemma (Some "en"%string) (s "fuck") in
  let w := mkWord (s "fuck") (s "****") (Some (s "fuck")) in
  let pf' := _save_censored_word Ex.whole w in
  (censored w <> text word
   <-> left_alone Ex.lower_lemma Ex.whole (Some "en"%string) (text word) = false) /\
  (censored w <> text word ->
   pf' = _save_censored_word Ex.whole w /\
   _get_censored_word pf' word = Some w /\
   forall k, k <> text word ->
             _censored_words pf' !! k = _censored_words Ex.whole !! k).
Proof.
  intros word w pf'.
  apply (masked_iff_not_left_alone Ex.lower_lemma Ex.whole (Some "en"%string)
           word w pf').
  - apply fresh_ok; vm_compute; reflexivity.
  - vm_compute. reflexivity.
Defined.

(** ** Censoring a text *)

(** X18. [_replace_token] for a token that lies within the text: the
    characters before the token are kept, the replacement follows, then the
    characters after the token; the length changes by the difference of the
    lengths of the replacement and the token. *)
Theorem replace_token_in_place (text : str) old new :
  idx old + length (tok_text old) <= length text ->
  let out := _replace_token text old new in
  length out = length text - length (tok_text old) + length new /\
  take (idx old) out = take (idx old) text /\
  take (length new) (drop (idx old) out) = new /\
  drop (idx old + length new) out
  = drop (idx old + length (tok_text old)) text.
Proof.
  intros H out. split; [by apply replace_token_length|].
  subst out. unfold _replace_token, slice_to, slice_from.
  assert (length (take (idx old) text) = idx old) as Hl
    by (rewrite length_take; lia).
  split_and!.
  - rewrite take_app_le by lia. rewrite take_take. f_equal. lia.
  - rewrite drop_app_length' by done. by rewrite take_app_length.
  - rewrite drop_app_ge by lia. rewrite Hl.
    rewrite drop_app_length'; [done|lia].
Qed.

(** An instance: the token "you" of "Fuck you!" replaced by "them". *)
Lemma replace_token_in_place_witness :
  let old := mkDocToken 5 (s "you") false (s "you") in
  let out := _replace_token (s "Fuck you!") old (s "them") in
  length out = length (s "Fuck you!") - length (tok_text old) + length (s "them") /\
  take (idx old) out = take (idx old) (s "Fuck you!") /\
  take (length (s "them")) (drop (idx old) out) = s "them" /\
  drop (idx old + length (s "them")) out
  = drop (idx old + length (tok_text old)) (s "Fuck you!").
Proof.
  intros old.
  apply (replace_token_in_place (s "Fuck you!") old (s "them")).
  vm_compute. lia.
Defined.

(** X19. In a state [pf_ok], when every token lies within the text,
    the censored text has the length of the text. *)
Theorem censor_preserves_length
    (spacy_lemma : option Language -> str -> str)
    (spacy_tokens : Language -> str -> list (nat * str)) pf text out pf' :
  pf_ok pf ->
  Forall (fun it => it.1 + length it.2 <= length text)
         (spacy_tokens "en_core_web_sm"%string text) ->
  censor spacy_lemma spacy_tokens pf text = Ok (out, pf') ->
  length out = length text.
Proof.
  intros Hok Hb. rewrite censor_eq. unfold _parse.
  destruct (censor_tokens _ _ _ _) as [[doc pf1]| |] eqn:E; [|done..].
  rewrite bind_Ok. intros [= <- <-]. simpl.
  apply replace_profane_length; [|done].
  pose proof (censor_tokens_doc _ _ _ _ _ _ Hok E) as H. clear E.
  induction H as [|it d tokens' doc' (Hi & Ht & Hc) _ IH]; [constructor|].
  apply Forall_cons in Hb as [Hb Hb'].
  constructor; [|by apply IH]. rewrite Hi, Ht. split; [done|].
  intros Hp. rewrite Hc, Hp. apply length_str_mul, Hok.
Qed.

(** An instance: "Fuck you, ass!" and its censored form. *)
Lemma censor_preserves_length_witness :
  length (s "**** you, ***!") = length ExText.insult.
Proof.
  apply (censor_preserves_length Ex.lower_lemma ExText.simple_tokens
           ExText.star_mask ExText.insult (s "**** you, ***!")
           ExText.insult_filter).
  - apply fresh_ok; vm_compute; reflexivity.
  - vm_compute. repeat (apply Forall_cons_2; [lia|]). constructor.
  - vm_compute. reflexivity.
Defined.

(** X20. In a state [pf_ok], the censored text is at least as long as
    the text, each of its characters is the character of the text at that
    position or the censor character, and a position of the text that no
    token covers keeps its character. *)
Theorem censor_touches_tokens_only
    (spacy_lemma : option Language -> str -> str)
    (spacy_tokens : Language -> str -> list (nat * str)) pf text out pf' :
  pf_ok pf ->
  censor spacy_lemma spacy_tokens pf text = Ok (out, pf') ->
  length text <= length out /\
  (forall k c, out !! k = Some c ->
               text !! k = Some c \/ [c] = _censor_char pf) /\
  (forall k, k < length text ->
             Forall (fun it => ~ covers it.1 it.2 k)
                    (spacy_tokens "en_core_web_sm"%string text) ->
             out !! k = text !! k).
Proof.
  intros Hok. rewrite censor_eq. unfold _parse.
  destruct (censor_tokens _ _ _ _) as [[doc pf1]| |] eqn:E; [|done..].
  rewrite bind_Ok. intros [= <- <-]. simpl.
  destruct (replace_profane_spec (_censor_char pf) doc
              (doc_masks _ _ _ _ _ _ Hok E) (ok_censor_char _ Hok) text)
    as (H1 & H2 & H3).
  split; [done|]. split; [done|].
  intros k Hk Hc. apply H3; [done|].
  pose proof (censor_tokens_doc _ _ _ _ _ _ Hok E) as H.
  clear -H Hc.
  induction H as [|it d tokens' doc' (Hi & Ht & _) _ IH]; [constructor|].
  apply Forall_cons in Hc as [Hc Hc'].
  constructor; [|by apply IH]. by rewrite Hi, Ht.
Qed.

(** An instance: "Fuck you, ass!" and its censored form. *)
Lemma censor_touches_tokens_only_witness :
  let out := s "**** you, ***!" in
  length ExText.insult <= length out /\
  (forall k c, out !! k = Some c ->
               ExText.insult !! k = Some c \/ [c] = _censor_char ExText.star_mask) /\
  (forall k, k < length ExText.insult ->
             Forall (fun it => ~ covers it.1 it.2 k)
                    (ExText.simple_tokens "en_core_web_sm"%string ExText.insult) ->
             out !! k = ExText.insult !! k).
Proof.
  intros out.
  apply (censor_touches_tokens_only Ex.lower_lemma ExText.simple_tokens
           ExText.star_mask ExText.insult out ExText.insult_filter).
  - apply fresh_ok; vm_compute; reflexivity.
  - vm_compute. reflexivity.
Defined.

(** X21. In a state [pf_ok] with whole-word masking on, [censor]
    returns for every text; the filter it leaves is again [pf_ok] and
    differs from the one before in the cache of censored words only. *)
Theorem censor_returns_when_masking_whole_words
    (spacy_lemma : option Language -> str -> str)
    (spacy_tokens : Language -> str -> list (nat * str)) pf text :
  pf_ok pf -> _censor_whole_words pf = true ->
  exists out pf',
    censor spacy_lemma spacy_tokens pf text = Ok (out, pf') /\
    pf_ok pf' /\ same_but_cache pf pf'.
Proof.
  intros Hok Hw. rewrite censor_eq. unfold _parse.
  destruct (censor_tokens_returns spacy_lemma "en_core_web_sm"%string
              (spacy_tokens "en_core_web_sm"%string text) pf Hok Hw)
    as (doc & pf1 & E).
  rewrite E, bind_Ok. eexists _, _. split; [done|]. simpl.
  by destruct (censor_tokens_spec _ _ _ _ _ _ Hok E) as (? & ? & _).
Qed.

(** An instance: "Fuck you, ass!" under the filter with the censor character
    "*". *)
Lemma censor_returns_when_masking_whole_words_witness :
  exists out pf',
    censor Ex.lower_lemma ExText.simple_tokens ExText.star_mask ExText.insult
    = Ok (out, pf') /\
    pf_ok pf' /\ same_but_cache ExText.star_mask pf'.
Proof.
  apply (censor_returns_when_masking_whole_words Ex.lower_lemma
           ExText.simple_tokens ExText.star_mask ExText.insult).
  - apply fresh_ok; vm_compute; reflexivity.
  - vm_compute. reflexivity.
Defined.

(** X22. In a state [pf_ok], censoring the same text once more, in the
    filter the first call left, gives the same output and leaves that
    filter as it is: what the cache answers is what the dictionary
    answered. *)
Theorem censoring_a_text_again_changes_nothing
    (spacy_lemma : option Language -> str -> str)
    (spacy_tokens : Language -> str -> list (nat * str)) pf text out pf' :
  pf_ok pf ->
  censor spacy_lemma spacy_tokens pf text = Ok (out, pf') ->
  censor spacy_lemma spacy_tokens pf' text = Ok (out, pf').
Proof.
  intros Hok. rewrite !censor_eq. unfold _parse.
  destruct (censor_tokens _ pf _ _) as [[doc pf1]| |] eqn:E; [|done..].
  rewrite bind_Ok. intros [= <- <-]. simpl.
  by rewrite (censor_tokens_again _ _ _ _ _ _ Hok E), bind_Ok.
Qed.

(** An instance: "Fuck you, ass!" in the filter that has just censored
    it. *)
Lemma censoring_a_text_again_changes_nothing_witness :
  censor Ex.lower_lemma ExText.simple_tokens ExText.insult_filter ExText.insult
  = Ok (s "**** you, ***!", ExText.insult_filter).
Proof.
  apply (censoring_a_text_again_changes_nothing Ex.lower_lemma
           ExText.simple_tokens ExText.star_mask).
  - apply fresh_ok; vm_compute; reflexivity.
  - vm_compute. reflexivity.
Defined.

(** ** Parts of a text by language *)

(** X23. [_merge_by_language] fails on no parts at all and on nothing
    else; the parts it returns make up the same text, no two neighbours
    among them have the same language, there is at least one and no more
    than before, and their languages are languages of the input, starting
    with the same. *)
Theorem merging_keeps_the_text parts :
  (_merge_by_language parts = None <-> parts = []) /\
  forall merged,
    _merge_by_language parts = Some merged ->
    whole_text merged = whole_text parts /\
    alternating merged /\
    0 < length merged <= length parts /\
    head (merged.*1) = head (parts.*1) /\
    merged.*1 ⊆ parts.*1.
Proof.
  destruct parts as [|[l t] parts]; simpl.
  - split; [done|]. done.
  - split; [split; done|]. intros merged [= <-].
    destruct (merge_loop_spec parts l t) as (m' & rest & -> & Ht & Ha & Hl & Hs).
    split; [done|]. split; [done|]. split; [simpl; lia|].
    split; [done|set_solver].
Qed.

(** X24. Parts whose neighbours all differ in language are returned as
    they are by [_merge_by_language]; hence merging what a merge returned
    changes nothing. *)
Theorem merging_alternating_parts_changes_nothing parts :
  (parts <> [] -> alternating parts -> _merge_by_language parts = Some parts) /\
  (forall merged,
     _merge_by_language parts = Some merged ->
     _merge_by_language merged = Some merged).
Proof.
  assert (forall ps, ps <> [] -> alternating ps ->
                     _merge_by_language ps = Some ps) as H.
  { intros [|[l t] ps] Hne Ha; [done|]. simpl.
    by rewrite merge_loop_alternating. }
  split; [apply H|].
  intros merged E. destruct parts as [|[l t] parts]; [done|].
  injection E as <-.
  destruct (merge_loop_spec parts l t) as (m' & rest & E & _ & Ha & _).
  simpl. rewrite E. apply H; done.
Qed.

(** An instance: an English part followed by a Russian one. *)
Lemma merging_alternating_parts_changes_nothing_witness :
  _merge_by_language [("en"%string, s "ab"); ("ru"%string, s "cd")]
  = Some [("en"%string, s "ab"); ("ru"%string, s "cd")].
Proof.
  refine (proj1 (merging_alternating_parts_changes_nothing
                   [("en"%string, s "ab"); ("ru"%string, s "cd")]) _ _).
  - done.
  - simpl. split; [done|]. split; done.
Defined.

(** ** Configuration *)

(** X25. With cache clearing enabled, [restore_profane_word_dictionaries]
    raises exactly when no configured language has a word file;
    otherwise it leaves no custom and no extra dictionary, empty caches,
    and for every language the dictionary loaded from its word file. *)
Theorem restoring_gives_the_file_dictionaries pf :
  _cache_clearing_disabled pf = false ->
  (Config.restore_profane_word_dictionaries pf = Raise ProfanityFilterError
   <-> forall l, l ∈ _languages pf -> _DATA_DIR pf l = None) /\
  (forall pf',
     Config.restore_profane_word_dictionaries pf = Ok pf' ->
     _custom_profane_word_dictionaries pf' = ∅ /\
     _extra_profane_word_dictionaries pf' = ∅ /\
     _censored_words pf' = ∅ /\ _words_with_no_profanity_inside pf' = ∅ /\
     forall l w, w ∈ dict_get (profane_word_dictionaries pf') l
                 <-> w ∈ base_dictionary pf l).
Proof.
  intros Hd. rewrite <- files_of_nil.
  destruct (restore_eq pf Hd) as [[Hf E]|(pf1 & E & H)]; rewrite E.
  - split; [done|]. done.
  - split; [split; [done|]|by intros pf' [= <-]].
    intros Hf.
    destruct (clear_cache_cases (set_custom_field ∅ pf) Hd)
      as [[_ E1]|(Hf1 & _)]; [|done].
    unfold Config.restore_profane_word_dictionaries,
      Config.set_custom_profane_word_dictionaries in E.
    simpl Config.acceptable in E. by rewrite E1 in E.
Qed.

(** An instance: the filter with a custom dictionary for "ru". *)
Lemma restoring_gives_the_file_dictionaries_witness :
  (Config.restore_profane_word_dictionaries ExDict.custom_ru
   = Raise ProfanityFilterError
   <-> forall l, l ∈ _languages ExDict.custom_ru ->
                 _DATA_DIR ExDict.custom_ru l = None) /\
  (forall pf',
     Config.restore_profane_word_dictionaries ExDict.custom_ru = Ok pf' ->
     _custom_profane_word_dictionaries pf' = ∅ /\
     _extra_profane_word_dictionaries pf' = ∅ /\
     _censored_words pf' = ∅ /\ _words_with_no_profanity_inside pf' = ∅ /\
     forall l w, w ∈ dict_get (profane_word_dictionaries pf') l
                 <-> w ∈ base_dictionary ExDict.custom_ru l).
Proof.
  apply (restoring_gives_the_file_dictionaries ExDict.custom_ru).
  vm_compute. reflexivity.
Defined.

(** X26. With cache clearing enabled, every setter that returns leaves
    both word caches empty, cache clearing enabled, and the dictionaries
    resolved from the settings it leaves. *)
Theorem setters_empty_the_word_caches pf pf' :
  _cache_clearing_disabled pf = false ->
  (exists v, Config.set_analyses v pf = Ok pf')
  \/ (exists v, Config.set_censor_char v pf = Ok pf')
  \/ (exists v, Config.set_censor_whole_words v pf = Ok pf')
  \/ (exists v, Config.set_custom_profane_word_dictionaries v pf = Ok pf')
  \/ (exists v, Config.set_extra_profane_word_dictionaries v pf = Ok pf')
  \/ (exists m v b, Config._set_languages m v b pf = Ok pf')
  \/ (exists m v, Config.set_nlps m v pf = Ok pf') ->
  _censored_words pf' = ∅ /\ _words_with_no_profanity_inside pf' = ∅ /\
  _cache_clearing_disabled pf' = false /\
  forall l w, w ∈ dict_get (profane_word_dictionaries pf') l
              <-> resolves_to pf' l w.
Proof.
  intros Hd H.
  assert (exists pf0 pf1,
            _cache_clearing_disabled pf0 = false /\
            Config.clear_cache pf0 = Ok pf1 /\
            (pf' = pf1 \/ exists v, pf' = set_nlps_field v pf1))
    as (pf0 & pf1 & Hd0 & E & Hlast).
  { destruct H
      as [[v E]|[[v E]|[[v E]|[[v E]|[[v E]|[(m & v & b & E)|(m & v & E)]]]]]];
      try (eexists _, pf'; split; [|split; [exact E|by left]]; exact Hd).
    - unfold Config.set_censor_char in E. case_bool_decide; [done|].
      eexists _, pf'; split; [|split; [exact E|by left]]; exact Hd.
    - apply set_languages_last in E as (pf0 & E & Hd0 & _); [|done].
      exists pf0, pf'. split; [done|]. split; [done|by left].
    - apply set_nlps_last in E as (pf1 & nl & E & ->); [|done].
      exists pf, pf1. split; [done|]. split; [done|]. right. by exists nl. }
  destruct (clear_cache_after pf0 pf1 Hd0 E) as (_ & Hs & Hc & Hn & Hr).
  assert (_censored_words pf1 = ∅ /\ _words_with_no_profanity_inside pf1 = ∅ /\
          _cache_clearing_disabled pf1 = false /\
          forall l w, w ∈ dict_get (profane_word_dictionaries pf1) l
                      <-> resolves_to pf1 l w) as Hpf1.
  { split; [done|]. split; [done|].
    split; [destruct Hs as (_ & _ & Hx & _); congruence|].
    intros l w. rewrite Hr. symmetry. by apply same_config_resolves. }
  destruct Hlast as [->|[v ->]]; [done|]. exact Hpf1.
Qed.

(** An instance: switching whole-word masking off in the English filter that
    has "fuck" in its cache. *)
Lemma setters_empty_the_word_caches_witness :
  _censored_words Ex.partial = ∅ /\
  _words_with_no_profanity_inside Ex.partial = ∅ /\
  _cache_clearing_disabled Ex.partial = false /\
  forall l w, w ∈ dict_get (profane_word_dictionaries Ex.partial) l
              <-> resolves_to Ex.partial l w.
Proof.
  apply (setters_empty_the_word_caches
           (_save_censored_word Ex.whole
              (mkWord (s "fuck") (s "****") (Some (s "fuck"))))
           Ex.partial).
  - vm_compute. reflexivity.
  - right. right. left. exists false. vm_compute. reflexivity.
Defined.

(** X27. [__init__] raises [ValueError] exactly when the censor
    character is not one character long, whatever the data directory and
    the installed models are; and it returns a filter exactly when the
    censor character is one character long, a pipeline is given or the
    model of some language loads, and some language has a word file. *)
Theorem init_outcomes dd spacy_load languages analyses cc whole custom extra
    nlps :
  (Config.init dd spacy_load languages analyses cc whole custom extra nlps
   = Raise ValueError
   <-> length cc <> 1) /\
  ((exists pf,
      Config.init dd spacy_load languages analyses cc whole custom extra nlps
      = Ok pf)
   <-> length cc = 1 /\
       (nlps = None -> exists l, l ∈ languages /\ spacy_load l = true) /\
       exists l, l ∈ languages /\ is_Some (dd l)).
Proof.
  rewrite init_eq.
  pose proof (init_files dd spacy_load languages analyses cc whole custom
                extra nlps) as Hfiles.
  cbv zeta in Hfiles.
  assert ((nlps = None -> exists l, l ∈ languages /\ spacy_load l = true)
          <-> ~ (nlps = None /\ pipelines spacy_load languages nlps = ∅))
    as Hmodels.
  { rewrite no_pipeline. split.
    - intros H [Hn Hall]. destruct (H Hn) as (l & Hl & Hm).
      rewrite (Hall l Hl) in Hm. done.
    - intros H ->. simpl in H.
      destruct (decide (Config.load_models spacy_load
                          (OrderedSet.of_iter languages) = ∅)) as [He|He].
      + destruct H. split; [done|]. intros l Hl.
        eapply load_models_empty; [exact He|]. by rewrite elem_of_of_iter.
      + apply set_choose_L in He as [l Hl].
        apply elem_of_load_models in Hl as [Hl Hm].
        rewrite elem_of_of_iter in Hl. by exists l. }
  case_bool_decide as Hc.
  - split; [done|]. split; [by intros [? ?]|by intros [? _]].
  - case_bool_decide as Hn.
    { split; [split; [done|tauto]|]. split; [by intros [? ?]|].
      intros (_ & Hm & _). by apply Hmodels in Hm. }
    match goal with
    | |- context [Config.clear_cache ?p] =>
        destruct (clear_cache_cases p eq_refl)
          as [[Hf E]|(Hf & pf1 & E & _)]; rewrite E
    end.
    + split; [split; [done|tauto]|].
      split; [by intros [? ?]|]. intros (_ & _ & H). by apply Hfiles in H.
    + split; [split; [done|tauto]|].
      split; [intros _|by eexists]. split; [tauto|].
      split; [by apply Hmodels|by apply Hfiles].
Qed.

(** X28. The filter [__init__] returns is in a state [pf_ok]; it holds
    the data directory, the censor character, the whole-word flag and the
    dictionaries it was given, its languages are those given without
    repetition, its pipelines are those given or else those of the
    languages whose model loads, its analyses are empty, cache clearing is
    enabled, both word caches are empty, and its dictionaries are resolved
    from these settings. *)
Theorem init_builds_the_configured_filter
    dd spacy_load languages analyses cc whole custom extra nlps pf :
  Config.init dd spacy_load languages analyses cc whole custom extra nlps
  = Ok pf ->
  pf_ok pf /\
  _DATA_DIR pf = dd /\ _analyses pf = [] /\ _censor_char pf = cc /\
  _censor_whole_words pf = whole /\
  _custom_profane_word_dictionaries pf = Config.acceptable custom /\
  _extra_profane_word_dictionaries pf = Config.acceptable extra /\
  _languages pf = OrderedSet.of_iter languages /\
  _nlps pf = pipelines spacy_load languages nlps /\
  _cache_clearing_disabled pf = false /\
  _censored_words pf = ∅ /\ _words_with_no_profanity_inside pf = ∅ /\
  forall l w, w ∈ dict_get (profane_word_dictionaries pf) l
              <-> resolves_to pf l w.
Proof.
  intros E. split; [by eapply init_ok|]. revert E.
  rewrite init_eq. case_bool_decide as Hc; [done|].
  case_bool_decide as Hm; [done|]. intros E.
  assert (_nlps pf = pipelines spacy_load languages nlps) as Hnl.
  { revert E. unfold Config.clear_cache. simpl.
    rewrite update_files_eq.
    destruct (files_of _) as [|f fs]; [done|]. rewrite bind_Ok.
    unfold Config._update_profane_word_dictionaries. simpl.
    destruct (Config.compute_profane_word_dictionaries _)
      as [[r pf2]| |] eqn:E2; [|done..].
    rewrite !bind_Ok. intros [= <-]. simpl.
    revert E2. unfold Config.compute_profane_word_dictionaries,
      Config._load_profane_word_dictionaries. simpl.
    destruct (bool_decide _).
    - rewrite !bind_Ok. by intros [= _ <-].
    - rewrite update_files_eq.
      destruct (files_of _) as [|f' fs']; [done|].
      rewrite !bind_Ok. by intros [= _ <-]. }
  apply clear_cache_after in E as (_ & Hs & Hcw & Hn & Hr); [|done].
  pose proof Hs as (-> & -> & -> & -> & -> & -> & -> & ->).
  simpl. unfold AVAILABLE_ANALYSES. rewrite intersection_nil.
  split_and!; try done.
  intros l w. rewrite Hr. symmetry. by apply same_config_resolves.
Qed.

(** An instance: the English filter. *)
Lemma init_builds_the_configured_filter_witness :
  pf_ok Ex.whole /\
  _DATA_DIR Ex.whole = Ex.english /\ _analyses Ex.whole = [] /\
  _censor_char Ex.whole = s "*" /\
  _censor_whole_words Ex.whole = true /\
  _custom_profane_word_dictionaries Ex.whole = Config.acceptable None /\
  _extra_profane_word_dictionaries Ex.whole = Config.acceptable None /\
  _languages Ex.whole = OrderedSet.of_iter ["en"%string] /\
  _nlps Ex.whole = pipelines Ex.installed ["en"%string] None /\
  _cache_clearing_disabled Ex.whole = false /\
  _censored_words Ex.whole = ∅ /\
  _words_with_no_profanity_inside Ex.whole = ∅ /\
  forall l w, w ∈ dict_get (profane_word_dictionaries Ex.whole) l
              <-> resolves_to Ex.whole l w.
Proof.
  apply (init_builds_the_configured_filter Ex.english Ex.installed
           ["en"%string] [DEEP; MORPHOLOGICAL; MULTILINGUAL] (s "*") true
           None None None Ex.whole).
  vm_compute. reflexivity.
Defined.

(** X29. With cache clearing enabled, [clear_cache] on the filter a
    [clear_cache] has left returns that filter unchanged. *)
Theorem clearing_the_cache_twice_is_clearing_it_once pf pf' :
  _cache_clearing_disabled pf = false ->
  Config.clear_cache pf = Ok pf' ->
  Config.clear_cache pf' = Ok pf'.
Proof.
  intros Hd E. rewrite clear_cache_eq in E by done.
  destruct (files_of pf) as [|f fs] eqn:Hf; [done|]. injection E as <-.
  rewrite clear_cache_eq by (by destruct pf).
  assert (files_of (cleared pf) = files_of pf) as -> by (by destruct pf).
  by rewrite Hf, cleared_cleared.
Qed.

(** An instance: the English filter, which is what [clear_cache] makes of
    the English filter with "fuck" in its cache. *)
Lemma clearing_the_cache_twice_is_clearing_it_once_witness :
  Config.clear_cache Ex.whole = Ok Ex.whole.
Proof.
  apply (clearing_the_cache_twice_is_clearing_it_once
           (_save_censored_word Ex.whole
              (mkWord (s "fuck") (s "****") (Some (s "fuck"))))).
  - vm_compute. reflexivity.
  - vm_compute. reflexivity.
Defined.

(** X30. In the filter [__init__] returns, the languages and the
    resolved dictionary of every language are free of duplicates. *)
Theorem built_dictionaries_are_sets
    dd spacy_load languages analyses cc whole custom extra nlps pf :
  Config.init dd spacy_load languages analyses cc whole custom extra nlps
  = Ok pf ->
  NoDup (_languages pf) /\
  forall l, NoDup (dict_get (profane_word_dictionaries pf) l).
Proof.
  intros E. split.
  - apply init_ok in E as (_ & _ & -> & _). apply NoDup_of_iter.
  - revert E. rewrite init_eq. case_bool_decide; [done|].
    case_bool_decide; [done|]. intros E l.
    apply sets_only_get. eapply clear_cache_sets_only; [|  |exact E]; [done|].
    simpl. apply sets_only_acceptable.
Qed.

(** An instance: the English filter. *)
Lemma built_dictionaries_are_sets_witness :
  NoDup (_languages Ex.whole) /\
  forall l, NoDup (dict_get (profane_word_dictionaries Ex.whole) l).
Proof.
  apply (built_dictionaries_are_sets Ex.english Ex.installed ["en"%string]
           [DEEP; MORPHOLOGICAL; MULTILINGUAL] (s "*") true None None None
           Ex.whole).
  vm_compute. reflexivity.
Defined.
